(** * libwyag: object codecs, object store, name resolution, index parser,
    references, tags, history, checkout and the making of a repository

    A shallow embedding of [src/libwyag.py].  Python [bytes] and [str] values
    are lists of 8-bit characters, integers are [Z], exceptions are values of
    [exn], and loops or recursions that need not terminate carry fuel.

    What lies outside the source is modelled as follows.  The file system is
    a finite map from path text to files and directories; functions that
    create something return the new file system with their outcome.
    [zlib] and [hashlib] are parameters ([Libs]), of which only
    [decompress (compress b) = b] is assumed.  A text-mode read decodes
    ASCII and translates newlines; a text-mode write encodes ASCII.  What
    [configparser] makes of a file is a parameter.  Slices, [find], indexing, [replace],
    [int], [hex], [str], [int.from_bytes] and [int.to_bytes] follow CPython,
    negative indices and out-of-range bounds included. *)

From Stdlib Require Import ZArith Ascii String List Lia.
From stdpp Require Import base option list gmap strings.

Local Open Scope Z_scope.

(** ** Python values *)

Abbreviation bytes := (list ascii).
Abbreviation str := (list ascii).

(** [B "..."] is the literal [b"..."], [U "..."] the literal ["..."]. *)
Definition B (s : string) : bytes := list_ascii_of_string s.
Definition U (s : string) : str := list_ascii_of_string s.

Definition NUL : ascii := "000"%char.
Definition LF : ascii := "010"%char.
Definition CR : ascii := "013"%char.
Definition SP : ascii := " "%char.

Definition ord (c : ascii) : Z := Z.of_N (N_of_ascii c).
Definition chr (n : Z) : ascii := ascii_of_N (Z.to_N n).

Definition len {A} (l : list A) : Z := Z.of_nat (length l).

(** ** Exceptions and outcomes *)

(** The exceptions the modelled code can raise.  [Exception msg] is the
    source's own [raise Exception(msg)]; the others are raised by the
    interpreter or the standard library. *)
Inductive exn : Type :=
| Exception (msg : str)
| AssertionError
| IndexError
| KeyError (key : bytes)
| ValueError
| TypeError
| AttributeError
| OverflowError
| UnicodeDecodeError
| FileNotFoundError (path : str)
| IsADirectoryError (path : str)
| NotADirectoryError (path : str)
| FileExistsError (path : str)
| ZlibError.

(** What a call does: it returns, it raises, or the fuel given to it ran out
    before it did either. *)
Inductive outcome (A : Type) : Type :=
| Ret (a : A)
| Raise (e : exn)
| NoFuel.
Arguments Ret {A} a.
Arguments Raise {A} e.
Arguments NoFuel {A}.

Definition bind {A C} (m : outcome A) (k : A -> outcome C) : outcome C :=
  match m with
  | Ret a => k a
  | Raise e => Raise e
  | NoFuel => NoFuel
  end.

Global Instance outcome_bind : MBind outcome := fun A C k m => bind m k.
Global Instance outcome_ret : MRet outcome := fun A a => Ret a.

Definition assert (b : bool) : outcome unit :=
  if b then Ret tt else Raise AssertionError.

Definition terminates {A} (m : outcome A) : Prop := m <> NoFuel.

(** ** Sequence primitives *)

(** Index adjustment of a slice bound ([PySlice_AdjustIndices], step 1). *)
Definition clamp (n i : Z) : Z :=
  if i <? 0 then Z.max 0 (i + n) else Z.min i n.

(** [slice l lo hi] is [l[lo:hi]]. *)
Definition slice {A} (l : list A) (lo hi : Z) : list A :=
  let lo' := clamp (len l) lo in
  let hi' := clamp (len l) hi in
  take (Z.to_nat (hi' - lo')) (drop (Z.to_nat lo') l).

(** [slice_from l lo] is [l[lo:]], [slice_to l hi] is [l[:hi]]. *)
Definition slice_from {A} (l : list A) (lo : Z) : list A :=
  drop (Z.to_nat (clamp (len l) lo)) l.
Definition slice_to {A} (l : list A) (hi : Z) : list A :=
  take (Z.to_nat (clamp (len l) hi)) l.

(** [getitem l i] is [l[i]]: [None] stands for IndexError. *)
Definition getitem {A} (l : list A) (i : Z) : option A :=
  let j := if i <? 0 then i + len l else i in
  if (j <? 0) || (len l <=? j) then None else l !! Z.to_nat j.

Definition ascii_eqb (a b : ascii) : bool := bool_decide (a = b).

Fixpoint find_from (c : ascii) (l : bytes) (i : Z) : Z :=
  match l with
  | [] => -1
  | x :: t => if ascii_eqb x c then i else find_from c t (i + 1)
  end.

(** [find l c start] is [l.find(c, start)] for a needle [c] of one byte. *)
Definition find (l : bytes) (c : ascii) (start : Z) : Z :=
  let s := if start <? 0 then Z.max 0 (start + len l) else start in
  find_from c (drop (Z.to_nat s) l) s.

Fixpoint startswith (l p : str) {struct p} : bool :=
  match p, l with
  | [], _ => true
  | _ :: _, [] => false
  | a :: p', b :: l' => ascii_eqb a b && startswith l' p'
  end.

(** [replace old new l] is [l.replace(old, new)] for a non-empty [old]: the
    matches are taken left to right and do not overlap.  [skip] counts the
    characters of a match still to pass over. *)
Fixpoint replace_aux (old new : bytes) (skip : nat) (l : bytes) : bytes :=
  match l with
  | [] => []
  | c :: t =>
      match skip with
      | S k => replace_aux old new k t
      | O =>
          if startswith l old
          then new ++ replace_aux old new (length old - 1)%nat t
          else c :: replace_aux old new O t
      end
  end.
Definition replace (old new l : bytes) : bytes := replace_aux old new O l.

(** ** Integers and their text *)

(** [int.from_bytes(l, "big")]. *)
Definition from_bytes (l : bytes) : Z :=
  fold_left (fun acc c => acc * 256 + ord c) l 0.

Fixpoint to_bytes_aux (n : nat) (v : Z) (acc : bytes) : bytes :=
  match n with
  | O => acc
  | S k => to_bytes_aux k (v / 256) (chr (v mod 256) :: acc)
  end.

(** [v.to_bytes(n, byteorder="big")]. *)
Definition to_bytes (v : Z) (n : nat) : outcome bytes :=
  if (v <? 0) || (256 ^ Z.of_nat n <=? v) then Raise OverflowError
  else Ret (to_bytes_aux n v []).

Definition digit_char (d : Z) : ascii :=
  nth (Z.to_nat d) (U "0123456789abcdef") "0"%char.

Fixpoint to_digits (fuel : nat) (base v : Z) (acc : str) : str :=
  match fuel with
  | O => acc
  | S k =>
      if v <? base then digit_char v :: acc
      else to_digits k base (v / base) (digit_char (v mod base) :: acc)
  end.

(** The digits of [v >= 0] in [base], most significant first, ["0"] for 0. *)
Definition digits (base v : Z) : str :=
  to_digits (S (Z.to_nat (Z.log2 v))) base v [].

(** [hex(v)] and [str(v)]. *)
Definition hex (v : Z) : str :=
  if v <? 0 then U "-0x" ++ digits 16 (- v) else U "0x" ++ digits 16 v.
Definition str_of_int (v : Z) : str :=
  if v <? 0 then U "-" ++ digits 10 (- v) else digits 10 v.

(** Value of a digit character, letters in either case. *)
Definition digit_val (c : ascii) : option Z :=
  let n := ord c in
  if (48 <=? n) && (n <=? 57) then Some (n - 48)
  else if (97 <=? n) && (n <=? 122) then Some (n - 87)
  else if (65 <=? n) && (n <=? 90) then Some (n - 55)
  else None.

(** [str.isspace] on code points below 256. *)
Definition isspace (c : ascii) : bool :=
  let n := ord c in
  ((9 <=? n) && (n <=? 13)) || ((28 <=? n) && (n <=? 32))
  || (n =? 133) || (n =? 160).

Fixpoint lstrip (l : str) : str :=
  match l with
  | c :: t => if isspace c then lstrip t else l
  | [] => []
  end.
Definition strip (l : str) : str := rev (lstrip (rev (lstrip l))).

(** Digits with single underscores between them. *)
Fixpoint int_digits (base : Z) (prev_us : bool) (l : str) (acc : Z) : option Z :=
  match l with
  | [] => if prev_us then None else Some acc
  | c :: t =>
      if ascii_eqb c "_"%char
      then (if prev_us then None else int_digits base true t acc)
      else match digit_val c with
           | Some d => if d <? base then int_digits base false t (acc * base + d)
                       else None
           | None => None
           end
  end.

Definition int_unsigned (base : Z) (l : str) : option Z :=
  let l1 :=
    match l with
    | z :: x :: t =>
        if ascii_eqb z "0"%char && (base =? 16)
           && (ascii_eqb x "x"%char || ascii_eqb x "X"%char)
        then match t with
             | u :: t' => if ascii_eqb u "_"%char then t' else t
             | [] => t
             end
        else l
    | _ => l
    end in
  match l1 with
  | [] => None
  | c :: _ => if ascii_eqb c "_"%char then None else int_digits base false l1 0
  end.

(** [int(s, base)] for base 10 or 16: surrounding white space, a sign, for
    base 16 a [0x] prefix, then the digits.  [None] stands for ValueError.
    The interpreter's limit on the number of decimal digits (4300 since
    CPython 3.11, none for base 16) is not modelled: a statement about
    digits read from a file bounds their number. *)
Definition int_of_str (base : Z) (s : str) : option Z :=
  match strip s with
  | c :: t =>
      if ascii_eqb c "-"%char then Z.opp <$> int_unsigned base t
      else if ascii_eqb c "+"%char then int_unsigned base t
      else int_unsigned base (c :: t)
  | [] => None
  end.

(** [b.decode("ascii")]. *)
Definition decode_ascii (b : bytes) : outcome str :=
  if forallb (fun c => ord c <? 128) b then Ret b else Raise UnicodeDecodeError.

(** [s.lower()] on code points below 256. *)
Definition lower_char (c : ascii) : ascii :=
  let n := ord c in
  if ((65 <=? n) && (n <=? 90))
     || ((192 <=? n) && (n <=? 222) && negb (n =? 215))
  then chr (n + 32) else c.
Definition lower (s : str) : str := map lower_char s.

(** ** Tree entries: [GitTreeLeaf], [tree_parse_one], [tree_parse],
    [tree_serializer] *)

Record GitTreeLeaf : Type := mkLeaf { mode : bytes; path : bytes; sha : str }.

Definition SHA_BYTES_LEN : Z := 20.

Definition tree_parse_one (raw : bytes) (start : Z) : outcome (Z * GitTreeLeaf) :=
  let x := find raw SP start in
  _ ← assert ((x - start =? 5) || (x - start =? 6));
  let mode := slice raw start x in
  let y := find raw NUL x in
  let path := slice raw (x + 1) y in
  let sha :=
    slice_from (hex (from_bytes (slice raw (y + 1) (y + SHA_BYTES_LEN + 1)))) 2 in
  Ret (y + SHA_BYTES_LEN + 1, mkLeaf mode path sha).

(** The [while pos < max] loop of [tree_parse]; one unit of fuel per entry. *)
Fixpoint tree_parse_loop (fuel : nat) (raw : bytes) (pos : Z)
    (ret : list GitTreeLeaf) : outcome (list GitTreeLeaf) :=
  match fuel with
  | O => NoFuel
  | S k =>
      if pos <? len raw then
        '(pos', data) ← tree_parse_one raw pos;
        tree_parse_loop k raw pos' (ret ++ [data])
      else Ret ret
  end.

Definition tree_parse (fuel : nat) (raw : bytes) : outcome (list GitTreeLeaf) :=
  tree_parse_loop fuel raw 0 [].

(** The body of the [for i in obj.items] loop of [tree_serializer]. *)
Definition tree_serializer_step (ret : bytes) (i : GitTreeLeaf) : outcome bytes :=
  let ret := ret ++ mode i in
  let ret := ret ++ [SP] in
  let ret := ret ++ path i in
  let ret := ret ++ [NUL] in
  match int_of_str 16 (sha i) with
  | None => Raise ValueError
  | Some sha => b ← to_bytes sha 20; Ret (ret ++ b)
  end.

Fixpoint tree_serializer_loop (items : list GitTreeLeaf) (ret : bytes) : outcome bytes :=
  match items with
  | [] => Ret ret
  | i :: rest => ret' ← tree_serializer_step ret i; tree_serializer_loop rest ret'
  end.

Definition tree_serializer (items : list GitTreeLeaf) : outcome bytes :=
  tree_serializer_loop items [].

(** ** Key-value list with message: [kvlm_parse], [kvlm_serialize] *)

(** A value of the ordered dictionary: [bytes], or a [list] of them once a
    key has repeated. *)
Inductive kvval : Type :=
| VBytes (b : bytes)
| VList (l : list bytes).

(** [collections.OrderedDict]: keys are unique and kept in insertion order. *)
Abbreviation OrderedDict := (list (bytes * kvval)).

Global Instance kvval_eq_dec : EqDecision kvval.
Proof. solve_decision. Defined.

Fixpoint dict_get (d : OrderedDict) (k : bytes) : option kvval :=
  match d with
  | [] => None
  | (k', v) :: t => if decide (k' = k) then Some v else dict_get t k
  end.

(** [d[k] = v]: in place when [k] is present, at the end otherwise. *)
Fixpoint dict_set (d : OrderedDict) (k : bytes) (v : kvval) : OrderedDict :=
  match d with
  | [] => [(k, v)]
  | (k', v') :: t =>
      if decide (k' = k) then (k', v) :: t else (k', v') :: dict_set t k v
  end.

(** The [while True] loop of [kvlm_parse] that looks for the end of a value:
    the next newline that is not followed by a space. *)
Fixpoint kvlm_value_end (fuel : nat) (raw : bytes) (e : Z) : outcome Z :=
  match fuel with
  | O => NoFuel
  | S k =>
      let e := find raw LF (e + 1) in
      match getitem raw (e + 1) with
      | None => Raise IndexError
      | Some c => if negb (ord c =? ord SP) then Ret e else kvlm_value_end k raw e
      end
  end.

(** [kvlm_parse(raw, start, dct)]; [dct=None] is the empty dictionary.  The
    fuel bounds the recursion and each run of the inner loop. *)
Fixpoint kvlm_parse (fuel : nat) (raw : bytes) (start : Z) (dct : OrderedDict)
    : outcome OrderedDict :=
  match fuel with
  | O => NoFuel
  | S k =>
      let spc := find raw SP start in
      let nl := find raw LF start in
      if (spc <? 0) || (nl <? spc) then
        _ ← assert (nl =? start);
        Ret (dict_set dct [] (VBytes (slice_from raw (start + 1))))
      else
        let key := slice raw start spc in
        e ← kvlm_value_end k raw start;
        let value := replace [LF; SP] [LF] (slice raw (spc + 1) e) in
        let dct :=
          match dict_get dct key with
          | Some (VList l) => dict_set dct key (VList (l ++ [value]))
          | Some (VBytes b) => dict_set dct key (VList [b; value])
          | None => dict_set dct key (VBytes value)
          end in
        kvlm_parse k raw (e + 1) dct
  end.

(** The lines [kvlm_serialize] emits for one key. *)
Definition kvlm_lines (k : bytes) (val : kvval) : bytes :=
  let val := match val with VBytes b => [b] | VList l => l end in
  fold_left (fun ret v => ret ++ (k ++ [SP] ++ replace [LF] [LF; SP] v ++ [LF])) val [].

(** [kvlm_serialize(kvlm)], [keys] being the keys still to visit.  The
    [return ret] stands inside the [for k in kvlm.keys()] loop, so the first
    key other than the message ends the call; a dictionary with no such key
    falls off the end of the function, which returns [None]. *)
Fixpoint kvlm_serialize_loop (kvlm keys : OrderedDict) (ret : bytes)
    : outcome (option bytes) :=
  match keys with
  | [] => Ret None
  | (k, val) :: rest =>
      if decide (k = []) then kvlm_serialize_loop kvlm rest ret
      else
        let ret := ret ++ kvlm_lines k val in
        match dict_get kvlm [] with
        | None => Raise (KeyError [])
        | Some (VList _) => Raise TypeError
        | Some (VBytes m) => Ret (Some (ret ++ ([LF] ++ m)))
        end
  end.

Definition kvlm_serialize (kvlm : OrderedDict) : outcome (option bytes) :=
  kvlm_serialize_loop kvlm kvlm [].

(** ** Objects: [GitBlob], [GitCommit], [GitTree], [GitTag] *)

Inductive GitObject : Type :=
| GitBlob (blobdata : bytes)
| GitCommit (kvlm : OrderedDict)
| GitTree (items : list GitTreeLeaf)
| GitTag (kvlm : OrderedDict).

Definition fmt (o : GitObject) : bytes :=
  match o with
  | GitBlob _ => B "blob"
  | GitCommit _ => B "commit"
  | GitTree _ => B "tree"
  | GitTag _ => B "tag"
  end.

(** [obj.serialize()]; [Ret None] is Python's [None]. *)
Definition serialize (o : GitObject) : outcome (option bytes) :=
  match o with
  | GitBlob blobdata => Ret (Some blobdata)
  | GitCommit kvlm | GitTag kvlm => kvlm_serialize kvlm
  | GitTree items => b ← tree_serializer items; Ret (Some b)
  end.

(** The constructors [GitBlob(repo, data)] and so on, which call
    [deserialize(data)]. *)
Definition new_GitBlob (data : bytes) : outcome GitObject := Ret (GitBlob data).
Definition new_GitCommit (fuel : nat) (data : bytes) : outcome GitObject :=
  d ← kvlm_parse fuel data 0 []; Ret (GitCommit d).
Definition new_GitTag (fuel : nat) (data : bytes) : outcome GitObject :=
  d ← kvlm_parse fuel data 0 []; Ret (GitTag d).
Definition new_GitTree (fuel : nat) (data : bytes) : outcome GitObject :=
  l ← tree_parse fuel data; Ret (GitTree l).

(** ** The file system and the libraries *)

(** A file system is a finite map from path text to nodes.  A path names a
    node by its spelling: links, [.], [..], doubled separators and a
    separator at the end are not resolved, so a statement about a path that
    is built from a name asks that the name be a plain one. *)
Inductive node : Type :=
| File (content : bytes)
| Dir.

Abbreviation filesystem := (gmap (list ascii) node).

(** [hashlib] and [zlib]: the digest and the codec are parameters; what is
    assumed of them is that decompression inverts compression. *)
Record Libs : Type := mkLibs {
  zlib_compress : bytes -> bytes;
  zlib_decompress : bytes -> option bytes;
  sha1_hexdigest : bytes -> str;
  zlib_roundtrip : forall b, zlib_decompress (zlib_compress b) = Some b
}.

Record GitRepository : Type := mkRepo { worktree : str; gitdir : str }.

Definition endswith_sep (p : str) : bool :=
  match last p with Some c => ascii_eqb c "/"%char | None => false end.

(** One step of [os.path.join] (posixpath). *)
Definition join1 (p b : str) : str :=
  if startswith b (U "/") then b
  else if bool_decide (p = []) || endswith_sep p then p ++ b
  else p ++ U "/" ++ b.

Definition path_join (a : str) (p : list str) : str := fold_left join1 p a.

Definition repo_path (repo : GitRepository) (p : list str) : str :=
  path_join (gitdir repo) p.

(** The proper prefixes of a path that end just before a separator. *)
Fixpoint ancestors_aux (pre rest : str) : list str :=
  match rest with
  | [] => []
  | c :: t =>
      (if ascii_eqb c "/"%char && negb (bool_decide (pre = [])) then [pre] else [])
      ++ ancestors_aux (pre ++ [c]) t
  end.
Definition ancestors (p : str) : list str := ancestors_aux [] p.

Definition is_file (fs : filesystem) (p : str) : bool :=
  match fs !! p with Some (File _) => true | _ => false end.

(** [os.makedirs(p)]: the directory and its missing ancestors. *)
Definition makedirs (fs : filesystem) (p : str) : outcome unit * filesystem :=
  match List.find (is_file fs) (ancestors p) with
  | Some a => (Raise (NotADirectoryError a), fs)
  | None =>
      match fs !! p with
      | Some _ => (Raise (FileExistsError p), fs)
      | None => (Ret tt, foldr (fun a m => <[a := Dir]> m) (<[p := Dir]> fs) (ancestors p))
      end
  end.

(** [os.listdir(p)]: the names directly under [p], in some order. *)
Definition entry_under (p : str) (k : str) : option str :=
  let pre := if endswith_sep p then p else p ++ U "/" in
  if startswith k pre then
    let name := drop (length pre) k in
    if bool_decide (name = []) || existsb (fun c => ascii_eqb c "/"%char) name
    then None else Some name
  else None.
Definition listdir (fs : filesystem) (p : str) : list str :=
  omap (fun kv => entry_under p kv.1) (map_to_list fs).

(** [open(p, "rb").read()]; [p = None] is Python's [None]. *)
Definition open_rb (fs : filesystem) (p : option str) : outcome bytes :=
  match p with
  | None => Raise TypeError
  | Some p =>
      match fs !! p with
      | Some (File c) => Ret c
      | Some Dir => Raise (IsADirectoryError p)
      | None => Raise (FileNotFoundError p)
      end
  end.

(** Newline translation of a text-mode read. *)
Fixpoint universal_newlines (l : bytes) : str :=
  match l with
  | [] => []
  | c :: t =>
      if ascii_eqb c CR then
        match t with
        | d :: t' => if ascii_eqb d LF then LF :: universal_newlines t'
                     else LF :: universal_newlines t
        | [] => [LF]
        end
      else c :: universal_newlines t
  end.

(** [open(p, "r").read()], the file's bytes decoded as ASCII. *)
Definition open_r (fs : filesystem) (p : option str) : outcome str :=
  b ← open_rb fs p; s ← decode_ascii b; Ret (universal_newlines s).

(** [open(p, "wb").write(c)], the directory of [p] being there. *)
Definition open_wb (fs : filesystem) (p : option str) (c : bytes)
    : outcome unit * filesystem :=
  match p with
  | None => (Raise TypeError, fs)
  | Some p =>
      match fs !! p with
      | Some Dir => (Raise (IsADirectoryError p), fs)
      | _ => (Ret tt, <[p := File c]> fs)
      end
  end.

(** ** Paths of the repository: [repo_dir], [repo_file] *)

Definition repo_dir (fs : filesystem) (repo : GitRepository) (p : list str)
    (mkdir : bool) : outcome (option str) * filesystem :=
  let path := repo_path repo p in
  match fs !! path with
  | Some Dir => (Ret (Some path), fs)
  | Some (File _) => (Raise (Exception (U "Not a directory " ++ path)), fs)
  | None =>
      if mkdir then
        let '(r, fs') := makedirs fs path in
        (_ ← r; Ret (Some path), fs')
      else (Ret None, fs)
  end.

(** Truth value of a path or [None]. *)
Definition truthy (p : option str) : bool :=
  match p with Some (_ :: _) => true | _ => false end.

Definition repo_file (fs : filesystem) (repo : GitRepository) (p : list str)
    (mkdir : bool) : outcome (option str) * filesystem :=
  let '(r, fs') := repo_dir fs repo (removelast p) mkdir in
  (d ← r; Ret (if truthy d then Some (repo_path repo p) else None), fs').

(** ** The object store: [object_read], [object_write] *)

Definition PREFIX_LEN : Z := 2.

Section Store.
Context (lib : Libs).

(** [object_read(repo, sha)]; the fuel goes to the payload's parser. *)
Definition object_read (fuel : nat) (fs : filesystem) (repo : GitRepository)
    (sha : str) : outcome GitObject :=
  p ← (repo_file fs repo [U "objects"; slice sha 0 2; slice_from sha 2] false).1;
  c ← open_rb fs p;
  match zlib_decompress lib c with
  | None => Raise ZlibError
  | Some raw =>
      let x := find raw SP 0 in
      let fmt := slice raw 0 x in
      let y := find raw NUL x in
      s ← decode_ascii (slice raw x y);
      match int_of_str 10 s with
      | None => Raise ValueError
      | Some size =>
          if negb (size =? len raw - y - 1) then
            Raise (Exception (U "Malformed object " ++ sha ++ U ": bad length"))
          else if bool_decide (fmt = B "commit") then
            new_GitCommit fuel (slice_from raw (y + 1))
          else if bool_decide (fmt = B "tree") then
            new_GitTree fuel (slice_from raw (y + 1))
          else if bool_decide (fmt = B "tag") then
            new_GitTag fuel (slice_from raw (y + 1))
          else if bool_decide (fmt = B "blob") then
            new_GitBlob (slice_from raw (y + 1))
          else
            t ← decode_ascii fmt;
            Raise (Exception (U "Unknown type " ++ t ++ U " for object "
                                ++ sha ++ U "."))
      end
  end.

(** [object_write(obj, actually_write)], [repo] being [obj.repo].  The
    file system is returned with the outcome: what was created before an
    exception stays. *)
Definition object_write (fs : filesystem) (repo : GitRepository)
    (obj : GitObject) (actually_write : bool) : outcome str * filesystem :=
  match serialize obj with
  | Raise e => (Raise e, fs)
  | NoFuel => (NoFuel, fs)
  | Ret None => (Raise TypeError, fs)
  | Ret (Some data) =>
      let result := fmt obj ++ [SP] ++ str_of_int (len data) ++ [NUL] ++ data in
      let sha := sha1_hexdigest lib result in
      if actually_write then
        match repo_file fs repo [U "objects"; slice sha 0 2; slice_from sha 2] true with
        | (Ret p, fs1) =>
            let '(w, fs2) := open_wb fs1 p (zlib_compress lib result) in
            (_ ← w; Ret sha, fs2)
        | (Raise e, fs1) => (Raise e, fs1)
        | (NoFuel, fs1) => (NoFuel, fs1)
        end
      else (Ret sha, fs)
  end.

(** ** References and names: [ref_resolve], [object_resolve], [object_find] *)

Fixpoint ref_resolve (fuel : nat) (fs : filesystem) (repo : GitRepository)
    (ref : str) : outcome str :=
  match fuel with
  | O => NoFuel
  | S k =>
      p ← (repo_file fs repo [ref] false).1;
      text ← open_r fs p;
      let data := slice_to text (-1) in
      let start_str := U "ref: " in
      if startswith data start_str
      then ref_resolve k fs repo (slice_from data (len start_str))
      else Ret data
  end.

Definition is_hex_char (c : ascii) : bool :=
  match digit_val c with Some d => d <? 16 | None => false end.

(** [hashRE.match(name)] for [^[0-9A-Fa-f]{4,40}$]; [$] also matches
    before a newline that ends the name. *)
Definition hashRE_match (name : str) : bool :=
  let body :=
    match last name with
    | Some c => if ascii_eqb c LF then removelast name else name
    | None => name
    end in
  forallb is_hex_char body && (4 <=? len body) && (len body <=? 40).

(** [object_resolve(repo, name)]; [Ret None] is Python's [None]. *)
Definition object_resolve (fuel : nat) (fs : filesystem) (repo : GitRepository)
    (name : str) : outcome (option (list str)) :=
  if bool_decide (strip name = []) then Ret None
  else if bool_decide (name = U "HEAD") then
    h ← ref_resolve fuel fs repo (U "HEAD"); Ret (Some [h])
  else if hashRE_match name then
    if len name =? 40 then Ret (Some [lower name])
    else
      let name := lower name in
      let prefix := slice name 0 PREFIX_LEN in
      p ← (repo_dir fs repo [U "objects"; prefix] false).1;
      if truthy p then
        let rem := slice_from name PREFIX_LEN in
        Ret (Some (map (fun f => prefix ++ f)
                     (filter (fun f => startswith f rem = true)
                        (listdir fs (default [] p)))))
      else Ret (Some [])
  else Ret (Some []).

(** [sep.join(l)]. *)
Fixpoint str_join (sep : str) (l : list str) : str :=
  match l with
  | [] => []
  | [a] => a
  | a :: t => a ++ sep ++ str_join sep t
  end.

(** [obj.kvlm[key].decode("ascii")] of [object_find]. *)
Definition kvlm_field (kvlm : OrderedDict) (key : bytes) : outcome str :=
  match dict_get kvlm key with
  | None => Raise (KeyError key)
  | Some (VList _) => Raise AttributeError
  | Some (VBytes b) => decode_ascii b
  end.

(** The [while True] loop of [object_find]; [Ret None] is Python's [None]. *)
Fixpoint object_find_loop (fuel : nat) (fs : filesystem) (repo : GitRepository)
    (sha : str) (fmt_ : bytes) (follow : bool) : outcome (option str) :=
  match fuel with
  | O => NoFuel
  | S k =>
      obj ← object_read k fs repo sha;
      if bool_decide (fmt obj = fmt_) then Ret (Some sha)
      else if negb follow then Ret None
      else
        match obj with
        | GitTag kvlm => sha ← kvlm_field kvlm (B "object");
                         object_find_loop k fs repo sha fmt_ follow
        | GitCommit kvlm =>
            if bool_decide (fmt_ = B "tree") then
              sha ← kvlm_field kvlm (B "tree");
              object_find_loop k fs repo sha fmt_ follow
            else Ret None
        | _ => Ret None
        end
  end.

(** [object_find(repo, name, fmt, follow)]; [fmt_ = None] is [fmt=None]. *)
Definition object_find (fuel : nat) (fs : filesystem) (repo : GitRepository)
    (name : str) (fmt_ : option bytes) (follow : bool) : outcome (option str) :=
  sha ← object_resolve fuel fs repo name;
  match sha with
  | None | Some [] => Raise (Exception (U "Not such reference " ++ name))
  | Some (sha0 :: rest) =>
      if 1 <? len (sha0 :: rest) then
        Raise (Exception (U "Ambiguous reference " ++ name
                            ++ U ": Candidates are "
                            ++ str_join (U " - ") (sha0 :: rest)))
      else
        match fmt_ with
        | None | Some [] => Ret (Some sha0)
        | Some f => object_find_loop fuel fs repo sha0 f follow
        end
  end.
End Store.

(** ** The index: [GitIndexEntry], [GitIndex] *)

(** The fields [GitIndex] does not pass stay [None]. *)
Record GitIndexEntry : Type := mkEntry {
  ctime : option bytes;
  mtime : option bytes;
  dev : option bytes;
  ino : option bytes;
  mode_type : option bytes;
  mode_perms : option bytes;
  uid : option bytes;
  gid : option bytes;
  fsize : option bytes;
  object_hash : option bytes;
  flag_assume_valid : option bytes;
  flag_extended : option bytes;
  flag_stage : option bytes;
  flag_name_length : option bytes;
  name : option bytes
}.

Record GitIndex : Type := mkIndex {
  signature : bytes;
  version : str;
  entries : list GitIndexEntry
}.

(** One round of the [for i in range(0, nindex)] loop: the entry read at
    [idx] and the next [idx].  [8*ceil(idx/8)] is taken on integers. *)
Definition index_entry_at (content : bytes) (idx : Z) : GitIndexEntry * Z :=
  let ctime := slice content idx (idx + 8) in
  let mtime := slice content (idx + 8) (idx + 16) in
  let dev := slice content (idx + 16) (idx + 20) in
  let ino := slice content (idx + 20) (idx + 24) in
  let mode := slice content (idx + 24) (idx + 28) in
  let uid := slice content (idx + 28) (idx + 32) in
  let gid := slice content (idx + 32) (idx + 36) in
  let fsize := slice content (idx + 36) (idx + 40) in
  let object_hash := slice content (idx + 40) (idx + 60) in
  let null_idx := find content NUL (idx + 62) in
  let name := slice content (idx + 62) null_idx in
  let idx := null_idx + 1 in
  let idx := 8 * ((idx + 7) / 8) in
  (mkEntry (Some ctime) (Some mtime) (Some dev) (Some ino) (Some mode) None
     (Some uid) (Some gid) (Some fsize) (Some object_hash) None None None None
     (Some name), idx).

Fixpoint index_loop (n : nat) (content : bytes) (idx : Z)
    (entries : list GitIndexEntry) : list GitIndexEntry :=
  match n with
  | O => entries
  | S k =>
      let '(e, idx') := index_entry_at content idx in
      index_loop k content idx' (entries ++ [e])
  end.

(** [GitIndex.__init__] on the bytes [raw] of the file. *)
Definition GitIndex_init (raw : bytes) : GitIndex :=
  let header := slice_to raw 12 in
  let signature := slice_to header 4 in
  let version := hex (from_bytes (slice header 4 8)) in
  let nindex := from_bytes (slice header 8 12) in
  let content := slice_from raw 12 in
  mkIndex signature version (index_loop (Z.to_nat nindex) content 0 []).

(** [GitIndex(file)]. *)
Definition new_GitIndex (fs : filesystem) (file : str) : outcome GitIndex :=
  raw ← open_rb fs (Some file); Ret (GitIndex_init raw).

(** ** Text files written: [open(p, "w")] *)

Fixpoint drop_while {A} (f : A -> bool) (l : list A) : list A :=
  match l with
  | c :: t => if f c then drop_while f t else l
  | [] => []
  end.

(** [os.path.dirname(p)] (posixpath): up to the last separator, without the
    separators that end it unless it is made of separators only. *)
Definition dirname (p : str) : str :=
  let is_sep c := ascii_eqb c "/"%char in
  let head := rev (drop_while (fun c => negb (is_sep c)) (rev p)) in
  if negb (bool_decide (head = [])) && negb (forallb is_sep head)
  then rev (drop_while is_sep (rev head)) else head.

(** [open(p, "w")]: the file is created, or emptied, in a directory that is
    there; a path without a directory part lies in the current directory.
    [p = None] is Python's [None]. *)
Definition open_w (fs : filesystem) (p : option str) : outcome str * filesystem :=
  match p with
  | None => (Raise TypeError, fs)
  | Some p =>
      match fs !! p with
      | Some Dir => (Raise (IsADirectoryError p), fs)
      | Some (File _) => (Ret p, <[p := File []]> fs)
      | None =>
          if bool_decide (dirname p = []) then (Ret p, <[p := File []]> fs)
          else
            match fs !! dirname p with
            | Some Dir => (Ret p, <[p := File []]> fs)
            | Some (File _) => (Raise (NotADirectoryError p), fs)
            | None => (Raise (FileNotFoundError p), fs)
            end
      end
  end.

(** [fp.write(text)] and the close that follows, on the file opened at [p]:
    the text encoded as ASCII, as [open_r] decodes it; the error of a
    character that cannot be encoded, UnicodeEncodeError, is a ValueError. *)
Definition write_text (fs : filesystem) (p : str) (text : str)
    : outcome unit * filesystem :=
  if forallb (fun c => ord c <? 128) text then (Ret tt, <[p := File text]> fs)
  else (Raise ValueError, fs).

(** ** References and tags written: [ref_create], [tag_create] *)

(** [ref_create(repo, ref_name, sha)]; [sha = None] is Python's [None], for
    which [sha+"\n"] fails once the file is open. *)
Definition ref_create (fs : filesystem) (repo : GitRepository) (ref_name : str)
    (sha : option str) : outcome unit * filesystem :=
  match repo_file fs repo [U "refs/" ++ ref_name] false with
  | (Ret p, fs1) =>
      match open_w fs1 p with
      | (Ret fp, fs2) =>
          match sha with
          | Some sha => write_text fs2 fp (sha ++ [LF])
          | None => (Raise TypeError, fs2)
          end
      | (Raise e, fs2) => (Raise e, fs2)
      | (NoFuel, fs2) => (NoFuel, fs2)
      end
  | (Raise e, fs1) => (Raise e, fs1)
  | (NoFuel, fs1) => (NoFuel, fs1)
  end.

(** [s.encode()], UTF-8, on code points below 256. *)
Definition encode_utf8 (s : str) : bytes :=
  flat_map (fun c => if ord c <? 128 then [c]
                     else [chr (192 + ord c / 64); chr (128 + ord c mod 64)]) s.

(** The dictionary [tag_create] fills key by key. *)
Definition tag_kvlm (sha name : str) : OrderedDict :=
  let kvlm := [] in
  let kvlm := dict_set kvlm (B "object") (VBytes (encode_utf8 sha)) in
  let kvlm := dict_set kvlm (B "type") (VBytes (B "commit")) in
  let kvlm := dict_set kvlm (B "tag") (VBytes (encode_utf8 name)) in
  let kvlm := dict_set kvlm (B "tagger") (VBytes (B "User <user@example.com>")) in
  dict_set kvlm [] (VBytes (B "A tag generated by wyag.")).

(** [tag_create(repo, name, reference, type)]. *)
Definition tag_create (lib : Libs) (fuel : nat) (fs : filesystem)
    (repo : GitRepository) (name reference type_ : str)
    : outcome unit * filesystem :=
  match object_find lib fuel fs repo reference None true with
  | Ret sha =>
      if bool_decide (type_ = U "object") then
        match sha with
        | Some sha =>
            match object_write lib fs repo (GitTag (tag_kvlm sha name)) true with
            | (Ret tag_sha, fs1) =>
                ref_create fs1 repo (U "tags/" ++ name) (Some tag_sha)
            | (Raise e, fs1) => (Raise e, fs1)
            | (NoFuel, fs1) => (NoFuel, fs1)
            end
        | None => (Raise AttributeError, fs)
        end
      else ref_create fs repo (U "tags/" ++ name) sha
  | Raise e => (Raise e, fs)
  | NoFuel => (NoFuel, fs)
  end.

(** ** Hashing and printing: [object_hash], [cat_file] *)

(** [repr(b)] of bytes, the text an f-string puts for them: the quote is
    the double one (34) when the bytes hold a single quote and no double
    one; the quote and the backslash (92) are escaped. *)
Definition repr_bytes (b : bytes) : str :=
  let quote :=
    if existsb (fun c => ascii_eqb c "'"%char) b
       && negb (existsb (fun c => ascii_eqb c (chr 34)) b)
    then chr 34 else "'"%char in
  let hexdigit n := nth (Z.to_nat n) (U "0123456789abcdef") "0"%char in
  U "b" ++ [quote]
  ++ flat_map (fun c =>
       if ascii_eqb c quote || ascii_eqb c (chr 92) then [chr 92; c]
       else if ascii_eqb c (chr 9) then chr 92 :: U "t"
       else if ascii_eqb c LF then chr 92 :: U "n"
       else if ascii_eqb c CR then chr 92 :: U "r"
       else if (ord c <? 32) || (127 <=? ord c)
            then chr 92 :: U "x" ++ [hexdigit (ord c / 16); hexdigit (ord c mod 16)]
       else [c]) b
  ++ [quote].

(** [object_hash(fd, fmt, repo)], [data] being [fd.read()]; named after its
    command since [GitIndexEntry] has a field [object_hash].  [repo = None]
    is Python's [None]: the object is then hashed and not written, and its
    repository is not looked at. *)
Definition hash_object (lib : Libs) (fuel : nat) (fs : filesystem)
    (data fmt_ : bytes) (repo : option GitRepository) : outcome str * filesystem :=
  let obj :=
    if bool_decide (fmt_ = B "commit") then new_GitCommit fuel data
    else if bool_decide (fmt_ = B "tree") then new_GitTree fuel data
    else if bool_decide (fmt_ = B "tag") then new_GitTag fuel data
    else if bool_decide (fmt_ = B "blob") then new_GitBlob data
    else Raise (Exception (U "Unknown type " ++ repr_bytes fmt_)) in
  match obj with
  | Ret obj =>
      match repo with
      | Some repo => object_write lib fs repo obj true
      | None => object_write lib fs (mkRepo [] []) obj false
      end
  | Raise e => (Raise e, fs)
  | NoFuel => (NoFuel, fs)
  end.

(** [cat_file(repo, obj, fmt)]; what is written to the standard output is
    returned.  [object_find] may return [None], which cannot be sliced, and
    [serialize] may, which cannot be written. *)
Definition cat_file (lib : Libs) (fuel : nat) (fs : filesystem)
    (repo : GitRepository) (obj : str) (fmt_ : option bytes) : outcome bytes :=
  sha ← object_find lib fuel fs repo obj fmt_ true;
  match sha with
  | None => Raise TypeError
  | Some sha =>
      obj ← object_read lib fuel fs repo sha;
      data ← serialize obj;
      match data with
      | None => Raise TypeError
      | Some data => Ret data
      end
  end.

(** ** The history: [log_graphviz] *)

(** A value or a list of values as a list: [if type(val) != list:
    val = [val]], of [kvlm_serialize] and of [log_graphviz]. *)
Definition values (val : kvval) : list bytes :=
  match val with VBytes b => [b] | VList l => l end.

(** [log_graphviz(repo, sha, seen)].  The set [seen] is one object that all
    the calls add to, so it is passed on and returned, also when an
    exception ends the call; the lines printed are collected with it.
    [fuel] bounds the depth of the calls, [pfuel] is the fuel of the parser
    in [object_read]. *)
Fixpoint log_graphviz (lib : Libs) (fuel pfuel : nat) (fs : filesystem)
    (repo : GitRepository) (sha : str) (seen : gset str) (out : list str)
    {struct fuel} : outcome unit * (gset str * list str) :=
  match fuel with
  | O => (NoFuel, (seen, out))
  | S k =>
      if bool_decide (sha ∈ seen) then (Ret tt, (seen, out))
      else
        let seen := seen ∪ {[sha]} in
        match object_read lib pfuel fs repo sha with
        | Ret (GitCommit kvlm) =>
            match dict_get kvlm (B "parent") with
            | None => (Ret tt, (seen, out))
            | Some parents =>
                (fix loop (ps : list bytes) (seen : gset str) (out : list str)
                   : outcome unit * (gset str * list str) :=
                   match ps with
                   | [] => (Ret tt, (seen, out))
                   | p :: ps' =>
                       match decode_ascii p with
                       | Ret p =>
                           let out := out ++ [U "c_" ++ sha ++ U " -> c_" ++ p] in
                           match log_graphviz lib k pfuel fs repo p seen out with
                           | (Ret _, (seen, out)) => loop ps' seen out
                           | r => r
                           end
                       | Raise e => (Raise e, (seen, out))
                       | NoFuel => (NoFuel, (seen, out))
                       end
                   end) (values parents) seen out
            end
        | Ret _ => (Raise AssertionError, (seen, out))
        | Raise e => (Raise e, (seen, out))
        | NoFuel => (NoFuel, (seen, out))
        end
  end.

(** ** A new repository: [GitRepository], [repo_default_config],
    [repo_create] *)

(** Sequencing of calls that change the files. *)
Definition and_then {A C : Type} (m : outcome A * filesystem)
    (k : A -> filesystem -> outcome C * filesystem) : outcome C * filesystem :=
  match m with
  | (Ret a, fs) => k a fs
  | (Raise e, fs) => (Raise e, fs)
  | (NoFuel, fs) => (NoFuel, fs)
  end.

(** [with open(repo_file(repo, name), "w") as f: f.write(text)]. *)
Definition write_repo_file (fs : filesystem) (repo : GitRepository)
    (name text : str) : outcome unit * filesystem :=
  and_then (repo_file fs repo [name] false) (fun p fs =>
  and_then (open_w fs p) (fun fp fs => write_text fs fp text)).

(** What [config.write(f)] writes for [repo_default_config()]: the section
    [core] with its three options, in the order they were set. *)
Definition repo_default_config : str :=
  U "[core]" ++ [LF] ++ U "repositoryformatversion = 0" ++ [LF]
  ++ U "filemode = false" ++ [LF] ++ U "bare = false" ++ [LF; LF].

Section Repository.
(** [configparser]: the exception, if any, that reading a configuration file
    of the given bytes ends in is a parameter. *)
Context (conf_read : bytes -> option exn).

(** [GitRepository(path, force=True)]: the configuration is read when the
    file is there; a directory in its place is passed over, as [read] passes
    over the files it cannot open. *)
Definition new_GitRepository_force (fs : filesystem) (path : str)
    : outcome GitRepository :=
  let repo := mkRepo path (join1 path (U ".git")) in
  cf ← (repo_file fs repo [U "config"] false).1;
  match (if truthy cf then cf else None) with
  | Some cf =>
      match fs !! cf with
      | Some (File c) =>
          match conf_read c with Some e => Raise e | None => Ret repo end
      | _ => Ret repo
      end
  | None => Ret repo
  end.

(** [assert(repo_dir(repo, *path, mkdir=True))]. *)
Definition assert_repo_dir (fs : filesystem) (repo : GitRepository)
    (p : list str) : outcome unit * filesystem :=
  and_then (repo_dir fs repo p true) (fun d fs => (assert (truthy d), fs)).

(** [repo_create(path)].  [os.makedirs] of the empty path fails. *)
Definition repo_create (fs : filesystem) (path : str)
    : outcome GitRepository * filesystem :=
  and_then (new_GitRepository_force fs path, fs) (fun repo fs =>
  and_then
    (match fs !! worktree repo with
     | Some Dir =>
         if bool_decide (listdir fs (worktree repo) = []) then (Ret tt, fs)
         else (Raise (Exception (path ++ U " is not empty")), fs)
     | Some (File _) => (Raise (Exception (path ++ U " is not a dir")), fs)
     | None =>
         if bool_decide (worktree repo = []) then (Raise (FileNotFoundError []), fs)
         else makedirs fs (worktree repo)
     end) (fun _ fs =>
  and_then (assert_repo_dir fs repo [U "branches"]) (fun _ fs =>
  and_then (assert_repo_dir fs repo [U "objects"]) (fun _ fs =>
  and_then (assert_repo_dir fs repo [U "refs"; U "tags"]) (fun _ fs =>
  and_then (assert_repo_dir fs repo [U "refs"; U "heads"]) (fun _ fs =>
  and_then (write_repo_file fs repo (U "description")
              (U "Unnamed repository; edit tis file 'description' to name the repository."
                 ++ [LF])) (fun _ fs =>
  and_then (write_repo_file fs repo (U "HEAD")
              (U "ref: refs/head/master" ++ [LF])) (fun _ fs =>
  and_then (write_repo_file fs repo (U "config") repo_default_config) (fun _ fs =>
  (Ret repo, fs)))))))))).
End Repository.

(** ** The work tree: [tree_checkout] *)

(** [os.mkdir(p)]: in a directory that is there, where nothing is. *)
Definition mkdir (fs : filesystem) (p : str) : outcome unit * filesystem :=
  match fs !! p with
  | Some _ => (Raise (FileExistsError p), fs)
  | None =>
      if bool_decide (p = []) then (Raise (FileNotFoundError p), fs)
      else if bool_decide (dirname p = []) then (Ret tt, <[p := Dir]> fs)
      else
        match fs !! dirname p with
        | Some Dir => (Ret tt, <[p := Dir]> fs)
        | Some (File _) => (Raise (NotADirectoryError p), fs)
        | None => (Raise (FileNotFoundError p), fs)
        end
  end.

(** The [for item in tree.items] loop of [tree_checkout], [rec] being the
    call of [tree_checkout] on a tree below.  The type of the object read
    is the one of its constructor. *)
Fixpoint tree_checkout_loop
    (rec : filesystem -> GitObject -> bytes -> outcome unit * filesystem)
    (lib : Libs) (pfuel : nat) (repo : GitRepository) (path_ : bytes)
    (items : list GitTreeLeaf) (fs : filesystem) : outcome unit * filesystem :=
  match items with
  | [] => (Ret tt, fs)
  | item :: rest =>
      match object_read lib pfuel fs repo (sha item) with
      | Ret obj =>
          let dest := join1 path_ (path item) in
          and_then
            match obj with
            | GitTree _ =>
                and_then (mkdir fs dest) (fun _ fs => rec fs obj dest)
            | GitBlob blobdata =>
                and_then (open_w fs (Some dest)) (fun fp fs =>
                  (Ret tt, <[fp := File blobdata]> fs))
            | _ => (Ret tt, fs)
            end
            (fun _ fs => tree_checkout_loop rec lib pfuel repo path_ rest fs)
      | Raise e => (Raise e, fs)
      | NoFuel => (NoFuel, fs)
      end
  end.

(** [tree_checkout(repo, tree, path)]; an object that is not a tree has no
    [items].  [fuel] bounds the depth of the trees, [pfuel] is the fuel of
    the parser in [object_read]. *)
Fixpoint tree_checkout (lib : Libs) (fuel pfuel : nat) (fs : filesystem)
    (repo : GitRepository) (tree : GitObject) (path_ : bytes)
    : outcome unit * filesystem :=
  match fuel with
  | O => (NoFuel, fs)
  | S k =>
      match tree with
      | GitTree items =>
          tree_checkout_loop
            (fun fs obj dest => tree_checkout lib k pfuel fs repo obj dest)
            lib pfuel repo path_ items fs
      | _ => (Raise AttributeError, fs)
      end
  end.

(** ** Vocabulary of the statements *)

(** A character that is a digit of base [b]. *)
Definition is_digit (b : Z) (c : ascii) : Prop :=
  exists d, digit_val c = Some d /\ d < b.

(** The number a list of digits denotes, [a] being what was read so far. *)
Definition dvalue (b a : Z) (l : str) : Z :=
  fold_left (fun a c => a * b + default 0 (digit_val c)) l a.

(** The decimal number a run of digits denotes. *)
Definition decimal (digs : bytes) : Z := dvalue 10 0 digs.

Definition known_type (ty : bytes) : Prop :=
  ty = B "commit" \/ ty = B "tree" \/ ty = B "tag" \/ ty = B "blob".

(** A tree entry as it lies in a tree payload:
    [mode SP name NUL rawhash]. *)
Record tree_entry : Type := mkTreeEntry {
  e_mode : bytes;
  e_name : bytes;
  e_hash : bytes
}.

Definition entry_bytes (e : tree_entry) : bytes :=
  e_mode e ++ [SP] ++ e_name e ++ [NUL] ++ e_hash e.

(** The mode has 5 or 6 bytes and no space, the name has no NUL and the raw
    hash has 20 bytes. *)
Definition wf_entry (e : tree_entry) : Prop :=
  (length (e_mode e) = 5%nat \/ length (e_mode e) = 6%nat)
  /\ (SP ∉ e_mode e) /\ (NUL ∉ e_name e) /\ length (e_hash e) = 20%nat.

Definition tree_payload (es : list tree_entry) : bytes :=
  concat (map entry_bytes es).

(** The leaf [tree_parse_one] builds from an entry. *)
Definition leaf_of (e : tree_entry) : GitTreeLeaf :=
  mkLeaf (e_mode e) (e_name e) (slice_from (hex (from_bytes (e_hash e))) 2).

(** Text that a text-mode read returns as it is stored: ASCII, no CR. *)
Definition plain_text (s : bytes) : Prop :=
  Forall (fun c => ord c < 128 /\ c <> CR) s.

(** The file of reference [r] holds the symbolic pointer [ref: r'], or the
    direct value [h], each followed by a newline. *)
Definition symbolic_ref (fs : filesystem) (repo : GitRepository) (r r' : str) : Prop :=
  fs !! repo_path repo [r] = Some (File (B "ref: " ++ r' ++ [LF])).
Definition direct_ref (fs : filesystem) (repo : GitRepository) (r h : str) : Prop :=
  fs !! repo_path repo [r] = Some (File (h ++ [LF])).

(** A chain of references of any length: [r] points at the first of [rs],
    each of [rs] at the next, and the last one (or [r] itself when [rs] is
    empty) holds the direct value [h]. *)
Fixpoint ref_chain (fs : filesystem) (repo : GitRepository) (r : str)
    (rs : list str) (h : str) : Prop :=
  match rs with
  | [] => direct_ref fs repo r h
  | r' :: rs' =>
      symbolic_ref fs repo r r' /\ plain_text r' /\ ref_chain fs repo r' rs' h
  end.

(** The file of the object named [sha], and the bytes [object_write] hashes
    and compresses for an object whose payload is [data]. *)
Definition object_file (repo : GitRepository) (sha : str) : str :=
  repo_path repo [U "objects"; slice sha 0 2; slice_from sha 2].
Definition framed (obj : GitObject) (data : bytes) : bytes :=
  fmt obj ++ [SP] ++ str_of_int (len data) ++ [NUL] ++ data.

(** Nothing that was there is lost: files keep their content and
    directories stay directories. *)
Definition preserves (fs fs' : filesystem) : Prop :=
  (forall q c, fs !! q = Some (File c) -> fs' !! q = Some (File c))
  /\ (forall q, fs !! q = Some Dir -> fs' !! q = Some Dir).

(** A record of the index as it lies in the file: ten fixed fields, the
    name, a NUL and the padding. *)
Record index_record : Type := mkRecord {
  r_ctime : bytes; r_mtime : bytes; r_dev : bytes; r_ino : bytes;
  r_mode : bytes; r_uid : bytes; r_gid : bytes; r_fsize : bytes;
  r_hash : bytes; r_flags : bytes; r_name : bytes; r_pad : bytes
}.

Definition record_bytes (r : index_record) : bytes :=
  r_ctime r ++ r_mtime r ++ r_dev r ++ r_ino r ++ r_mode r ++ r_uid r
  ++ r_gid r ++ r_fsize r ++ r_hash r ++ r_flags r ++ r_name r ++ [NUL]
  ++ r_pad r.

(** The fixed fields take 8+8+4+4+4+4+4+4+20+2 bytes, the name has no NUL
    and the padding, shorter than 8 bytes, ends the record on a multiple
    of 8. *)
Definition wf_record (r : index_record) : Prop :=
  len (r_ctime r) = 8 /\ len (r_mtime r) = 8 /\ len (r_dev r) = 4
  /\ len (r_ino r) = 4 /\ len (r_mode r) = 4 /\ len (r_uid r) = 4
  /\ len (r_gid r) = 4 /\ len (r_fsize r) = 4 /\ len (r_hash r) = 20
  /\ len (r_flags r) = 2 /\ (NUL ∉ r_name r) /\ len (r_pad r) < 8
  /\ len (record_bytes r) mod 8 = 0.

(** The entry [GitIndex] builds from a record. *)
Definition entry_of (r : index_record) : GitIndexEntry :=
  mkEntry (Some (r_ctime r)) (Some (r_mtime r)) (Some (r_dev r)) (Some (r_ino r))
    (Some (r_mode r)) None (Some (r_uid r)) (Some (r_gid r)) (Some (r_fsize r))
    (Some (r_hash r)) None None None None (Some (r_name r)).

(** ** Inputs the statements are evaluated on *)

(** A stand-in for the libraries, to evaluate the store on examples: the
    codec stores the bytes as they are and the digest is the last 40
    hexadecimal digits of the bytes read as a number. *)
Definition positional_digest (b : bytes) : str :=
  let d := digits 16 (from_bytes b mod 16 ^ 40) in
  repeat "0"%char (40 - length d) ++ d.

Definition stored_libs : Libs :=
  mkLibs (fun b => b) Some positional_digest (fun b => eq_refl).

Definition the_repo : GitRepository := mkRepo (U "/w") (U "/w/.git").

Definition main_hash : str := U "0123456789abcdef0123456789abcdef01234567".

(** [HEAD -> refs/heads/main -> main_hash]. *)
Definition chained_fs : filesystem :=
  <[U "/w/.git" := Dir]>
    (<[U "/w/.git/HEAD" := File (B "ref: refs/heads/main" ++ [LF])]>
       (<[U "/w/.git/refs/heads/main" := File (main_hash ++ [LF])]> ∅)).

(** [HEAD -> refs/heads/main -> refs/heads/dev -> refs/tags/v1 -> main_hash]. *)
Definition relayed_fs : filesystem :=
  <[U "/w/.git" := Dir]>
    (<[U "/w/.git/HEAD" := File (B "ref: refs/heads/main" ++ [LF])]>
       (<[U "/w/.git/refs/heads/main" := File (B "ref: refs/heads/dev" ++ [LF])]>
          (<[U "/w/.git/refs/heads/dev" := File (B "ref: refs/tags/v1" ++ [LF])]>
             (<[U "/w/.git/refs/tags/v1" := File (main_hash ++ [LF])]> ∅)))).

(** [HEAD -> refs/heads/main -> HEAD]. *)
Definition cyclic_fs : filesystem :=
  <[U "/w/.git" := Dir]>
    (<[U "/w/.git/HEAD" := File (B "ref: refs/heads/main" ++ [LF])]>
       (<[U "/w/.git/refs/heads/main" := File (B "ref: HEAD" ++ [LF])]> ∅)).

(** A raw hash whose first byte is zero: [00 aa aa ... aa]. *)
Definition zero_led_hash : bytes := NUL :: repeat (chr 170) 19.

(** A tree payload with one entry, [100644 a], pointing at it. *)
Definition zero_led_entry : tree_entry :=
  mkTreeEntry (B "100644") (B "a") zero_led_hash.

(** The same entry as an object built with the 40 characters of its name. *)
Definition zero_led_tree : GitObject :=
  GitTree [mkLeaf (B "100644") (B "a") (U "00" ++ repeat "a"%char 38)].

(** A commit header with two keys: [tree a], [parent b], then [msg]. *)
Definition two_key_kvlm : bytes :=
  B "tree a" ++ [LF] ++ B "parent b" ++ [LF; LF] ++ B "msg".

(** The tag [tag_create] builds for the name [v1]. *)
Definition created_tag : GitObject :=
  GitTag [(B "object", VBytes (repeat "a"%char 40));
          (B "type", VBytes (B "commit"));
          (B "tag", VBytes (B "v1"));
          (B "tagger", VBytes (B "User <user@example.com>"));
          ([], VBytes (B "A tag generated by wyag."))].

Definition blob_hash : str := U "abcdef0123456789abcdef0123456789abcdef01".

(** A store that holds the blob [hi] under [blob_hash]. *)
Definition blob_fs : filesystem :=
  <[U "/w/.git" := Dir]>
    (<[U "/w/.git/objects/ab" := Dir]>
       (<[U "/w/.git/objects/ab/cdef0123456789abcdef0123456789abcdef01" :=
            File (B "blob 2" ++ [NUL] ++ B "hi")]> ∅)).

Definition odd_hash : str := U "ef" ++ repeat "0"%char 38.

(** A store that holds, under [odd_hash], an object of the right length
    whose type is the byte 255 followed by [lob]. *)
Definition odd_type_fs : filesystem :=
  <[U "/w/.git" := Dir]>
    (<[U "/w/.git/objects/ef" := Dir]>
       (<[U "/w/.git/objects/ef/" ++ drop 2 odd_hash :=
            File ([chr 255] ++ B "lob 2" ++ [NUL] ++ B "hi")]> ∅)).

Definition hash_abc123 : str := U "abc123" ++ repeat "0"%char 34.
Definition hash_abc124 : str := U "abc124" ++ repeat "0"%char 34.

(** A store with two objects whose names start with [abc1]. *)
Definition two_hash_fs : filesystem :=
  <[U "/w/.git" := Dir]>
    (<[U "/w/.git/objects/ab" := Dir]>
       (<[U "/w/.git/objects/ab/" ++ drop 2 hash_abc123 :=
            File (B "blob 1" ++ [NUL] ++ B "x")]>
          (<[U "/w/.git/objects/ab/" ++ drop 2 hash_abc124 :=
               File (B "blob 1" ++ [NUL] ++ B "y")]> ∅))).

Definition commit_hash : str := repeat "c"%char 40.
Definition tree_hash : str := repeat "d"%char 40.

(** A store with a commit whose [tree] field names an empty tree. *)
Definition commit_fs : filesystem :=
  <[U "/w/.git" := Dir]>
    (<[U "/w/.git/objects/cc" := Dir]>
       (<[U "/w/.git/objects/dd" := Dir]>
          (<[U "/w/.git/objects/cc/" ++ drop 2 commit_hash :=
               File (B "commit 50" ++ [NUL] ++ B "tree " ++ tree_hash
                       ++ [LF; LF] ++ B "msg")]>
             (<[U "/w/.git/objects/dd/" ++ drop 2 tree_hash :=
                  File (B "tree 0" ++ [NUL])]> ∅)))).

(** The entry read where nothing is left to read. *)
Definition empty_entry : GitIndexEntry :=
  mkEntry (Some []) (Some []) (Some []) (Some []) (Some []) None (Some [])
    (Some []) (Some []) (Some []) None None None None (Some []).

(** One record, with the name [a.c] and 6 bytes of padding. *)
Definition one_record : index_record :=
  mkRecord (repeat "1"%char 8) (repeat "2"%char 8) (repeat "3"%char 4)
    (repeat "4"%char 4) (repeat "5"%char 4) (repeat "6"%char 4)
    (repeat "7"%char 4) (repeat "8"%char 4) (repeat "9"%char 20)
    (repeat NUL 2) (B "a.c") (repeat NUL 6).

(** An index whose header counts two entries and which holds one record. *)
Definition truncated_index : bytes :=
  B "DIRC" ++ [NUL; NUL; NUL; chr 2] ++ [NUL; NUL; NUL; chr 2]
  ++ record_bytes one_record.

(** ** Vocabulary of the further statements *)

(** A value as [kvlm_serialize] writes it and as [kvlm_parse] reads it back:
    a space after each newline. *)
Definition escape (v : bytes) : bytes := replace [LF] [LF; SP] v.
Definition unescape (v : bytes) : bytes := replace [LF; SP] [LF] v.

(** The line of a header key and one of its values. *)
Definition header_line (k v : bytes) : bytes := k ++ [SP] ++ escape v ++ [LF].

(** A header key: not empty, without a space or a newline. *)
Definition header_key (k : bytes) : Prop := k <> [] /\ (SP ∉ k) /\ (LF ∉ k).

(** A header of lines, a blank line, the message. *)
Definition kvlm_text (kvs : list (bytes * bytes)) (msg : bytes) : bytes :=
  concat (map (fun kv => header_line kv.1 kv.2) kvs) ++ [LF] ++ msg.

(** One more value under a key: alone, or after the values the key has. *)
Definition dict_add (d : OrderedDict) (k v : bytes) : OrderedDict :=
  match dict_get d k with
  | Some (VList l) => dict_set d k (VList (l ++ [v]))
  | Some (VBytes b) => dict_set d k (VList [b; v])
  | None => dict_set d k (VBytes v)
  end.

(** The dictionary of a header read line by line. *)
Definition dict_of_lines (kvs : list (bytes * bytes)) : OrderedDict :=
  fold_left (fun d kv => dict_add d kv.1 kv.2) kvs [].

(** A value as [kvlm_parse] builds it: bytes for one line, a list for more. *)
Definition parsed_value (val : kvval) : Prop :=
  match val with VBytes _ => True | VList l => (2 <= length l)%nat end.

(** The lines of a header alone, without the blank line and the message. *)
Definition header_text (kvs : list (bytes * bytes)) : bytes :=
  concat (map (fun kv => header_line kv.1 kv.2) kvs).

(** A leaf as [tree_parse_one] builds it: a mode of 5 or 6 bytes without a
    space, a path without NUL, and as [sha] the shortest lower-case
    hexadecimal text of a number that fits in 20 bytes. *)
Definition parsed_leaf (l : GitTreeLeaf) : Prop :=
  (length (mode l) = 5%nat \/ length (mode l) = 6%nat)
  /\ (SP ∉ mode l) /\ (NUL ∉ path l)
  /\ exists v, 0 <= v < 256 ^ 20 /\ sha l = digits 16 v.

(** The constructor [object_read] picks for what [object_write] framed. *)
Definition reread (fuel : nat) (obj : GitObject) (data : bytes) : outcome GitObject :=
  match obj with
  | GitBlob _ => new_GitBlob data
  | GitCommit _ => new_GitCommit fuel data
  | GitTree _ => new_GitTree fuel data
  | GitTag _ => new_GitTag fuel data
  end.

(** The lines of a header that carry the key [k]. *)
Definition lines_of (k : bytes) (kvs : list (bytes * bytes)) : list (bytes * bytes) :=
  List.filter (fun kv => bool_decide (kv.1 = k)) kvs.

(** A line of commits: each one is read as a commit whose [parent] is the
    next one, and the last one has the parent [last], or none. *)
Fixpoint history (read : str -> outcome GitObject) (cs : list str)
    (last : option str) : Prop :=
  match cs with
  | [] => True
  | c :: t =>
      (exists kvlm,
         read c = Ret (GitCommit kvlm)
         /\ dict_get kvlm (B "parent")
            = VBytes <$> (match t with [] => last | c' :: _ => Some c' end))
      /\ history read t last
  end.

(** The lines [log_graphviz] prints for a line of commits. *)
Fixpoint edges (cs : list str) (last : option str) : list str :=
  match cs with
  | [] => []
  | c :: t =>
      match (match t with [] => last | c' :: _ => Some c' end) with
      | Some p => [U "c_" ++ c ++ U " -> c_" ++ p]
      | None => []
      end ++ edges t last
  end.

(** A store, for the stand-in libraries, with a commit and its parent. *)
Definition child_hash : str := repeat "1"%char 40.
Definition root_hash : str := repeat "2"%char 40.
Definition history_fs : filesystem :=
  <[U "/w/.git" := Dir]>
    (<[U "/w/.git/objects/11" := Dir]>
       (<[U "/w/.git/objects/22" := Dir]>
          (<[U "/w/.git/objects/11/" ++ drop 2 child_hash :=
               File (B "commit 61" ++ [NUL] ++ B "tree a" ++ [LF] ++ B "parent "
                       ++ root_hash ++ [LF; LF] ++ B "child")]>
             (<[U "/w/.git/objects/22/" ++ drop 2 root_hash :=
                  File (B "commit 12" ++ [NUL] ++ B "tree a" ++ [LF; LF]
                          ++ B "root")]> ∅)))).

(** A plain name of one component: not empty, without a separator or a NUL,
    and neither [.] nor [..], which name directories. *)
Definition simple_name (n : bytes) : Prop :=
  n <> [] /\ ("/"%char ∉ n) /\ (NUL ∉ n) /\ n <> B "." /\ n <> B "..".

(** A path spelled out from the root, one plain name after another. *)
Definition plain_path (p : str) : Prop :=
  exists names : list str,
    names <> [] /\ Forall simple_name names
    /\ p = concat (map (fun n => "/"%char :: n) names).

(** The files once each blob is written under its name in [path_]. *)
Definition checked_out (path_ : bytes) (items : list GitTreeLeaf)
    (datas : list bytes) (fs : filesystem) : filesystem :=
  fold_left (fun m kv => <[join1 path_ (path kv.1) := File kv.2]> m)
    (zip items datas) fs.

(** * Properties *)

(** Python's results on small inputs. *)
Example hex_255 : hex 255 = U "0xff". Proof. reflexivity. Qed.
Example hex_0 : hex 0 = U "0x0". Proof. reflexivity. Qed.
Example str_1024 : str_of_int 1024 = U "1024". Proof. reflexivity. Qed.
Example int_sp_12 : int_of_str 10 (U " 12") = Some 12. Proof. reflexivity. Qed.
Example int_hex_prefix : int_of_str 16 (U "0x_1F") = Some 31. Proof. reflexivity. Qed.
Example int_bad : int_of_str 16 (U "1__f") = None. Proof. reflexivity. Qed.
Example slice_neg : slice (U "abcdef") 2 (-1) = U "cde". Proof. reflexivity. Qed.
Example find_neg : find (U "a b c") SP (-1) = -1. Proof. reflexivity. Qed.
Example find_neg2 : find (U "a b c") SP (-2) = 3. Proof. reflexivity. Qed.
Example replace_ex : replace [LF; SP] [LF] (B "a" ++ [LF; SP; SP] ++ B "b") = B "a" ++ [LF; SP] ++ B "b".
Proof. reflexivity. Qed.

(** ** Sequence primitives *)

Lemma len_app {A} (l1 l2 : list A) : len (l1 ++ l2) = len l1 + len l2.
Proof. unfold len. rewrite length_app. lia. Qed.

Lemma len_nonneg {A} (l : list A) : 0 <= len l.
Proof. unfold len. lia. Qed.

Lemma len_cons {A} (a : A) (l : list A) : len (a :: l) = 1 + len l.
Proof. unfold len. simpl. lia. Qed.

Lemma to_nat_len {A} (l : list A) : Z.to_nat (len l) = length l.
Proof. unfold len. lia. Qed.

Lemma clamp_in_range n i : 0 <= i <= n -> clamp n i = i.
Proof. intros H. unfold clamp. destruct (Z.ltb_spec i 0); lia. Qed.

Lemma clamp_above n i : 0 <= n <= i -> clamp n i = n.
Proof. intros H. unfold clamp. destruct (Z.ltb_spec i 0); lia. Qed.

Lemma ascii_eqb_refl c : ascii_eqb c c = true.
Proof. unfold ascii_eqb. by apply bool_decide_eq_true. Qed.

Lemma ascii_eqb_neq a b : a <> b -> ascii_eqb a b = false.
Proof. intros H. unfold ascii_eqb. by apply bool_decide_eq_false. Qed.

Lemma find_from_absent c l i : c ∉ l -> find_from c l i = -1.
Proof.
  revert i. induction l as [|x l IH]; intros i Hc; simpl; [done|].
  apply not_elem_of_cons in Hc as [Hx Hl].
  rewrite ascii_eqb_neq by congruence. by apply IH.
Qed.

Lemma find_from_first c m r i :
  c ∉ m -> find_from c (m ++ c :: r) i = i + len m.
Proof.
  revert i. induction m as [|x m IH]; intros i Hc; simpl.
  - rewrite ascii_eqb_refl. unfold len. simpl. lia.
  - apply not_elem_of_cons in Hc as [Hx Hm].
    rewrite ascii_eqb_neq by congruence. rewrite IH by done.
    rewrite len_cons. lia.
Qed.

Lemma find_at pre l c : find (pre ++ l) c (len pre) = find_from c l (len pre).
Proof.
  unfold find. pose proof (len_nonneg pre).
  destruct (Z.ltb_spec (len pre) 0); [lia|].
  by rewrite to_nat_len, drop_app_length.
Qed.

Lemma find_zero l c : find l c 0 = find_from c l 0.
Proof. apply (find_at [] l c). Qed.

Lemma slice_mid {A} (pre m post : list A) lo hi :
  lo = len pre -> hi = len pre + len m ->
  slice (pre ++ m ++ post) lo hi = m.
Proof.
  intros -> ->. unfold slice.
  pose proof (len_nonneg pre). pose proof (len_nonneg m). pose proof (len_nonneg post).
  rewrite !clamp_in_range by (rewrite !len_app; lia).
  rewrite to_nat_len, drop_app_length.
  replace (Z.to_nat (len pre + len m - len pre)) with (length m) by (unfold len; lia).
  by rewrite take_app_length.
Qed.

Lemma slice_from_app {A} (pre l : list A) lo :
  lo = len pre -> slice_from (pre ++ l) lo = l.
Proof.
  intros ->. unfold slice_from. pose proof (len_nonneg pre). pose proof (len_nonneg l).
  rewrite clamp_in_range by (rewrite len_app; lia).
  by rewrite to_nat_len, drop_app_length.
Qed.

Lemma slice_to_app {A} (pre l : list A) hi :
  hi = len pre -> slice_to (pre ++ l) hi = pre.
Proof.
  intros ->. unfold slice_to. pose proof (len_nonneg pre). pose proof (len_nonneg l).
  rewrite clamp_in_range by (rewrite len_app; lia).
  by rewrite to_nat_len, take_app_length.
Qed.

(** ** Integers and their text *)

Lemma ord_range c : 0 <= ord c < 256.
Proof. unfold ord. pose proof (N_ascii_bounded c). lia. Qed.

Lemma chr_ord c : chr (ord c) = c.
Proof. unfold chr, ord. rewrite N2Z.id. apply ascii_N_embedding. Qed.

Lemma ord_chr n : 0 <= n < 256 -> ord (chr n) = n.
Proof. intros H. unfold chr, ord. rewrite N_ascii_embedding by lia. lia. Qed.

Lemma from_bytes_snoc h c : from_bytes (h ++ [c]) = from_bytes h * 256 + ord c.
Proof. unfold from_bytes. by rewrite fold_left_app. Qed.

Lemma from_bytes_range h : 0 <= from_bytes h < 256 ^ len h.
Proof.
  induction h as [|c h IH] using rev_ind; [by compute|].
  rewrite from_bytes_snoc, len_app. pose proof (ord_range c). pose proof (len_nonneg h).
  change (len [c]) with 1. rewrite Z.pow_add_r, Z.pow_1_r by lia. nia.
Qed.

Lemma to_bytes_aux_from_bytes h acc :
  to_bytes_aux (length h) (from_bytes h) acc = h ++ acc.
Proof.
  revert acc. induction h as [|c h IH] using rev_ind; intros acc; [done|].
  rewrite length_app, Nat.add_comm. simpl. rewrite from_bytes_snoc.
  pose proof (ord_range c).
  replace ((from_bytes h * 256 + ord c) / 256) with (from_bytes h)
    by (apply Z.div_unique with (r := ord c); lia).
  replace ((from_bytes h * 256 + ord c) mod 256) with (ord c)
    by (apply Z.mod_unique with (q := from_bytes h); lia).
  by rewrite chr_ord, IH, <- app_assoc.
Qed.

Lemma to_bytes_from_bytes h : to_bytes (from_bytes h) (length h) = Ret h.
Proof.
  unfold to_bytes. pose proof (from_bytes_range h) as H. unfold len in H.
  destruct (Z.ltb_spec (from_bytes h) 0); [lia|].
  destruct (Z.leb_spec (256 ^ Z.of_nat (length h)) (from_bytes h)); [lia|].
  simpl. by rewrite to_bytes_aux_from_bytes, app_nil_r.
Qed.

Lemma is_digit_ord b c :
  b <= 16 -> is_digit b c ->
  48 <= ord c <= 57 \/ 97 <= ord c <= 102 \/ 65 <= ord c <= 70.
Proof.
  intros Hb (d & Hd & Hlt). unfold digit_val in Hd.
  repeat match type of Hd with
         | (if ?g then _ else _) = _ => destruct g eqn:?
         end; simplify_eq; lia.
Qed.

Lemma is_digit_not_char b c (x : ascii) :
  b <= 16 -> is_digit b c ->
  ~ (48 <= ord x <= 57 \/ 97 <= ord x <= 102 \/ 65 <= ord x <= 70) ->
  ascii_eqb c x = false.
Proof.
  intros Hb Hc Hx. apply ascii_eqb_neq. intros ->.
  by apply Hx, (is_digit_ord b).
Qed.

Lemma is_digit_not_space b c : b <= 16 -> is_digit b c -> isspace c = false.
Proof.
  intros Hb Hc. pose proof (is_digit_ord b c Hb Hc). unfold isspace.
  repeat match goal with
         | |- context [?x <=? ?y] => destruct (Z.leb_spec x y)
         | |- context [?x =? ?y] => destruct (Z.eqb_spec x y)
         end; simpl; try done; lia.
Qed.

Ltac not_digit_char := unfold ord; simpl; lia.

Lemma int_digits_all b us l a :
  b <= 16 -> Forall (is_digit b) l -> l <> [] ->
  int_digits b us l a = Some (dvalue b a l).
Proof.
  intros Hb Hl. revert us a. induction Hl as [|c t Hc Ht IH]; intros us a Hne; [done|].
  cbn [int_digits]. rewrite (is_digit_not_char b) by (done || not_digit_char).
  change (dvalue b a (c :: t)) with (dvalue b (a * b + default 0 (digit_val c)) t).
  destruct Hc as (d & Hd & Hlt). rewrite Hd. cbn [default].
  destruct (Z.ltb_spec d b); [|lia].
  destruct t as [|c' t']; [done|]. by apply IH.
Qed.

Lemma lstrip_digits b l : b <= 16 -> Forall (is_digit b) l -> lstrip l = l.
Proof.
  intros Hb [|c t Hc _]; [done|]. cbn [lstrip]. by rewrite (is_digit_not_space b).
Qed.

Lemma strip_digits b l : b <= 16 -> Forall (is_digit b) l -> strip l = l.
Proof.
  intros Hb Hl. unfold strip. rewrite (lstrip_digits b l) by done.
  rewrite (lstrip_digits b); [apply rev_involutive|done|].
  by apply List.Forall_rev.
Qed.

Lemma int_unsigned_digits b l :
  b <= 16 -> Forall (is_digit b) l -> l <> [] ->
  int_unsigned b l = Some (dvalue b 0 l).
Proof.
  intros Hb Hl Hne. unfold int_unsigned.
  assert (Hhead : match l with
                  | [] => None
                  | c :: _ => if ascii_eqb c "_" then None else int_digits b false l 0
                  end = Some (dvalue b 0 l)).
  { destruct l as [|c t]; [done|]. inversion Hl; subst.
    rewrite (is_digit_not_char b) by (done || not_digit_char).
    by apply int_digits_all. }
  destruct l as [|z [|x t]]; try done.
  inversion Hl as [|? ? Hz Hxt]; subst. inversion Hxt as [|? ? Hx Ht]; subst.
  rewrite (is_digit_not_char b x "x"), (is_digit_not_char b x "X")
    by (done || not_digit_char).
  rewrite andb_false_r. exact Hhead.
Qed.

(** [int(s, b)] on a non-empty run of digits. *)
Lemma int_of_str_digits b l :
  b <= 16 -> Forall (is_digit b) l -> l <> [] ->
  int_of_str b l = Some (dvalue b 0 l).
Proof.
  intros Hb Hl Hne. unfold int_of_str. rewrite (strip_digits b) by done.
  destruct l as [|c t]; [done|]. inversion Hl; subst.
  rewrite (is_digit_not_char b c "-"), (is_digit_not_char b c "+")
    by (done || not_digit_char).
  by apply int_unsigned_digits.
Qed.

(** The same after one leading space, as [object_read] reads the length. *)
Lemma int_of_str_sp_digits b l :
  b <= 16 -> Forall (is_digit b) l -> l <> [] ->
  int_of_str b (SP :: l) = Some (dvalue b 0 l).
Proof.
  intros Hb Hl Hne.
  assert (Hs : strip (SP :: l) = l).
  { unfold strip. change (lstrip (SP :: l)) with (lstrip l).
    by apply (strip_digits b). }
  pose proof (int_of_str_digits b l Hb Hl Hne) as H.
  unfold int_of_str in *. rewrite Hs. by rewrite (strip_digits b) in H.
Qed.

Lemma digit_val_digit_char d :
  0 <= d < 16 -> digit_val (digit_char d) = Some d.
Proof.
  intros H.
  assert (Hn : exists n, d = Z.of_nat n /\ (n < 16)%nat) by (exists (Z.to_nat d); lia).
  destruct Hn as (n & -> & Hn).
  do 16 (destruct n as [|n]; [reflexivity|]). lia.
Qed.

Lemma is_digit_digit_char b d : b <= 16 -> 0 <= d < b -> is_digit b (digit_char d).
Proof. intros Hb Hd. exists d. split; [apply digit_val_digit_char|]; lia. Qed.

Lemma to_digits_acc fuel b v acc :
  to_digits fuel b v acc = to_digits fuel b v [] ++ acc.
Proof.
  revert v acc. induction fuel as [|k IH]; intros v acc; simpl; [done|].
  destruct (v <? b); [done|].
  rewrite IH, (IH _ [_]), <- app_assoc. done.
Qed.

Lemma dvalue_snoc b a l c :
  dvalue b a (l ++ [c]) = dvalue b a l * b + default 0 (digit_val c).
Proof. unfold dvalue. by rewrite fold_left_app. Qed.

Lemma to_digits_S k b v acc :
  to_digits (S k) b v acc =
  if v <? b then digit_char v :: acc
  else to_digits k b (v / b) (digit_char (v mod b) :: acc).
Proof. reflexivity. Qed.

Lemma to_digits_spec k b v :
  2 <= b <= 16 -> 0 <= v < 2 ^ Z.of_nat (S k) ->
  let l := to_digits (S k) b v [] in
  Forall (is_digit b) l /\ l <> [] /\ dvalue b 0 l = v.
Proof.
  intros Hb. revert v. induction k as [|k IH]; intros v Hv;
    cbv zeta; rewrite to_digits_S; destruct (Z.ltb_spec v b) as [Hlt|Hge].
  1,3: split_and!; [|done|];
    [ constructor; [|done]; apply is_digit_digit_char; lia
    | unfold dvalue; simpl; rewrite digit_val_digit_char by lia; simpl; lia ].
  { change (2 ^ Z.of_nat 1) with 2 in Hv. lia. }
  rewrite to_digits_acc.
  assert (Hdiv : 0 <= v / b < 2 ^ Z.of_nat (S k)).
  { rewrite (Nat2Z.inj_succ (S k)), Z.pow_succ_r in Hv by lia. split.
    - apply Z.div_pos; lia.
    - apply Z.div_lt_upper_bound; nia. }
  destruct (IH _ Hdiv) as (Hall & Hne & Hval).
  pose proof (Z.mod_pos_bound v b ltac:(lia)) as Hmod.
  split_and!.
  - apply Forall_app. split; [done|]. constructor; [|done].
    apply is_digit_digit_char; lia.
  - intros Heq. by apply app_eq_nil in Heq as [? ?].
  - rewrite dvalue_snoc, Hval, digit_val_digit_char by lia. simpl.
    pose proof (Z.div_mod v b ltac:(lia)). lia.
Qed.

Lemma digits_spec b v :
  2 <= b <= 16 -> 0 <= v ->
  Forall (is_digit b) (digits b v) /\ digits b v <> [] /\ dvalue b 0 (digits b v) = v.
Proof.
  intros Hb Hv. apply to_digits_spec; [done|].
  split; [done|]. rewrite Nat2Z.inj_succ, Z2Nat.id by apply Z.log2_nonneg.
  destruct (Z.eq_dec v 0) as [->|Hnz]; [by compute|].
  apply Z.log2_spec. lia.
Qed.

(** [int(hex(v)[2:], 16)] is [v]. *)
Lemma int_of_hex v :
  0 <= v -> int_of_str 16 (slice_from (hex v) 2) = Some v.
Proof.
  intros Hv. destruct (digits_spec 16 v ltac:(lia) Hv) as (Hall & Hne & Hval).
  unfold hex. destruct (Z.ltb_spec v 0); [lia|].
  rewrite (slice_from_app (U "0x")) by done.
  by rewrite int_of_str_digits, Hval.
Qed.

(** ** Tree entries *)

Lemma bind_Ret {A C} (a : A) (k : A -> outcome C) : (Ret a ≫= k) = k a.
Proof. reflexivity. Qed.

Lemma tree_parse_one_entry pre e post :
  wf_entry e ->
  tree_parse_one (pre ++ entry_bytes e ++ post) (len pre)
  = Ret (len pre + len (entry_bytes e), leaf_of e).
Proof.
  intros (Hmode & Hsp & Hnul & Hhash).
  destruct e as [m n h]; unfold entry_bytes, leaf_of in *;
    cbn [e_mode e_name e_hash] in *.
  set (raw := pre ++ (m ++ [SP] ++ n ++ [NUL] ++ h) ++ post).
  pose proof (len_nonneg pre) as Hpre.
  assert (Hm : len m = 5 \/ len m = 6) by (unfold len; lia).
  assert (Hh : len h = 20) by (unfold len; lia).
  assert (Hx : find raw SP (len pre) = len pre + len m).
  { unfold raw. rewrite find_at, <- !app_assoc. by apply find_from_first. }
  assert (Hy : find raw NUL (len pre + len m) = len pre + len m + 1 + len n).
  { replace raw with ((pre ++ m) ++ ([SP] ++ n) ++ NUL :: h ++ post)
      by (unfold raw; by rewrite <- !app_assoc).
    rewrite <- len_app, find_at, find_from_first.
    - rewrite !len_app. change (len [SP]) with 1. lia.
    - apply not_elem_of_app. split; [|done].
      intros H%list_elem_of_singleton. discriminate H. }
  unfold tree_parse_one, SHA_BYTES_LEN. rewrite Hx, Hy.
  replace (len pre + len m - len pre) with (len m) by lia.
  replace ((len m =? 5) || (len m =? 6)) with true
    by (destruct Hm as [-> | ->]; done).
  simpl assert. rewrite bind_Ret.
  assert (Hs1 : slice raw (len pre) (len pre + len m) = m).
  { unfold raw. rewrite <- !app_assoc. by apply slice_mid. }
  assert (Hs2 : slice raw (len pre + len m + 1) (len pre + len m + 1 + len n) = n).
  { replace raw with ((pre ++ m ++ [SP]) ++ n ++ (NUL :: h ++ post))
      by (unfold raw; by rewrite <- !app_assoc).
    apply slice_mid; rewrite !len_app; change (len [SP]) with 1; lia. }
  assert (Hs3 : slice raw (len pre + len m + 1 + len n + 1)
                  (len pre + len m + 1 + len n + 20 + 1) = h).
  { replace raw with ((pre ++ m ++ [SP] ++ n ++ [NUL]) ++ h ++ post)
      by (unfold raw; by rewrite <- !app_assoc).
    apply slice_mid; rewrite !len_app; change (len [SP]) with 1;
      change (len [NUL]) with 1; lia. }
  rewrite Hs1, Hs2, Hs3. do 2 f_equal.
  rewrite !len_app. change (len [SP]) with 1. change (len [NUL]) with 1. lia.
Qed.

Lemma entry_bytes_len e : 0 < len (entry_bytes e).
Proof.
  unfold entry_bytes. rewrite !len_app. change (len [SP]) with 1.
  pose proof (len_nonneg (e_mode e)). pose proof (len_nonneg (e_name e)).
  pose proof (len_nonneg [NUL]). pose proof (len_nonneg (e_hash e)). lia.
Qed.

Lemma tree_parse_loop_payload es : forall pre acc fuel,
  Forall wf_entry es -> (length es < fuel)%nat ->
  tree_parse_loop fuel (pre ++ tree_payload es) (len pre) acc
  = Ret (acc ++ map leaf_of es).
Proof.
  induction es as [|e es IH]; intros pre acc fuel Hwf Hfuel;
    (destruct fuel as [|k]; [simpl in Hfuel; lia|]).
  - simpl. rewrite !app_nil_r. by rewrite Z.ltb_irrefl.
  - inversion Hwf as [|? ? He Hes]; subst.
    change (tree_payload (e :: es)) with (entry_bytes e ++ tree_payload es).
    cbn [tree_parse_loop]. pose proof (entry_bytes_len e).
    pose proof (len_nonneg (tree_payload es)).
    destruct (Z.ltb_spec (len pre) (len (pre ++ entry_bytes e ++ tree_payload es)))
      as [_|Hge]; [|rewrite !len_app in Hge; lia].
    rewrite tree_parse_one_entry by done. rewrite bind_Ret.
    rewrite <- len_app, (app_assoc pre), IH by (done || simpl in Hfuel; lia).
    by rewrite <- app_assoc.
Qed.

Lemma tree_serializer_loop_leaves es : forall acc,
  Forall wf_entry es ->
  tree_serializer_loop (map leaf_of es) acc = Ret (acc ++ tree_payload es).
Proof.
  induction es as [|e es IH]; intros acc Hwf.
  - simpl. by rewrite app_nil_r.
  - inversion Hwf as [|? ? He Hes]; subst. destruct He as (_ & _ & _ & Hh).
    cbn [map tree_serializer_loop]. unfold tree_serializer_step.
    cbn [leaf_of mode path sha].
    rewrite int_of_hex by apply from_bytes_range.
    rewrite <- Hh, to_bytes_from_bytes, !bind_Ret, IH by done. f_equal.
    change (tree_payload (e :: es)) with (entry_bytes e ++ tree_payload es).
    unfold entry_bytes. by rewrite <- !app_assoc.
Qed.

(** C10: for a well-formed tree payload (entries [mode SP name NUL rawhash]
    with a mode of 5 or 6 bytes, a name without NUL and a hash of 20 bytes),
    [tree_parse] returns, given one unit of fuel per entry and one more, the
    leaves of the entries, and [tree_serializer] of these leaves is the
    payload again, byte for byte, whatever zero bytes a hash starts with. *)
Theorem tree_serializer_tree_parse (es : list tree_entry) (fuel : nat) :
  Forall wf_entry es -> (length es < fuel)%nat ->
  tree_parse fuel (tree_payload es) = Ret (map leaf_of es)
  /\ (items ← tree_parse fuel (tree_payload es); tree_serializer items)
     = Ret (tree_payload es).
Proof.
  intros Hwf Hfuel.
  assert (Hp : tree_parse fuel (tree_payload es) = Ret (map leaf_of es))
    by apply (tree_parse_loop_payload es [] [] fuel Hwf Hfuel).
  split; [done|]. rewrite Hp, bind_Ret.
  apply (tree_serializer_loop_leaves es [] Hwf).
Qed.

Lemma zero_led_entry_wf : Forall wf_entry [zero_led_entry].
Proof.
  constructor; [|done]. unfold wf_entry.
  split_and!; [by right| | |done]; apply (bool_decide_unpack _); by vm_compute.
Qed.

Lemma tree_serializer_tree_parse_witness :
  tree_parse 2 (tree_payload [zero_led_entry]) = Ret (map leaf_of [zero_led_entry])
  /\ (items ← tree_parse 2 (tree_payload [zero_led_entry]); tree_serializer items)
     = Ret (tree_payload [zero_led_entry]).
Proof.
  apply (tree_serializer_tree_parse [zero_led_entry] 2 zero_led_entry_wf).
  simpl. lia.
Defined.

(** C3: the hexadecimal name [tree_parse_one] computes for the raw hash
    [00 aa ... aa] has 38 characters, not 40: [hex(...)[2:]] keeps no
    leading zero.  Converting the name back gives the 20 bytes again. *)
Theorem tree_parse_one_hex_drops_leading_zero :
  length zero_led_hash = 20%nat
  /\ tree_parse_one (tree_payload [zero_led_entry]) 0
     = Ret (29, mkLeaf (B "100644") (B "a") (repeat "a"%char 38))
  /\ len (sha (leaf_of zero_led_entry)) = 38
  /\ (v ← default (Raise ValueError) (Ret <$> int_of_str 16 (sha (leaf_of zero_led_entry)));
      to_bytes v 20) = Ret zero_led_hash.
Proof. by vm_compute. Qed.

(** C1: on the header [tree a], [parent b] with message [msg],
    [kvlm_serialize] of the parse emits the first key and the message only,
    and parsing that again gives a dictionary without [parent]. *)
Theorem kvlm_serialize_stops_after_first_key :
  kvlm_parse 8 two_key_kvlm 0 []
  = Ret [(B "tree", VBytes (B "a")); (B "parent", VBytes (B "b"));
         ([], VBytes (B "msg"))]
  /\ (d ← kvlm_parse 8 two_key_kvlm 0 []; kvlm_serialize d)
     = Ret (Some (B "tree a" ++ [LF; LF] ++ B "msg"))
  /\ kvlm_parse 8 (B "tree a" ++ [LF; LF] ++ B "msg") 0 []
     = Ret [(B "tree", VBytes (B "a")); ([], VBytes (B "msg"))]
  /\ kvlm_parse 8 (B "tree a" ++ [LF; LF] ++ B "msg") 0 []
     <> kvlm_parse 8 two_key_kvlm 0 [].
Proof. split_and!; by vm_compute. Qed.

(** C2: decoding the encoding gives another object for the tag that
    [tag_create] builds (only its first header key is written) and for a
    tree whose entry has a name starting with [00] (the name comes back with
    38 characters); a blob comes back as it was. *)
Theorem decode_encode_tag_and_tree_differ :
  serialize created_tag
  = Ret (Some (B "object " ++ repeat "a"%char 40 ++ [LF; LF]
               ++ B "A tag generated by wyag."))
  /\ (data ← serialize created_tag; new_GitTag 8 (default [] data))
     = Ret (GitTag [(B "object", VBytes (repeat "a"%char 40));
                    ([], VBytes (B "A tag generated by wyag."))])
  /\ (data ← serialize created_tag; new_GitTag 8 (default [] data))
     <> Ret created_tag
  /\ (data ← serialize zero_led_tree; new_GitTree 8 (default [] data))
     = Ret (GitTree [mkLeaf (B "100644") (B "a") (repeat "a"%char 38)])
  /\ (data ← serialize zero_led_tree; new_GitTree 8 (default [] data))
     <> Ret zero_led_tree.
Proof. split_and!; by vm_compute. Qed.

(** Decoding the encoding of a blob gives the blob. *)
Theorem decode_encode_blob (data : bytes) :
  (d ← serialize (GitBlob data); new_GitBlob (default [] d)) = Ret (GitBlob data).
Proof. reflexivity. Qed.

(** Every raw hash of 20 bytes comes back from its hexadecimal name:
    [int(hex(int.from_bytes(h))[2:], 16).to_bytes(20)] is [h]. *)
Theorem raw_hash_hex_roundtrip (h : bytes) :
  length h = 20%nat ->
  match int_of_str 16 (slice_from (hex (from_bytes h)) 2) with
  | Some v => to_bytes v 20
  | None => Raise ValueError
  end = Ret h.
Proof.
  intros Hh. rewrite int_of_hex by apply from_bytes_range.
  rewrite <- Hh. apply to_bytes_from_bytes.
Qed.

Lemma raw_hash_hex_roundtrip_witness :
  match int_of_str 16 (slice_from (hex (from_bytes zero_led_hash)) 2) with
  | Some v => to_bytes v 20
  | None => Raise ValueError
  end = Ret zero_led_hash.
Proof. apply (raw_hash_hex_roundtrip zero_led_hash). reflexivity. Defined.

(** ** References *)

Lemma slice_to_drop_last {A} (l : list A) (c : A) : slice_to (l ++ [c]) (-1) = l.
Proof.
  assert (H : Z.to_nat (clamp (len (l ++ [c])) (-1)) = length l).
  { unfold clamp. rewrite len_app. change (len [c]) with 1.
    change (-1 <? 0) with true. unfold len. lia. }
  unfold slice_to. by rewrite H, take_app_length.
Qed.

Lemma startswith_app p l : startswith (p ++ l) p = true.
Proof. induction p as [|a p IH]; simpl; [done|]. by rewrite ascii_eqb_refl. Qed.

Lemma plain_text_decode s : plain_text s -> decode_ascii s = Ret s.
Proof.
  intros H. unfold decode_ascii.
  replace (forallb (fun c => ord c <? 128) s) with true; [done|].
  induction H as [|c t [Hc _] _ IH]; [done|].
  simpl. rewrite <- IH. destruct (Z.ltb_spec (ord c) 128); [done|lia].
Qed.

Lemma plain_text_newlines s : plain_text s -> universal_newlines s = s.
Proof.
  induction 1 as [|c t [_ Hc] _ IH]; [done|].
  cbn [universal_newlines]. rewrite ascii_eqb_neq by done. by rewrite IH.
Qed.

Lemma plain_text_app s t : plain_text s -> plain_text t -> plain_text (s ++ t).
Proof. intros ? ?. by apply Forall_app. Qed.

Lemma plain_text_literal s :
  forallb (fun c => (ord c <? 128) && negb (ascii_eqb c CR)) s = true -> plain_text s.
Proof.
  induction s as [|c t IH]; intros H; [by constructor|].
  simpl in H. apply andb_prop in H as [Hc Ht]. apply andb_prop in Hc as [H1 H2].
  constructor; [|by apply IH]. split; [lia|].
  intros ->. by rewrite ascii_eqb_refl in H2.
Qed.

Lemma open_r_plain fs p s :
  fs !! p = Some (File s) -> plain_text s -> open_r fs (Some p) = Ret s.
Proof.
  intros Hp Hs. unfold open_r, open_rb. rewrite Hp, bind_Ret.
  rewrite plain_text_decode by done. rewrite bind_Ret.
  by rewrite plain_text_newlines.
Qed.

Lemma repo_file_ref fs repo r mkdir :
  fs !! gitdir repo = Some Dir -> gitdir repo <> [] ->
  repo_file fs repo [r] mkdir = (Ret (Some (repo_path repo [r])), fs).
Proof.
  intros Hd Hne. unfold repo_file, repo_dir. cbn [removelast].
  change (repo_path repo []) with (gitdir repo). rewrite Hd.
  destruct (gitdir repo); done.
Qed.

Lemma ref_resolve_S k fs repo r text :
  fs !! gitdir repo = Some Dir -> gitdir repo <> [] ->
  fs !! repo_path repo [r] = Some (File text) -> plain_text text ->
  ref_resolve (S k) fs repo r
  = if startswith (slice_to text (-1)) (U "ref: ")
    then ref_resolve k fs repo (slice_from (slice_to text (-1)) 5)
    else Ret (slice_to text (-1)).
Proof.
  intros Hd Hne Hr Ht. cbn [ref_resolve].
  rewrite repo_file_ref by done. cbn [fst]. rewrite bind_Ret.
  by rewrite (open_r_plain _ _ text), bind_Ret.
Qed.

Lemma ref_resolve_symbolic k fs repo r r' :
  fs !! gitdir repo = Some Dir -> gitdir repo <> [] ->
  symbolic_ref fs repo r r' -> plain_text r' ->
  ref_resolve (S k) fs repo r = ref_resolve k fs repo r'.
Proof.
  intros Hd Hne Hr Ht.
  rewrite (ref_resolve_S k fs repo r (B "ref: " ++ r' ++ [LF])); [|done..|].
  - rewrite app_assoc, slice_to_drop_last, startswith_app.
    by rewrite (slice_from_app (B "ref: ")).
  - apply plain_text_app; [by apply plain_text_literal|].
    apply plain_text_app; [done|]. by apply plain_text_literal.
Qed.

Lemma ref_resolve_direct k fs repo r h :
  fs !! gitdir repo = Some Dir -> gitdir repo <> [] ->
  direct_ref fs repo r h -> plain_text h -> startswith h (U "ref: ") = false ->
  ref_resolve (S k) fs repo r = Ret h.
Proof.
  intros Hd Hne Hr Ht Hs.
  rewrite (ref_resolve_S k fs repo r (h ++ [LF])); [|done..|].
  - by rewrite slice_to_drop_last, Hs.
  - apply plain_text_app; [done|]. by apply plain_text_literal.
Qed.

Lemma ref_resolve_chain rs : forall fs repo r h fuel,
  fs !! gitdir repo = Some Dir -> gitdir repo <> [] ->
  ref_chain fs repo r rs h -> plain_text h -> startswith h (U "ref: ") = false ->
  (length rs < fuel)%nat ->
  ref_resolve fuel fs repo r = Ret h.
Proof.
  induction rs as [|r' rs IH]; intros fs repo r h fuel Hd Hne Hchain Hh Hs Hfuel;
    (destruct fuel as [|k]; [simpl in Hfuel; lia|]).
  - by apply ref_resolve_direct.
  - destruct Hchain as (Hsym & Hplain & Hrest).
    rewrite (ref_resolve_symbolic k fs repo r r') by done.
    apply IH; try done. simpl in Hfuel. lia.
Qed.

(** C4, as the code has it: a chain of symbolic references of any length is
    followed to the direct value it ends in ([r -> r1 -> ... -> rn -> h]
    returns [h] once the depth allowed exceeds the number [n] of pointers
    followed); there is no bound and no cycle check, so on references that
    only point at one another the resolution is still recursing whatever
    fuel it is given: it returns nothing and reports no failure. *)
Theorem ref_resolve_chain_and_cycle (fs : filesystem) (repo : GitRepository) :
  fs !! gitdir repo = Some Dir -> gitdir repo <> [] ->
  (forall r rs h fuel,
      ref_chain fs repo r rs h ->
      plain_text h -> startswith h (U "ref: ") = false ->
      (length rs < fuel)%nat ->
      ref_resolve fuel fs repo r = Ret h)
  /\ (forall cyc : str -> Prop,
         (forall r, cyc r -> exists r', cyc r' /\ symbolic_ref fs repo r r' /\ plain_text r') ->
         forall r fuel, cyc r -> ref_resolve fuel fs repo r = NoFuel).
Proof.
  intros Hd Hne. split.
  - intros r rs h fuel Hchain Hh Hs Hfuel.
    by apply (ref_resolve_chain rs).
  - intros cyc Hcyc r fuel. revert r.
    induction fuel as [|k IH]; intros r Hr; [done|].
    destruct (Hcyc r Hr) as (r' & Hr' & Hsym & Hplain).
    rewrite (ref_resolve_symbolic k fs repo r r') by done. by apply IH.
Qed.

Lemma ref_resolve_chain_and_cycle_witness :
  ref_resolve 2 chained_fs the_repo (U "HEAD") = Ret main_hash
  /\ ref_resolve 4 relayed_fs the_repo (U "HEAD") = Ret main_hash
  /\ ref_resolve 1000 cyclic_fs the_repo (U "HEAD") = NoFuel.
Proof.
  split_and!.
  - apply (proj1 (ref_resolve_chain_and_cycle chained_fs the_repo eq_refl
                    ltac:(discriminate)) (U "HEAD") [U "refs/heads/main"]);
      [|apply plain_text_literal; by vm_compute|by vm_compute|simpl; lia].
    split_and!; [by vm_compute|apply plain_text_literal; by vm_compute
                |by vm_compute].
  - apply (proj1 (ref_resolve_chain_and_cycle relayed_fs the_repo eq_refl
                    ltac:(discriminate)) (U "HEAD")
             [U "refs/heads/main"; U "refs/heads/dev"; U "refs/tags/v1"]);
      [|apply plain_text_literal; by vm_compute|by vm_compute|simpl; lia].
    repeat (split; [by vm_compute|split; [apply plain_text_literal; by vm_compute|]]).
    by vm_compute.
  - apply (proj2 (ref_resolve_chain_and_cycle cyclic_fs the_repo eq_refl
                    ltac:(discriminate))
             (fun r => r = U "HEAD" \/ r = U "refs/heads/main")); [|by left].
    intros r [-> | ->].
    + exists (U "refs/heads/main"). split_and!; [by right|by vm_compute|].
      apply plain_text_literal. by vm_compute.
    + exists (U "HEAD"). split_and!; [by left|by vm_compute|].
      apply plain_text_literal. by vm_compute.
Defined.

(** C4, the claim as stated fails: with [HEAD -> refs/heads/main -> HEAD]
    no bound makes the resolution of [HEAD] end, in a value or in a
    failure. *)
Lemma ref_resolve_cycle_never_fails :
  ~ exists fuel, terminates (ref_resolve fuel cyclic_fs the_repo (U "HEAD")).
Proof.
  intros [fuel Hfuel]. apply Hfuel.
  assert (Hcyc : forall n r, r = U "HEAD" \/ r = U "refs/heads/main" ->
                   ref_resolve n cyclic_fs the_repo r = NoFuel).
  { induction n as [|k IH]; intros r Hr; [done|].
    destruct Hr as [-> | ->].
    - rewrite (ref_resolve_symbolic k _ _ _ (U "refs/heads/main"));
        [apply IH; by right|done|done|by vm_compute|].
      apply plain_text_literal. by vm_compute.
    - rewrite (ref_resolve_symbolic k _ _ _ (U "HEAD"));
        [apply IH; by left|done|done|by vm_compute|].
      apply plain_text_literal. by vm_compute. }
  apply Hcyc. by left.
Qed.

(** ** Reading an object *)

Lemma kvlm_value_end_no_exception fuel raw e msg :
  kvlm_value_end fuel raw e <> Raise (Exception msg).
Proof.
  revert e. induction fuel as [|k IH]; intros e; [done|].
  cbn [kvlm_value_end]. destruct (getitem raw _); [|done].
  destruct (negb _); [done|apply IH].
Qed.

Lemma kvlm_parse_no_exception fuel raw start d msg :
  kvlm_parse fuel raw start d <> Raise (Exception msg).
Proof.
  revert start d. induction fuel as [|k IH]; intros start d; [done|].
  cbn [kvlm_parse]. destruct (_ || _).
  - destruct (find raw LF start =? start); cbn; congruence.
  - pose proof (kvlm_value_end_no_exception k raw start msg) as He.
    destruct (kvlm_value_end k raw start) as [e| |];
      [|cbn; intros [= ->]; by apply He|by cbn].
    rewrite bind_Ret. apply IH.
Qed.

Lemma tree_parse_loop_no_exception fuel raw pos acc msg :
  tree_parse_loop fuel raw pos acc <> Raise (Exception msg).
Proof.
  revert pos acc. induction fuel as [|k IH]; intros pos acc; [done|].
  cbn [tree_parse_loop]. destruct (pos <? len raw); [|done].
  unfold tree_parse_one. destruct (_ || _); [|done].
  simpl assert. rewrite !bind_Ret. apply IH.
Qed.

Lemma new_object_no_exception fuel data msg :
  new_GitCommit fuel data <> Raise (Exception msg)
  /\ new_GitTree fuel data <> Raise (Exception msg)
  /\ new_GitTag fuel data <> Raise (Exception msg)
  /\ new_GitBlob data <> Raise (Exception msg).
Proof.
  unfold new_GitCommit, new_GitTree, new_GitTag, new_GitBlob, tree_parse.
  pose proof (kvlm_parse_no_exception fuel data 0 [] msg).
  pose proof (tree_parse_loop_no_exception fuel data 0 [] msg).
  split_and!; try done.
  - destruct (kvlm_parse fuel data 0 []); cbn; congruence.
  - destruct (tree_parse_loop fuel data 0 []); cbn; congruence.
  - destruct (kvlm_parse fuel data 0 []); cbn; congruence.
Qed.

Lemma decimal_digit_not_nul digs : Forall (is_digit 10) digs -> NUL ∉ [SP] ++ digs.
Proof.
  intros Hd Hin. apply elem_of_cons in Hin as [Heq|Hin]; [discriminate Heq|].
  rewrite Forall_forall in Hd. destruct (Hd _ Hin) as (d & Hv & _). discriminate Hv.
Qed.

Lemma decimal_digit_ascii digs :
  Forall (is_digit 10) digs -> decode_ascii ([SP] ++ digs) = Ret ([SP] ++ digs).
Proof.
  intros Hd. unfold decode_ascii.
  replace (forallb (fun c => ord c <? 128) ([SP] ++ digs)) with true; [done|].
  simpl. induction Hd as [|c t Hc _ IH]; [done|].
  simpl. rewrite <- IH. pose proof (is_digit_ord 10 c ltac:(lia) Hc).
  destruct (Z.ltb_spec (ord c) 128); [done|lia].
Qed.

Lemma ascii_literal s :
  forallb (fun c => ord c <? 128) s = true -> Forall (fun c => ord c < 128) s.
Proof.
  induction s as [|c t IH]; intros H; [by constructor|].
  simpl in H. apply andb_prop in H as [Hc Ht]. constructor; [lia|by apply IH].
Qed.

Lemma ascii_decode ty : Forall (fun c => ord c < 128) ty -> decode_ascii ty = Ret ty.
Proof.
  intros H. unfold decode_ascii.
  replace (forallb (fun c => ord c <? 128) ty) with true; [done|].
  induction H as [|c t Hc _ IH]; [done|].
  simpl. rewrite <- IH. destruct (Z.ltb_spec (ord c) 128); [done|lia].
Qed.

(** What [object_read] does once the file is found and decompressed to
    [ty SP digs NUL payload]. *)
Lemma object_read_framed lib fuel fs repo sha p c ty digs payload :
  (repo_file fs repo [U "objects"; slice sha 0 2; slice_from sha 2] false).1 = Ret p ->
  open_rb fs p = Ret c ->
  zlib_decompress lib c = Some (ty ++ [SP] ++ digs ++ [NUL] ++ payload) ->
  SP ∉ ty -> Forall (is_digit 10) digs -> digs <> [] ->
  object_read lib fuel fs repo sha
  = if negb (decimal digs =? len payload) then
      Raise (Exception (U "Malformed object " ++ sha ++ U ": bad length"))
    else if bool_decide (ty = B "commit") then new_GitCommit fuel payload
    else if bool_decide (ty = B "tree") then new_GitTree fuel payload
    else if bool_decide (ty = B "tag") then new_GitTag fuel payload
    else if bool_decide (ty = B "blob") then new_GitBlob payload
    else
      t ← decode_ascii ty;
      Raise (Exception (U "Unknown type " ++ t ++ U " for object " ++ sha ++ U ".")).
Proof.
  intros Hp Hc Hz Hsp Hdigs Hne.
  unfold object_read. rewrite Hp, bind_Ret, Hc, bind_Ret, Hz.
  set (raw := ty ++ [SP] ++ digs ++ [NUL] ++ payload).
  pose proof (len_nonneg ty). pose proof (len_nonneg digs). pose proof (len_nonneg payload).
  assert (Hx : find raw SP 0 = len ty).
  { rewrite find_zero. unfold raw. by apply (find_from_first SP ty _ 0). }
  assert (Hy : find raw NUL (len ty) = len ty + 1 + len digs).
  { replace raw with (ty ++ ([SP] ++ digs) ++ NUL :: payload)
      by (unfold raw; by rewrite <- !app_assoc).
    rewrite find_at, find_from_first by by apply decimal_digit_not_nul.
    rewrite len_app. change (len [SP]) with 1. lia. }
  rewrite Hx, Hy.
  assert (Hfmt : slice raw 0 (len ty) = ty).
  { unfold raw. by apply (slice_mid []). }
  assert (Hsize : slice raw (len ty) (len ty + 1 + len digs) = [SP] ++ digs).
  { replace raw with (ty ++ ([SP] ++ digs) ++ NUL :: payload)
      by (unfold raw; by rewrite <- !app_assoc).
    apply slice_mid; [done|]. rewrite len_app. change (len [SP]) with 1. lia. }
  assert (Hdata : slice_from raw (len ty + 1 + len digs + 1) = payload).
  { replace raw with ((ty ++ [SP] ++ digs ++ [NUL]) ++ payload)
      by (unfold raw; by rewrite <- !app_assoc).
    apply slice_from_app. rewrite !len_app. change (len [SP]) with 1.
    change (len [NUL]) with 1. lia. }
  rewrite Hfmt, Hsize, Hdata, decimal_digit_ascii, bind_Ret by done.
  change ([SP] ++ digs) with (SP :: digs).
  rewrite (int_of_str_sp_digits 10) by (done || lia).
  replace (len raw - (len ty + 1 + len digs) - 1) with (len payload).
  2:{ unfold raw. rewrite !len_app. change (len [SP]) with 1.
      change (len [NUL]) with 1. lia. }
  fold (decimal digs). done.
Qed.

Lemma known_type_cases ty :
  ~ known_type ty ->
  bool_decide (ty = B "commit") = false /\ bool_decide (ty = B "tree") = false
  /\ bool_decide (ty = B "tag") = false /\ bool_decide (ty = B "blob") = false.
Proof.
  unfold known_type. intros H.
  split_and!; apply bool_decide_eq_false; intros ->; apply H; auto.
Qed.

Lemma non_ascii_decode ty :
  ~ Forall (fun c => ord c < 128) ty -> decode_ascii ty = Raise UnicodeDecodeError.
Proof.
  intros H. unfold decode_ascii.
  destruct (forallb (fun c => ord c <? 128) ty) eqn:Hall; [|done].
  by destruct (H (ascii_literal ty Hall)).
Qed.

(** C7: for a stored object whose decompressed bytes are
    [ty SP digs NUL payload] ([ty] without a space, [digs] decimal digits, at
    most the 4300 that [int] accepts), [object_read] fails with the bad-length
    exception exactly when the declared length is not the number of payload
    bytes; the length being right, it builds the object of the tag from the
    payload when the tag is commit, tree, tag or blob, and fails when it is
    none of them: with the unknown-type exception when the tag is ASCII, and
    with UnicodeDecodeError, raised while that exception's message is built,
    when the tag holds a byte that is not. *)
Theorem object_read_checks_length_and_type
    (lib : Libs) (fuel : nat) (fs : filesystem) (repo : GitRepository)
    (sha : str) (p : option str) (c ty digs payload : bytes) :
  (repo_file fs repo [U "objects"; slice sha 0 2; slice_from sha 2] false).1 = Ret p ->
  open_rb fs p = Ret c ->
  zlib_decompress lib c = Some (ty ++ [SP] ++ digs ++ [NUL] ++ payload) ->
  SP ∉ ty -> Forall (is_digit 10) digs -> digs <> [] ->
  (length digs <= 4300)%nat ->
  (decimal digs <> len payload
   <-> object_read lib fuel fs repo sha
       = Raise (Exception (U "Malformed object " ++ sha ++ U ": bad length")))
  /\ (decimal digs = len payload -> ~ known_type ty ->
      (Forall (fun c => ord c < 128) ty ->
       object_read lib fuel fs repo sha
       = Raise (Exception (U "Unknown type " ++ ty ++ U " for object "
                             ++ sha ++ U ".")))
      /\ (~ Forall (fun c => ord c < 128) ty ->
          object_read lib fuel fs repo sha = Raise UnicodeDecodeError))
  /\ (decimal digs = len payload ->
      (ty = B "commit" -> object_read lib fuel fs repo sha = new_GitCommit fuel payload)
      /\ (ty = B "tree" -> object_read lib fuel fs repo sha = new_GitTree fuel payload)
      /\ (ty = B "tag" -> object_read lib fuel fs repo sha = new_GitTag fuel payload)
      /\ (ty = B "blob" -> object_read lib fuel fs repo sha = new_GitBlob payload)).
Proof.
  intros Hp Hc Hz Hsp Hdigs Hne _.
  rewrite (object_read_framed lib fuel fs repo sha p c ty digs payload) by done.
  destruct (Z.eqb_spec (decimal digs) (len payload)) as [Heq|Hneq]; cbn [negb].
  - split_and!.
    + split; [done|]. intros Hr. exfalso.
      destruct (new_object_no_exception fuel payload
                  (U "Malformed object " ++ sha ++ U ": bad length"))
        as (H1 & H2 & H3 & H4).
      repeat case_bool_decide; try done.
      unfold decode_ascii in Hr. destruct (forallb _ ty); discriminate Hr.
    + intros _ Hk. destruct (known_type_cases ty Hk) as (-> & -> & -> & ->).
      split.
      * intros Hascii. by rewrite ascii_decode.
      * intros Hnon. by rewrite non_ascii_decode.
    + intros _. split_and!; by intros ->.
  - split_and!; [done|done..].
Qed.

Lemma blob_fs_stored :
  (repo_file blob_fs the_repo
     [U "objects"; slice blob_hash 0 2; slice_from blob_hash 2] false).1
  = Ret (Some (U "/w/.git/objects/ab/cdef0123456789abcdef0123456789abcdef01")).
Proof. by vm_compute. Qed.

Lemma odd_type_fs_stored :
  (repo_file odd_type_fs the_repo
     [U "objects"; slice odd_hash 0 2; slice_from odd_hash 2] false).1
  = Ret (Some (U "/w/.git/objects/ef/" ++ drop 2 odd_hash)).
Proof. by vm_compute. Qed.

Lemma object_read_checks_length_and_type_witness :
  object_read stored_libs 1 blob_fs the_repo blob_hash = new_GitBlob (B "hi")
  /\ object_read stored_libs 1 odd_type_fs the_repo odd_hash
     = Raise UnicodeDecodeError.
Proof.
  split.
  - refine (proj2 (proj2 (proj2 (proj2 (proj2 (object_read_checks_length_and_type
              stored_libs 1 blob_fs the_repo blob_hash _ _ (B "blob") (B "2") (B "hi")
              blob_fs_stored eq_refl eq_refl _ _ _ _)) eq_refl))) eq_refl).
    + apply (bool_decide_unpack _). by vm_compute.
    + constructor; [|done]. exists 2. by vm_compute.
    + discriminate.
    + simpl. lia.
  - refine (proj2 (proj1 (proj2 (object_read_checks_length_and_type
              stored_libs 1 odd_type_fs the_repo odd_hash _ _
              ([chr 255] ++ B "lob") (B "2") (B "hi")
              odd_type_fs_stored eq_refl eq_refl _ _ _ _)) eq_refl _) _).
    + apply (bool_decide_unpack _). by vm_compute.
    + constructor; [|done]. exists 2. by vm_compute.
    + discriminate.
    + simpl. lia.
    + unfold known_type. intros [H|[H|[H|H]]]; discriminate H.
    + intros H. apply Forall_cons in H as [H _]. vm_compute in H. discriminate H.
Defined.

(** ** Finding an object by name *)

(** C5: [object_find] wants exactly one candidate from [object_resolve]:
    with none (or [None]) it fails with the not-such-reference exception,
    with more than one it fails with the ambiguous-reference exception that
    lists the candidates, and with exactly one, no type being asked for, it
    returns that candidate. *)
Theorem object_find_requires_one_candidate
    (lib : Libs) (fuel : nat) (fs : filesystem) (repo : GitRepository)
    (name : str) (cands : option (list str)) :
  object_resolve fuel fs repo name = Ret cands ->
  (cands = None \/ cands = Some [] ->
   forall fmt_ follow,
     object_find lib fuel fs repo name fmt_ follow
     = Raise (Exception (U "Not such reference " ++ name)))
  /\ (forall l, cands = Some l -> (1 < length l)%nat ->
      forall fmt_ follow,
        object_find lib fuel fs repo name fmt_ follow
        = Raise (Exception (U "Ambiguous reference " ++ name
                              ++ U ": Candidates are " ++ str_join (U " - ") l)))
  /\ (forall sha, cands = Some [sha] ->
      forall follow,
        object_find lib fuel fs repo name None follow = Ret (Some sha)).
Proof.
  intros Hres. split_and!.
  - intros Hc fmt_ follow. unfold object_find. rewrite Hres, bind_Ret.
    by destruct Hc as [-> | ->].
  - intros l -> Hl fmt_ follow. unfold object_find. rewrite Hres, bind_Ret.
    destruct l as [|a [|b l]]; simpl in Hl; [lia..|].
    destruct (Z.ltb_spec 1 (len (a :: b :: l))) as [_|Hle]; [done|].
    rewrite !len_cons in Hle. pose proof (len_nonneg l). lia.
  - intros sha -> follow. unfold object_find. by rewrite Hres, bind_Ret.
Qed.

Lemma object_find_requires_one_candidate_witness :
  object_find stored_libs 3 two_hash_fs the_repo (U "abc1") None true
  = Raise (Exception (U "Ambiguous reference abc1: Candidates are "
                        ++ hash_abc124 ++ U " - " ++ hash_abc123))
  /\ object_find stored_libs 3 two_hash_fs the_repo (U "abc123") None true
     = Ret (Some hash_abc123)
  /\ object_find stored_libs 3 two_hash_fs the_repo (U "abc9") None true
     = Raise (Exception (U "Not such reference abc9")).
Proof.
  split_and!.
  - apply (proj1 (proj2 (object_find_requires_one_candidate stored_libs 3
             two_hash_fs the_repo (U "abc1") (Some [hash_abc124; hash_abc123])
             ltac:(by vm_compute))) [hash_abc124; hash_abc123] eq_refl).
    simpl. lia.
  - apply (proj2 (proj2 (object_find_requires_one_candidate stored_libs 3
             two_hash_fs the_repo (U "abc123") (Some [hash_abc123])
             ltac:(by vm_compute))) hash_abc123 eq_refl).
  - apply (proj1 (object_find_requires_one_candidate stored_libs 3
             two_hash_fs the_repo (U "abc9") (Some []) ltac:(by vm_compute))).
    by right.
Defined.

Lemma object_find_loop_S lib k fs repo sha want follow obj :
  object_read lib k fs repo sha = Ret obj ->
  object_find_loop lib (S k) fs repo sha want follow
  = if bool_decide (fmt obj = want) then Ret (Some sha)
    else if negb follow then Ret None
    else match obj with
         | GitTag kvlm =>
             sha' ← kvlm_field kvlm (B "object");
             object_find_loop lib k fs repo sha' want follow
         | GitCommit kvlm =>
             if bool_decide (want = B "tree") then
               sha' ← kvlm_field kvlm (B "tree");
               object_find_loop lib k fs repo sha' want follow
             else Ret None
         | _ => Ret None
         end.
Proof. intros H. cbn [object_find_loop]. by rewrite H, bind_Ret. Qed.

Lemma kvlm_field_bytes kvlm key t :
  dict_get kvlm key = Some (VBytes t) -> Forall (fun c => ord c < 128) t ->
  kvlm_field kvlm key = Ret t.
Proof. intros H Ht. unfold kvlm_field. rewrite H. by apply ascii_decode. Qed.




(** ** Writing an object *)

Lemma preserves_refl fs : preserves fs fs.
Proof. by split. Qed.

Lemma foldr_insert_dir_lookup (l : list str) (m : filesystem) (q : str) :
  foldr (fun a m => <[a := Dir]> m) m l !! q
  = if decide (q ∈ l) then Some Dir else m !! q.
Proof.
  induction l as [|a l IH]; simpl; [done|].
  destruct (decide (a = q)) as [->|Hne].
  - rewrite lookup_insert_eq. by rewrite decide_True by (by left).
  - rewrite lookup_insert_ne, IH by done.
    destruct (decide (q ∈ l)) as [Hin|Hnin].
    + by rewrite decide_True by (by right).
    + rewrite decide_False; [done|]. by intros [->|?]%elem_of_cons.
Qed.

Lemma makedirs_spec fs p r fs' :
  makedirs fs p = (r, fs') ->
  (r = Ret tt /\ fs' !! p = Some Dir /\ preserves fs fs')
  \/ (exists e, r = Raise e /\ fs' = fs).
Proof.
  unfold makedirs. destruct (List.find (is_file fs) (ancestors p)) as [a|] eqn:Hfind.
  { intros Heq; inversion Heq; subst; clear Heq. right. by eexists. }
  destruct (fs !! p) as [n|] eqn:Hp.
  { intros Heq; inversion Heq; subst; clear Heq. right. by eexists. }
  intros Heq; inversion Heq; subst; clear Heq. left. split; [done|].
  pose proof (find_none _ _ Hfind) as Hanc.
  unfold preserves. split_and!.
  - rewrite foldr_insert_dir_lookup. case_decide; [done|]. apply lookup_insert_eq.
  - intros q c Hq. rewrite foldr_insert_dir_lookup. case_decide as Hin.
    + apply list_elem_of_In, Hanc in Hin. unfold is_file in Hin. by rewrite Hq in Hin.
    + rewrite lookup_insert_ne; [done|]. intros ->. by rewrite Hp in Hq.
  - intros q Hq. rewrite foldr_insert_dir_lookup. case_decide; [done|].
    rewrite lookup_insert_ne; [done|]. intros ->. by rewrite Hp in Hq.
Qed.

Lemma repo_dir_existing fs repo p mkdir :
  fs !! repo_path repo p = Some Dir ->
  repo_dir fs repo p mkdir = (Ret (Some (repo_path repo p)), fs).
Proof. intros H. unfold repo_dir. by rewrite H. Qed.

Lemma repo_dir_mkdir fs repo p r fs' :
  repo_dir fs repo p true = (r, fs') ->
  (r = Ret (Some (repo_path repo p)) /\ fs' !! repo_path repo p = Some Dir
   /\ preserves fs fs')
  \/ (exists e, r = Raise e /\ fs' = fs).
Proof.
  unfold repo_dir. destruct (fs !! repo_path repo p) as [[c|]|] eqn:Hp.
  - intros Heq; inversion Heq; subst; clear Heq. right. by eexists.
  - intros Heq; inversion Heq; subst; clear Heq. left. split_and!; [done|done|apply preserves_refl].
  - destruct (makedirs fs (repo_path repo p)) as [r0 fs0] eqn:Hmk.
    intros Heq; inversion Heq; subst; clear Heq.
    destruct (makedirs_spec _ _ _ _ Hmk) as [(-> & Hd & Hpres)|(e & -> & ->)].
    + by left.
    + right. by eexists.
Qed.

Lemma object_write_again lib fs1 repo obj data :
  serialize obj = Ret (Some data) ->
  let sha := sha1_hexdigest lib (framed obj data) in
  let z := zlib_compress lib (framed obj data) in
  let D := repo_path repo [U "objects"; slice sha 0 2] in
  fs1 !! D = Some Dir -> truthy (Some D) = true ->
  fs1 !! object_file repo sha <> Some Dir ->
  object_write lib (<[object_file repo sha := File z]> fs1) repo obj true
  = (Ret sha, <[object_file repo sha := File z]> fs1).
Proof.
  intros Hser sha z D Hd Htruthy Hf.
  assert (Hne : object_file repo sha <> D) by (intros Heq; by rewrite Heq in Hf).
  unfold object_write. rewrite Hser. fold (framed obj data). fold sha z.
  unfold repo_file.
  change (removelast [U "objects"; slice sha 0 2; slice_from sha 2])
    with [U "objects"; slice sha 0 2].
  fold (object_file repo sha).
  rewrite repo_dir_existing by (fold D; by rewrite lookup_insert_ne).
  fold D. rewrite bind_Ret, Htruthy. unfold open_wb.
  by rewrite lookup_insert_eq, insert_insert_eq.
Qed.

(** The two ways a persisting [object_write] of a serializable object ends:
    the file is written, or an exception left the files as they were.  In
    both, writing again changes nothing. *)
Lemma object_write_cases lib fs repo obj data :
  serialize obj = Ret (Some data) ->
  let sha := sha1_hexdigest lib (framed obj data) in
  let z := zlib_compress lib (framed obj data) in
  let w := object_write lib fs repo obj true in
  (exists fs1, w = (Ret sha, <[object_file repo sha := File z]> fs1)
     /\ preserves fs fs1
     /\ fs1 !! object_file repo sha <> Some Dir
     /\ object_write lib (<[object_file repo sha := File z]> fs1) repo obj true
        = (Ret sha, <[object_file repo sha := File z]> fs1)
     /\ (repo_file (<[object_file repo sha := File z]> fs1) repo
          [U "objects"; slice sha 0 2; slice_from sha 2] false).1
        = Ret (Some (object_file repo sha)))
  \/ (exists e fs1, w = (Raise e, fs1) /\ preserves fs fs1
        /\ object_write lib fs1 repo obj true = (Raise e, fs1)).
Proof.
  intros Hser sha z w. subst w.
  set (D := repo_path repo [U "objects"; slice sha 0 2]).
  assert (Hunfold : forall fs0,
    object_write lib fs0 repo obj true
    = match repo_dir fs0 repo [U "objects"; slice sha 0 2] true with
      | (Ret d, fs1) =>
          let '(w, fs2) :=
            open_wb fs1 (if truthy d then Some (object_file repo sha) else None) z in
          (w ≫= (fun _ => Ret sha), fs2)
      | (Raise e, fs1) => (Raise e, fs1)
      | (NoFuel, fs1) => (NoFuel, fs1)
      end).
  { intros fs0. unfold object_write, repo_file. rewrite Hser.
    change (removelast [?a; ?b; ?c]) with [a; b].
    by destruct (repo_dir fs0 _ _ true) as [[d|e|] fs1]. }
  rewrite Hunfold.
  destruct (repo_dir fs repo [U "objects"; slice sha 0 2] true) as [r fs1] eqn:Hdir.
  destruct (repo_dir_mkdir _ _ _ _ _ Hdir) as [(-> & Hd & Hpres)|(e & -> & ->)].
  2:{ right. exists e, fs. split_and!; [done|apply preserves_refl|].
      by rewrite Hunfold, Hdir. }
  fold D in Hd |- *.
  assert (Hagain : repo_dir fs1 repo [U "objects"; slice sha 0 2] true
                   = (Ret (Some D), fs1)) by by apply repo_dir_existing.
  destruct (truthy (Some D)) eqn:Htruthy.
  - assert (Hfound : fs1 !! object_file repo sha <> Some Dir ->
              (repo_file (<[object_file repo sha := File z]> fs1) repo
                 [U "objects"; slice sha 0 2; slice_from sha 2] false).1
              = Ret (Some (object_file repo sha))).
    { intros Hf. unfold repo_file.
      change (removelast [?a; ?b; ?c]) with [a; b].
      rewrite repo_dir_existing.
      - cbn [fst]. fold D. by rewrite bind_Ret, Htruthy.
      - fold D. rewrite lookup_insert_ne; [done|]. intros Heq. by rewrite Heq in Hf. }
    unfold open_wb at 1.
    destruct (fs1 !! object_file repo sha) as [[c|]|] eqn:Hf.
    + left. exists fs1. split_and!; [done|done|by rewrite Hf| |].
      * apply (object_write_again lib fs1 repo obj data Hser Hd Htruthy).
        fold sha. by rewrite Hf.
      * by apply Hfound.
    + right. exists (IsADirectoryError (object_file repo sha)), fs1.
      split_and!; [unfold open_wb; by rewrite Hf|done|].
      rewrite Hunfold, Hagain, Htruthy. unfold open_wb. by rewrite Hf.
    + left. exists fs1. split_and!; [done|done|by rewrite Hf| |].
      * apply (object_write_again lib fs1 repo obj data Hser Hd Htruthy).
        fold sha. by rewrite Hf.
      * by apply Hfound.
  - right. exists TypeError, fs1. split_and!; [done|done|].
    by rewrite Hunfold, Hagain, Htruthy.
Qed.

(** A blob that was written is read back: when [object_write] returns a
    hash, [object_read] of that hash in the store it left returns the blob. *)
Theorem object_read_object_write_blob
    (lib : Libs) (fuel : nat) (fs fs' : filesystem) (repo : GitRepository)
    (data : bytes) (sha : str) :
  object_write lib fs repo (GitBlob data) true = (Ret sha, fs') ->
  object_read lib fuel fs' repo sha = Ret (GitBlob data).
Proof.
  intros Hw.
  destruct (object_write_cases lib fs repo (GitBlob data) data eq_refl)
    as [(fs1 & Hw1 & _ & _ & _ & Hfound)|(e & fs1 & Hw1 & _)];
    rewrite Hw in Hw1; [|discriminate Hw1].
  injection Hw1 as -> ->.
  pose proof (len_nonneg data) as Hlen.
  destruct (digits_spec 10 (len data) ltac:(lia) Hlen) as (Hall & Hne & Hval).
  rewrite (object_read_framed lib fuel _ repo _ _
             (zlib_compress lib (framed (GitBlob data) data))
             (B "blob") (digits 10 (len data)) data Hfound).
  - replace (decimal (digits 10 (len data))) with (len data)
      by (symmetry; exact Hval).
    by rewrite Z.eqb_refl.
  - unfold open_rb. by rewrite lookup_insert_eq.
  - rewrite zlib_roundtrip. unfold framed, str_of_int. cbn [fmt].
    by destruct (Z.ltb_spec (len data) 0); [lia|].
  - apply (bool_decide_unpack _). by vm_compute.
  - done.
  - done.
Qed.

Lemma object_read_object_write_blob_witness :
  object_read stored_libs 1
    (object_write stored_libs (<[U "/w/.git" := Dir]> ∅) the_repo
       (GitBlob (B "hi")) true).2
    the_repo (positional_digest (framed (GitBlob (B "hi")) (B "hi")))
  = Ret (GitBlob (B "hi")).
Proof.
  apply (object_read_object_write_blob stored_libs 1 (<[U "/w/.git" := Dir]> ∅)).
  apply injective_projections; cbn [fst snd]; [by vm_compute|reflexivity].
Defined.

(** ** The index *)

Lemma slice_beyond {A} (l : list A) lo hi : len l <= lo -> slice l lo hi = [].
Proof.
  intros H. unfold slice. pose proof (len_nonneg l).
  rewrite (clamp_above (len l) lo) by lia.
  by rewrite to_nat_len, drop_all, take_nil.
Qed.

Lemma find_beyond l c start : len l <= start -> find l c start = -1.
Proof.
  intros H. unfold find. pose proof (len_nonneg l).
  destruct (Z.ltb_spec start 0); [lia|].
  rewrite drop_ge by (unfold len in H; lia). done.
Qed.

Lemma index_entry_at_end content idx :
  len content <= idx -> (index_entry_at content idx).1 = empty_entry.
Proof.
  intros H. unfold index_entry_at. cbn [fst].
  rewrite !slice_beyond by lia. done.
Qed.

Lemma index_loop_length n : forall content idx acc,
  length (index_loop n content idx acc) = (length acc + n)%nat.
Proof.
  induction n as [|k IH]; intros content idx acc; cbn [index_loop]; [lia|].
  destruct (index_entry_at content idx) as [e idx'].
  rewrite IH, length_app. simpl. lia.
Qed.

Ltac field_slice P m Q :=
  match goal with
  | |- slice ?c _ _ = _ =>
      replace c with (P ++ m ++ Q)
        by (try (is_var c; unfold c); rewrite <- ?app_assoc; reflexivity);
      apply slice_mid; rewrite ?len_app; lia
  end.

Lemma index_entry_at_record pre r post :
  wf_record r -> len pre mod 8 = 0 ->
  index_entry_at (pre ++ record_bytes r ++ post) (len pre)
  = (entry_of r, len pre + len (record_bytes r)).
Proof.
  destruct r as [ct mt dv io md ui gi fs hs fl nm pd].
  unfold wf_record, record_bytes, entry_of. cbn -[Z.modulo].
  intros (H1 & H2 & H3 & H4 & H5 & H6 & H7 & H8 & H9 & H10 & Hnul & Hpad & Hmod) Hpre.
  pose proof (len_nonneg pre). pose proof (len_nonneg nm). pose proof (len_nonneg pd).
  change (NUL :: pd) with ([NUL] ++ pd) in *.
  set (content := pre ++ (ct ++ mt ++ dv ++ io ++ md ++ ui ++ gi ++ fs ++ hs
                            ++ fl ++ nm ++ [NUL] ++ pd) ++ post).
  assert (Hfind : find content NUL (len pre + 62) = len pre + 62 + len nm).
  { replace content with ((pre ++ ct ++ mt ++ dv ++ io ++ md ++ ui ++ gi ++ fs
                             ++ hs ++ fl) ++ nm ++ NUL :: pd ++ post)
      by (unfold content; rewrite <- ?app_assoc; reflexivity).
    replace (len pre + 62) with (len (pre ++ ct ++ mt ++ dv ++ io ++ md ++ ui
                                        ++ gi ++ fs ++ hs ++ fl))
      by (rewrite !len_app; lia).
    rewrite find_at, find_from_first by done. rewrite !len_app. lia. }
  unfold index_entry_at. rewrite Hfind. f_equal.
  - assert (slice content (len pre) (len pre + 8) = ct)
      by field_slice pre ct (mt ++ dv ++ io ++ md ++ ui ++ gi ++ fs ++ hs ++ fl
                               ++ nm ++ [NUL] ++ pd ++ post).
    assert (slice content (len pre + 8) (len pre + 16) = mt)
      by field_slice (pre ++ ct) mt (dv ++ io ++ md ++ ui ++ gi ++ fs ++ hs ++ fl
                                       ++ nm ++ [NUL] ++ pd ++ post).
    assert (slice content (len pre + 16) (len pre + 20) = dv)
      by field_slice (pre ++ ct ++ mt) dv (io ++ md ++ ui ++ gi ++ fs ++ hs ++ fl
                                             ++ nm ++ [NUL] ++ pd ++ post).
    assert (slice content (len pre + 20) (len pre + 24) = io)
      by field_slice (pre ++ ct ++ mt ++ dv) io
           (md ++ ui ++ gi ++ fs ++ hs ++ fl ++ nm ++ [NUL] ++ pd ++ post).
    assert (slice content (len pre + 24) (len pre + 28) = md)
      by field_slice (pre ++ ct ++ mt ++ dv ++ io) md
           (ui ++ gi ++ fs ++ hs ++ fl ++ nm ++ [NUL] ++ pd ++ post).
    assert (slice content (len pre + 28) (len pre + 32) = ui)
      by field_slice (pre ++ ct ++ mt ++ dv ++ io ++ md) ui
           (gi ++ fs ++ hs ++ fl ++ nm ++ [NUL] ++ pd ++ post).
    assert (slice content (len pre + 32) (len pre + 36) = gi)
      by field_slice (pre ++ ct ++ mt ++ dv ++ io ++ md ++ ui) gi
           (fs ++ hs ++ fl ++ nm ++ [NUL] ++ pd ++ post).
    assert (slice content (len pre + 36) (len pre + 40) = fs)
      by field_slice (pre ++ ct ++ mt ++ dv ++ io ++ md ++ ui ++ gi) fs
           (hs ++ fl ++ nm ++ [NUL] ++ pd ++ post).
    assert (slice content (len pre + 40) (len pre + 60) = hs)
      by field_slice (pre ++ ct ++ mt ++ dv ++ io ++ md ++ ui ++ gi ++ fs) hs
           (fl ++ nm ++ [NUL] ++ pd ++ post).
    assert (slice content (len pre + 62) (len pre + 62 + len nm) = nm)
      by field_slice (pre ++ ct ++ mt ++ dv ++ io ++ md ++ ui ++ gi ++ fs ++ hs ++ fl)
           nm ([NUL] ++ pd ++ post).
    congruence.
  - rewrite !len_app in Hmod |- *. change (len [NUL]) with 1 in *.
    Z.div_mod_to_equations. lia.
Qed.

Lemma index_loop_records rs : forall pre post acc,
  Forall wf_record rs -> len pre mod 8 = 0 ->
  index_loop (length rs) (pre ++ concat (map record_bytes rs) ++ post) (len pre) acc
  = acc ++ map entry_of rs.
Proof.
  induction rs as [|r rs IH]; intros pre post acc Hwf Hpre.
  - simpl. by rewrite app_nil_r.
  - inversion Hwf as [|? ? Hr Hrs]; subst.
    cbn [length index_loop map concat]. rewrite <- (app_assoc (record_bytes r)).
    rewrite index_entry_at_record by done.
    rewrite <- len_app, (app_assoc pre), IH; [by rewrite <- app_assoc|done|].
    destruct Hr as (_ & _ & _ & _ & _ & _ & _ & _ & _ & _ & _ & _ & Hmod).
    rewrite len_app. Z.div_mod_to_equations. lia.
Qed.

Lemma GitIndex_init_header magic ver cnt body :
  len magic = 4 -> len ver = 4 -> len cnt = 4 ->
  GitIndex_init (magic ++ ver ++ cnt ++ body)
  = mkIndex magic (hex (from_bytes ver))
      (index_loop (Z.to_nat (from_bytes cnt)) body 0 []).
Proof.
  intros Hm Hv Hc. unfold GitIndex_init.
  replace (magic ++ ver ++ cnt ++ body) with ((magic ++ ver ++ cnt) ++ body)
    by (by rewrite <- !app_assoc).
  rewrite slice_to_app, slice_from_app by (rewrite !len_app; lia).
  rewrite (slice_to_app magic) by done.
  rewrite (slice_mid magic ver cnt) by lia.
  replace (magic ++ ver ++ cnt) with ((magic ++ ver) ++ cnt ++ [])
    by (by rewrite app_nil_r, <- app_assoc).
  rewrite slice_mid by (rewrite !len_app; lia). done.
Qed.


Lemma one_record_wf : wf_record one_record.
Proof.
  unfold wf_record. split_and!; try by vm_compute.
  apply (bool_decide_unpack _). by vm_compute.
Qed.



(** ** Names that are hash prefixes *)

Lemma startswith_spec l p : startswith l p = true <-> exists t, l = p ++ t.
Proof.
  revert l. induction p as [|a p IH]; intros l; simpl.
  - split; [by exists l|done].
  - destruct l as [|b l].
    + split; [done|]. by intros [t Ht].
    + split.
      * intros [Hab [t ->]%IH]%andb_prop.
        apply bool_decide_eq_true in Hab as ->. by exists t.
      * intros [t [= -> ->]]. rewrite ascii_eqb_refl. apply IH. by exists t.
Qed.

Lemma entry_under_spec p k f :
  endswith_sep p = false ->
  entry_under p k = Some f
  <-> k = p ++ U "/" ++ f /\ f <> [] /\ ("/"%char ∉ f).
Proof.
  intros Hp. unfold entry_under. rewrite Hp.
  destruct (startswith k (p ++ U "/")) eqn:Hs.
  - apply startswith_spec in Hs as [t ->].
    rewrite drop_app_length.
    destruct (bool_decide (t = [])) eqn:Ht; simpl.
    { apply bool_decide_eq_true in Ht as ->. split; [done|].
      intros (Hk & Hf & _). rewrite <- app_assoc in Hk.
      apply app_inv_head in Hk. simpl in Hk. injection Hk as Hk. by subst f. }
    apply bool_decide_eq_false in Ht.
    destruct (existsb (fun c => ascii_eqb c "/") t) eqn:He.
    + split; [done|]. intros (Hk & _ & Hnin). exfalso.
      rewrite <- app_assoc in Hk. apply app_inv_head in Hk. simpl in Hk.
      injection Hk as <-. apply existsb_exists in He as (c & Hc & Hcs).
      apply bool_decide_eq_true in Hcs as ->. by apply Hnin, list_elem_of_In.
    + split.
      * intros [= <-]. split_and!; [by rewrite <- app_assoc|done|].
        intros Hin. apply list_elem_of_In in Hin.
        assert (existsb (fun c => ascii_eqb c "/") t = true); [|congruence].
        apply existsb_exists. exists "/"%char. by rewrite ascii_eqb_refl.
      * intros (Hk & _). rewrite <- app_assoc in Hk. apply app_inv_head in Hk.
        simpl in Hk. by injection Hk as <-.
  - split; [done|]. intros (-> & _).
    assert (startswith (p ++ U "/" ++ f) (p ++ U "/") = true); [|congruence].
    apply startswith_spec. exists f. by rewrite <- app_assoc.
Qed.

Lemma listdir_spec fs p f :
  endswith_sep p = false ->
  f ∈ listdir fs p
  <-> is_Some (fs !! (p ++ U "/" ++ f)) /\ f <> [] /\ ("/"%char ∉ f).
Proof.
  intros Hp. unfold listdir. rewrite list_elem_of_omap. split.
  - intros ([k n] & Hin & He). apply elem_of_map_to_list in Hin.
    apply (entry_under_spec p k f Hp) in He as (-> & Hf & Hs).
    split_and!; [by eexists|done|done].
  - intros ([n Hn] & Hf & Hs). exists (p ++ U "/" ++ f, n). split.
    + by apply elem_of_map_to_list.
    + by apply entry_under_spec.
Qed.

Lemma hex_chars_digits name :
  forallb is_hex_char name = true -> Forall (is_digit 16) name.
Proof.
  induction name as [|c t IH]; intros H; [by constructor|].
  simpl in H. apply andb_prop in H as [Hc Ht]. constructor; [|by apply IH].
  unfold is_hex_char in Hc. destruct (digit_val c) as [d|] eqn:Hd; [|done].
  exists d. split; [done|lia].
Qed.

Lemma join1_nonempty p b : b <> [] -> join1 p b <> [].
Proof.
  intros Hb. unfold join1. destruct (startswith b (U "/")); [done|].
  destruct (_ || _); intros H; apply app_eq_nil in H as [_ H]; [done|].
  by apply app_eq_nil in H as [_ H].
Qed.

Lemma slice_two_nonempty {A} (l : list A) : 2 <= len l -> slice l 0 2 <> [].
Proof.
  intros H. destruct l as [|a [|b l]]; try (by compute in H).
  unfold slice. rewrite !clamp_in_range by (rewrite ?len_cons; pose proof (len_nonneg l); lia).
  done.
Qed.

(** A name of 4 to 39 hexadecimal characters resolves to the stored hashes
    that start with it in lower case, and to nothing else: the candidates
    are the entries of the directory named by its first two characters
    whose names go on with its other characters. *)
Theorem object_resolve_prefix_candidates
    (fuel : nat) (fs : filesystem) (repo : GitRepository) (name : str) :
  forallb is_hex_char name = true -> 4 <= len name < 40 ->
  let prefix := slice (lower name) 0 PREFIX_LEN in
  let dir := repo_path repo [U "objects"; prefix] in
  fs !! dir = Some Dir -> endswith_sep dir = false ->
  exists cands,
    object_resolve fuel fs repo name = Ret (Some cands)
    /\ forall h, h ∈ cands
         <-> exists f, h = prefix ++ f
               /\ is_Some (fs !! (dir ++ U "/" ++ f))
               /\ f <> [] /\ ("/"%char ∉ f)
               /\ startswith f (slice_from (lower name) PREFIX_LEN) = true.
Proof.
  intros Hhex Hlen prefix dir Hdir Hsep.
  pose proof (hex_chars_digits name Hhex) as Hdigits.
  assert (Hne : name <> []) by (intros ->; change (len []) with 0 in Hlen; lia).
  assert (Hlast : match last name with
                  | Some c => if ascii_eqb c LF then removelast name else name
                  | None => name
                  end = name).
  { destruct (last name) as [c|] eqn:Hl; [|done].
    rewrite (is_digit_not_char 16 c LF); [done|lia| |not_digit_char].
    rewrite Forall_forall in Hdigits. apply Hdigits.
    apply last_Some in Hl as [l' ->]. apply elem_of_app. right. by left. }
  unfold object_resolve.
  rewrite bool_decide_eq_false_2 by (rewrite (strip_digits 16) by (done || lia); done).
  rewrite bool_decide_eq_false_2 by (intros ->; discriminate Hhex).
  unfold hashRE_match. rewrite Hlast, Hhex.
  destruct (Z.leb_spec 4 (len name)); [|lia].
  destruct (Z.leb_spec (len name) 40); [|lia].
  destruct (Z.eqb_spec (len name) 40); [lia|]. cbn [andb].
  fold prefix. rewrite repo_dir_existing by done. cbn [fst]. rewrite bind_Ret.
  fold dir. assert (Htruthy : truthy (Some dir) = true).
  { assert (Hd : dir <> []).
    { apply join1_nonempty, slice_two_nonempty.
      unfold lower, len. rewrite length_map. unfold len in Hlen. lia. }
    by destruct dir. }
  rewrite Htruthy. cbn [default]. eexists. split; [done|].
  intros h. rewrite list_elem_of_fmap. split.
  - intros (f & -> & Hf). apply list_elem_of_filter in Hf as [Hs Hin].
    apply (listdir_spec fs dir f Hsep) in Hin as (Hstored & Hnonempty & Hnosep).
    by exists f.
  - intros (f & -> & Hstored & Hnonempty & Hnosep & Hs). exists f. split; [done|].
    apply list_elem_of_filter. split; [done|]. by apply listdir_spec.
Qed.

Lemma object_resolve_prefix_candidates_witness :
  exists cands,
    object_resolve 1 two_hash_fs the_repo (U "ABC1") = Ret (Some cands)
    /\ forall h, h ∈ cands
         <-> exists f, h = U "ab" ++ f
               /\ is_Some (two_hash_fs !! (U "/w/.git/objects/ab" ++ U "/" ++ f))
               /\ f <> [] /\ ("/"%char ∉ f)
               /\ startswith f (U "c1") = true.
Proof.
  apply (object_resolve_prefix_candidates 1 two_hash_fs the_repo (U "ABC1"));
    by vm_compute.
Defined.

(** * Further properties *)

(** ** The header codec *)

Ltac len_norm :=
  rewrite ?len_app, ?len_cons; change (len (@nil ascii)) with 0.

Lemma ord_inj a b : ord a = ord b -> a = b.
Proof. intros H. by rewrite <- (chr_ord a), <- (chr_ord b), H. Qed.

Lemma getitem_app {A} (l1 l2 : list A) :
  getitem (l1 ++ l2) (len l1) = head l2.
Proof.
  unfold getitem. cbv zeta.
  pose proof (len_nonneg l1). pose proof (len_nonneg l2).
  destruct (Z.ltb_spec (len l1) 0) as [|_]; [lia|].
  destruct (Z.ltb_spec (len l1) 0) as [|_]; [lia|]. cbn [orb].
  rewrite len_app, to_nat_len.
  destruct l2 as [|c l2].
  - destruct (Z.leb_spec (len l1 + len (@nil A)) (len l1)) as [_|Hlt]; [done|].
    change (len (@nil A)) with 0 in Hlt. lia.
  - destruct (Z.leb_spec (len l1 + len (c :: l2)) (len l1)) as [Hle|_].
    { rewrite len_cons in Hle. pose proof (len_nonneg l2). lia. }
    by rewrite list_lookup_middle.
Qed.

Lemma find_from_skip c m l i :
  c ∉ m -> find_from c (m ++ l) i = find_from c l (i + len m).
Proof.
  revert i. induction m as [|x m IH]; intros i Hc; simpl.
  - f_equal. change (len (@nil ascii)) with 0. lia.
  - apply not_elem_of_cons in Hc as [Hx Hm].
    rewrite ascii_eqb_neq by congruence. rewrite IH by done.
    f_equal. rewrite len_cons. lia.
Qed.

Lemma find_from_range c l i : find_from c l i = -1 \/ i <= find_from c l i.
Proof.
  revert i. induction l as [|x l IH]; intros i; simpl; [by left|].
  destruct (ascii_eqb x c); [right; lia|].
  destruct (IH (i + 1)) as [->|H]; [by left|right; lia].
Qed.

Lemma find_from_found c l i : c ∈ l -> i <= find_from c l i.
Proof.
  revert i. induction l as [|x l IH]; intros i Hc; [by apply elem_of_nil in Hc|].
  simpl. destruct (ascii_eqb x c) eqn:Hx; [lia|].
  apply elem_of_cons in Hc as [->|Hc]; [by rewrite ascii_eqb_refl in Hx|].
  specialize (IH (i + 1) Hc). lia.
Qed.

Lemma escape_LF t : escape (LF :: t) = LF :: SP :: escape t.
Proof. reflexivity. Qed.

Lemma escape_other c t : c <> LF -> escape (c :: t) = c :: escape t.
Proof.
  intros Hc. unfold escape, replace. cbn [replace_aux startswith].
  by rewrite (ascii_eqb_neq LF c) by congruence.
Qed.

Lemma unescape_LF_SP t : unescape (LF :: SP :: t) = LF :: unescape t.
Proof. reflexivity. Qed.

Lemma unescape_other c t : c <> LF -> unescape (c :: t) = c :: unescape t.
Proof.
  intros Hc. unfold unescape, replace. cbn [replace_aux startswith].
  by rewrite (ascii_eqb_neq LF c) by congruence.
Qed.

(** Reading undoes writing. *)
Lemma unescape_escape v : unescape (escape v) = v.
Proof.
  induction v as [|c t IH]; [done|].
  destruct (decide (c = LF)) as [->|Hc].
  - by rewrite escape_LF, unescape_LF_SP, IH.
  - by rewrite escape_other, unescape_other, IH.
Qed.

Lemma escape_length v : (length v <= length (escape v))%nat.
Proof.
  induction v as [|c t IH]; [done|].
  destruct (decide (c = LF)) as [->|Hc].
  - rewrite escape_LF. simpl. lia.
  - rewrite escape_other by done. simpl. lia.
Qed.

(** The inner loop of [kvlm_parse] on a written value: it stops at the
    newline that ends the value, and fails when nothing follows it. *)
Lemma kvlm_value_end_escaped v : forall fuel A w tail e,
  LF ∉ w -> head tail <> Some SP -> e + 1 = len A -> (length v < fuel)%nat ->
  kvlm_value_end fuel (A ++ w ++ escape v ++ [LF] ++ tail) e
  = match tail with
    | [] => Raise IndexError
    | _ :: _ => Ret (len A + len w + len (escape v))
    end.
Proof.
  induction v as [|x t IH]; intros fuel A w tail e Hw Htail He Hfuel.
  - destruct fuel as [|k]; [simpl in Hfuel; lia|].
    cbn [kvlm_value_end]. rewrite He. change (escape []) with (@nil ascii).
    cbn [app]. rewrite find_at, find_from_first by done.
    replace (A ++ w ++ LF :: tail) with ((A ++ w ++ [LF]) ++ tail)
      by (by rewrite <- !app_assoc).
    replace (len A + len w + 1) with (len (A ++ w ++ [LF]))
      by (rewrite !len_app; change (len [LF]) with 1; lia).
    rewrite getitem_app. destruct tail as [|c tail]; [done|]. cbn [head].
    destruct (Z.eqb_spec (ord c) (ord SP)) as [Heq|_];
      [|cbn [negb]; f_equal; change (len (@nil ascii)) with 0; lia].
    apply ord_inj in Heq. by subst c.
  - destruct (decide (x = LF)) as [->|Hx].
    + destruct fuel as [|k]; [simpl in Hfuel; lia|].
      rewrite escape_LF. cbn [kvlm_value_end]. rewrite He.
      replace (A ++ w ++ (LF :: SP :: escape t) ++ [LF] ++ tail)
        with (A ++ w ++ LF :: (SP :: escape t ++ [LF] ++ tail)) by done.
      rewrite find_at, find_from_first by done.
      replace (A ++ w ++ LF :: SP :: escape t ++ [LF] ++ tail)
        with ((A ++ w ++ [LF]) ++ [SP] ++ escape t ++ [LF] ++ tail)
        by (by rewrite <- !app_assoc).
      replace (len A + len w + 1) with (len (A ++ w ++ [LF]))
        by (rewrite !len_app; change (len [LF]) with 1; lia).
      rewrite getitem_app. cbn [head app]. rewrite Z.eqb_refl. cbn [negb].
      change (SP :: escape t ++ LF :: tail) with ([SP] ++ escape t ++ [LF] ++ tail).
      rewrite (IH k (A ++ w ++ [LF]) [SP] tail (len A + len w)).
      * destruct tail; [done|]. f_equal. len_norm. lia.
      * intros H%list_elem_of_singleton. discriminate H.
      * done.
      * len_norm. lia.
      * simpl in Hfuel. lia.
    + rewrite escape_other by done.
      replace (A ++ w ++ (x :: escape t) ++ [LF] ++ tail)
        with (A ++ (w ++ [x]) ++ escape t ++ [LF] ++ tail)
        by (by rewrite <- !app_assoc).
      rewrite (IH fuel A (w ++ [x]) tail e).
      * destruct tail; [done|]. f_equal. len_norm. lia.
      * apply not_elem_of_app. split; [done|].
        intros H%list_elem_of_singleton. congruence.
      * done.
      * done.
      * simpl in Hfuel. lia.
Qed.

Lemma header_line_length k v : len (header_line k v) = len k + len (escape v) + 2.
Proof. unfold header_line. len_norm. lia. Qed.

(** One round of [kvlm_parse] on a written line: the value is added under
    the key and the parse goes on after the line; a line that nothing
    follows ends it in IndexError. *)
Lemma kvlm_parse_line fuel pre k v tail d :
  header_key k -> head tail <> Some SP -> (length v < fuel)%nat ->
  kvlm_parse (S fuel) (pre ++ header_line k v ++ tail) (len pre) d
  = match tail with
    | [] => Raise IndexError
    | _ :: _ =>
        kvlm_parse fuel (pre ++ header_line k v ++ tail)
          (len pre + len (header_line k v)) (dict_add d k v)
    end.
Proof.
  intros (Hne & Hsp & Hlf) Htail Hfuel.
  destruct k as [|k0 k']; [done|].
  set (k := k0 :: k') in *. set (raw := pre ++ header_line k v ++ tail).
  pose proof (len_nonneg pre). pose proof (len_nonneg k).
  pose proof (len_nonneg (escape v)).
  assert (Hspc : find raw SP (len pre) = len pre + len k).
  { unfold raw, header_line. rewrite find_at, <- !app_assoc.
    by apply find_from_first. }
  assert (Hnl : len pre + len k < find raw LF (len pre)).
  { unfold raw, header_line. rewrite find_at.
    replace ((k ++ [SP] ++ escape v ++ [LF]) ++ tail)
      with ((k ++ [SP]) ++ escape v ++ [LF] ++ tail) by (by rewrite <- !app_assoc).
    rewrite find_from_skip.
    - pose proof (find_from_found LF (escape v ++ [LF] ++ tail)
                    (len pre + len (k ++ [SP]))) as Hf.
      rewrite len_app in Hf |- *. change (len [SP]) with 1 in *.
      apply Z.lt_le_trans with (len pre + (len k + 1)); [lia|].
      apply Hf. rewrite !elem_of_app. right. left. by left.
    - apply not_elem_of_app. split; [done|].
      intros E%list_elem_of_singleton. discriminate E. }
  assert (Hend : kvlm_value_end fuel raw (len pre)
                 = match tail with
                   | [] => Raise IndexError
                   | _ :: _ => Ret (len pre + len k + 1 + len (escape v))
                   end).
  { replace raw with ((pre ++ [k0]) ++ (k' ++ [SP]) ++ escape v ++ [LF] ++ tail)
      by (unfold raw, header_line, k; by rewrite <- !app_assoc).
    rewrite (kvlm_value_end_escaped v fuel (pre ++ [k0]) (k' ++ [SP]) tail (len pre)).
    - destruct tail; [done|]. f_equal. unfold k. len_norm. lia.
    - apply not_elem_of_app. split.
      + intros Hin. apply Hlf. by right.
      + intros E%list_elem_of_singleton. discriminate E.
    - done.
    - len_norm. lia.
    - done. }
  cbn [kvlm_parse]. fold raw. rewrite Hspc, Hend.
  destruct (Z.ltb_spec (len pre + len k) 0); [lia|].
  destruct (Z.ltb_spec (find raw LF (len pre)) (len pre + len k)); [lia|].
  cbn [orb]. destruct tail as [|c tail]; [done|]. rewrite bind_Ret.
  assert (Hkey : slice raw (len pre) (len pre + len k) = k).
  { unfold raw, header_line. rewrite <- !app_assoc. by apply slice_mid. }
  assert (Hval : slice raw (len pre + len k + 1) (len pre + len k + 1 + len (escape v))
                 = escape v).
  { replace raw with ((pre ++ k ++ [SP]) ++ escape v ++ [LF] ++ c :: tail)
      by (unfold raw, header_line; by rewrite <- !app_assoc).
    apply slice_mid; len_norm; lia. }
  rewrite Hkey, Hval, unescape_escape.
  replace (len pre + len k + 1 + len (escape v) + 1)
    with (len pre + len (header_line k v)) by (rewrite header_line_length; lia).
  unfold dict_add. by destruct (dict_get d k) as [[b|l]|].
Qed.

(** The last round of [kvlm_parse], on the blank line before the message. *)
Lemma kvlm_parse_message fuel pre msg d :
  kvlm_parse (S fuel) (pre ++ [LF] ++ msg) (len pre) d
  = Ret (dict_set d [] (VBytes msg)).
Proof.
  cbn [kvlm_parse]. rewrite !find_at. cbn [app find_from].
  rewrite ascii_eqb_refl, (ascii_eqb_neq LF SP) by discriminate.
  assert (Hc : (find_from SP msg (len pre + 1) <? 0)
               || (len pre <? find_from SP msg (len pre + 1)) = true).
  { destruct (find_from_range SP msg (len pre + 1)) as [->|Hge]; [done|].
    apply orb_true_iff. right. apply Z.ltb_lt. lia. }
  rewrite Hc, Z.eqb_refl. cbn [assert]. rewrite bind_Ret. do 3 f_equal.
  change (LF :: msg) with ([LF] ++ msg). rewrite app_assoc.
  apply slice_from_app. len_norm. lia.
Qed.

Lemma kvlm_text_cons kv kvs msg :
  kvlm_text (kv :: kvs) msg = header_line kv.1 kv.2 ++ kvlm_text kvs msg.
Proof. unfold kvlm_text. cbn [map concat]. by rewrite <- app_assoc. Qed.

Lemma kvlm_text_head kvs msg :
  Forall (fun kv => header_key kv.1) kvs ->
  head (kvlm_text kvs msg) <> Some SP /\ kvlm_text kvs msg <> [].
Proof.
  intros Hk. destruct kvs as [|[k v] kvs]; [by split|].
  rewrite kvlm_text_cons. inversion Hk as [|? ? (Hne & Hsp & _) _]; subst.
  cbn [fst snd] in *. destruct k as [|k0 k']; [done|]. split; [|done].
  cbn. intros [= ->]. apply Hsp. by left.
Qed.

Lemma kvlm_parse_lines kvs msg : forall fuel pre d,
  Forall (fun kv => header_key kv.1) kvs ->
  (length (kvlm_text kvs msg) < fuel)%nat ->
  kvlm_parse fuel (pre ++ kvlm_text kvs msg) (len pre) d
  = Ret (dict_set (fold_left (fun d kv => dict_add d kv.1 kv.2) kvs d) []
           (VBytes msg)).
Proof.
  induction kvs as [|[k v] kvs IH]; intros fuel pre d Hk Hfuel;
    (destruct fuel as [|f]; [lia|]).
  - apply kvlm_parse_message.
  - inversion Hk as [|? ? Hkey Hkeys]; subst. cbn [fst snd] in *.
    rewrite kvlm_text_cons in Hfuel |- *. cbn [fst snd] in *.
    destruct (kvlm_text_head kvs msg Hkeys) as [Hhead Hnonempty].
    rewrite length_app in Hfuel.
    assert (Hline : (length v + 2 <= length (header_line k v))%nat).
    { unfold header_line. rewrite !length_app. pose proof (escape_length v).
      simpl. lia. }
    rewrite kvlm_parse_line by (done || lia).
    destruct (kvlm_text kvs msg) as [|c rest] eqn:Htext; [done|].
    rewrite <- len_app, app_assoc.
    rewrite IH by (done || simpl in *; lia). done.
Qed.

(** Reading a written header: a header of [key SP value NL] lines (keys not
    empty and without space or newline, values with a space after each of
    their newlines), a blank line and a message is parsed, with more fuel
    than it has bytes, into the dictionary that holds the values of each key
    in the order of the lines, keys in first-seen order, and the message
    under the empty key. *)
Theorem kvlm_parse_kvlm_text
    (kvs : list (bytes * bytes)) (msg : bytes) (fuel : nat) :
  Forall (fun kv => header_key kv.1) kvs ->
  (length (kvlm_text kvs msg) < fuel)%nat ->
  kvlm_parse fuel (kvlm_text kvs msg) 0 []
  = Ret (dict_set (dict_of_lines kvs) [] (VBytes msg)).
Proof. intros Hk Hfuel. by apply (kvlm_parse_lines kvs msg fuel [] []). Qed.

Lemma kvlm_parse_kvlm_text_witness :
  kvlm_parse 50
    (kvlm_text [(B "tree", B "a"); (B "parent", B "p1"); (B "parent", B "p2");
                (B "gpgsig", B "x" ++ [LF] ++ B "y")] (B "msg")) 0 []
  = Ret [(B "tree", VBytes (B "a")); (B "parent", VList [B "p1"; B "p2"]);
         (B "gpgsig", VBytes (B "x" ++ [LF] ++ B "y")); ([], VBytes (B "msg"))].
Proof.
  apply (kvlm_parse_kvlm_text
           [(B "tree", B "a"); (B "parent", B "p1"); (B "parent", B "p2");
            (B "gpgsig", B "x" ++ [LF] ++ B "y")] (B "msg") 50).
  - repeat constructor; cbn [fst]; try discriminate;
      apply (bool_decide_unpack _); by vm_compute.
  - vm_compute. lia.
Defined.

Lemma kvlm_lines_header_lines k val :
  kvlm_lines k val = concat (map (header_line k) (values val)).
Proof.
  unfold kvlm_lines. fold (values val).
  assert (Hgen : forall l acc,
    fold_left (fun ret v => ret ++ (k ++ [SP] ++ replace [LF] [LF; SP] v ++ [LF]))
      l acc = acc ++ concat (map (header_line k) l)).
  { induction l as [|v l IH]; intros acc; cbn [fold_left map concat].
    - by rewrite app_nil_r.
    - by rewrite IH, <- app_assoc. }
  apply Hgen.
Qed.

Lemma dict_of_lines_more k l0 l :
  fold_left (fun d kv => dict_add d kv.1 kv.2) (map (pair k) l) [(k, VList l0)]
  = [(k, VList (l0 ++ l))].
Proof.
  revert l0. induction l as [|v l IH]; intros l0; cbn [map fold_left].
  - by rewrite app_nil_r.
  - unfold dict_add at 2. cbn [fst snd dict_get dict_set].
    rewrite !decide_True by done. by rewrite IH, <- app_assoc.
Qed.

Lemma dict_of_lines_values k val :
  parsed_value val -> dict_of_lines (map (pair k) (values val)) = [(k, val)].
Proof.
  destruct val as [b|l]; [done|]. cbn [parsed_value values]. intros Hl.
  destruct l as [|v1 [|v2 l]]; [simpl in Hl; lia..|].
  unfold dict_of_lines. cbn [map fold_left]. unfold dict_add at 2 3.
  cbn [fst snd dict_get dict_set]. rewrite !decide_True by done.
  apply (dict_of_lines_more k [v1; v2] l).
Qed.

Lemma kvlm_serialize_first_key k val rest msg :
  k <> [] -> dict_get rest [] = Some (VBytes msg) ->
  kvlm_serialize ((k, val) :: rest)
  = Ret (Some (kvlm_text (map (pair k) (values val)) msg)).
Proof.
  intros Hne Hmsg. unfold kvlm_serialize. cbn [kvlm_serialize_loop dict_get].
  rewrite !decide_False by done.
  rewrite Hmsg, kvlm_lines_header_lines. unfold kvlm_text.
  by rewrite map_map.
Qed.

Lemma kvlm_parse_first_key k val msg fuel :
  header_key k -> parsed_value val ->
  (length (kvlm_text (map (pair k) (values val)) msg) < fuel)%nat ->
  kvlm_parse fuel (kvlm_text (map (pair k) (values val)) msg) 0 []
  = Ret [(k, val); ([], VBytes msg)].
Proof.
  intros Hk Hval Hfuel.
  change (kvlm_parse fuel (kvlm_text (map (pair k) (values val)) msg) 0 [])
    with (kvlm_parse fuel ([] ++ kvlm_text (map (pair k) (values val)) msg)
            (len (@nil ascii)) []).
  rewrite kvlm_parse_lines.
  - fold (dict_of_lines (map (pair k) (values val))).
    rewrite dict_of_lines_values by done. cbn [dict_set].
    destruct Hk as (Hne & _). by rewrite decide_False.
  - apply Forall_map. by apply Forall_forall.
  - done.
Qed.

(** What [kvlm_serialize] writes, [kvlm_parse] reads back: for a dictionary
    that starts with a header key (not empty, without space or newline) whose
    value has the shape the parser builds, and that holds a message, the
    written bytes are parsed, with more fuel than they have bytes, into that
    key with its value and the message; so a dictionary of one header key and
    the message is read back as it was, and every further key is lost. *)
Theorem kvlm_parse_kvlm_serialize
    (k : bytes) (val : kvval) (rest : OrderedDict) (msg : bytes) :
  header_key k -> parsed_value val -> dict_get rest [] = Some (VBytes msg) ->
  exists data,
    kvlm_serialize ((k, val) :: rest) = Ret (Some data) /\
    forall fuel, (length data < fuel)%nat ->
      kvlm_parse fuel data 0 [] = Ret [(k, val); ([], VBytes msg)].
Proof.
  intros Hk Hval Hmsg.
  exists (kvlm_text (map (pair k) (values val)) msg). split.
  - apply kvlm_serialize_first_key; [apply Hk|done].
  - intros fuel Hfuel. by apply kvlm_parse_first_key.
Qed.

Lemma kvlm_parse_kvlm_serialize_witness :
  exists data,
    kvlm_serialize [(B "parent", VList [B "p1"; B "p2" ++ [LF] ++ B "q"]);
                    (B "author", VBytes (B "me")); ([], VBytes (B "msg"))]
    = Ret (Some data) /\
    forall fuel, (length data < fuel)%nat ->
      kvlm_parse fuel data 0 []
      = Ret [(B "parent", VList [B "p1"; B "p2" ++ [LF] ++ B "q"]);
             ([], VBytes (B "msg"))].
Proof.
  apply (kvlm_parse_kvlm_serialize (B "parent")
           (VList [B "p1"; B "p2" ++ [LF] ++ B "q"])
           [(B "author", VBytes (B "me")); ([], VBytes (B "msg"))] (B "msg")).
  - split_and!; [discriminate|apply (bool_decide_unpack _); by vm_compute..].
  - simpl. lia.
  - reflexivity.
Defined.

Lemma kvlm_parse_header_lines kvs : forall fuel pre d,
  kvs <> [] -> Forall (fun kv => header_key kv.1) kvs ->
  (length (header_text kvs) < fuel)%nat ->
  kvlm_parse fuel (pre ++ header_text kvs) (len pre) d = Raise IndexError.
Proof.
  induction kvs as [|[k v] kvs IH]; intros fuel pre d Hne Hk Hfuel; [done|].
  destruct fuel as [|f]; [lia|].
  inversion Hk as [|? ? Hkey Hkeys]; subst. cbn [fst snd] in *.
  unfold header_text in *. cbn [map concat fst snd] in *.
  rewrite length_app in Hfuel.
  assert (Hline : (length v + 2 <= length (header_line k v))%nat).
  { unfold header_line. rewrite !length_app. pose proof (escape_length v).
    simpl. lia. }
  assert (Hhead : head (concat (map (fun kv => header_line kv.1 kv.2) kvs))
                  <> Some SP).
  { destruct kvs as [|[k1 v1] kvs]; [done|]. cbn [map concat fst snd].
    inversion Hkeys as [|? ? (Hne1 & Hsp1 & _) _]; subst. cbn [fst] in *.
    destruct k1 as [|c k1]; [done|]. cbn. intros [= ->]. apply Hsp1. by left. }
  rewrite kvlm_parse_line by (done || lia).
  destruct kvs as [|kv kvs]; [done|].
  destruct (concat (map (fun kv => header_line kv.1 kv.2) (kv :: kvs)))
    as [|c rest] eqn:Htext.
  { destruct kv as [k1 v1]. cbn [map concat fst snd] in Htext.
    unfold header_line in Htext.
    inversion Hkeys as [|? ? (Hne1 & _) _]; subst. cbn [fst] in *.
    destruct k1; [done|]. discriminate Htext. }
  rewrite <- len_app, app_assoc.
  apply IH; [done|done|simpl in *; lia].
Qed.

(** A header that nothing follows: on header lines alone (at least one, keys
    not empty and without space or newline), with neither the blank line nor
    the message after them, [kvlm_parse] ends in IndexError, from the look at
    the byte after the last newline. *)
Theorem kvlm_parse_without_message_fails
    (kvs : list (bytes * bytes)) (fuel : nat) :
  kvs <> [] -> Forall (fun kv => header_key kv.1) kvs ->
  (length (header_text kvs) < fuel)%nat ->
  kvlm_parse fuel (header_text kvs) 0 [] = Raise IndexError.
Proof. intros Hne Hk Hfuel. by apply (kvlm_parse_header_lines kvs fuel [] []). Qed.

Lemma kvlm_parse_without_message_fails_witness :
  kvlm_parse 30 (header_text [(B "tree", B "a"); (B "author", B "me")]) 0 []
  = Raise IndexError.
Proof.
  apply (kvlm_parse_without_message_fails
           [(B "tree", B "a"); (B "author", B "me")] 30).
  - discriminate.
  - repeat constructor; cbn [fst]; try discriminate;
      apply (bool_decide_unpack _); by vm_compute.
  - vm_compute. lia.
Defined.

Lemma kvlm_serialize_loop_none kvlm keys ret :
  kvlm_serialize_loop kvlm keys ret = Ret None
  <-> Forall (fun kv => kv.1 = []) keys.
Proof.
  induction keys as [|[k val] keys IH]; cbn [kvlm_serialize_loop].
  - split; [constructor|done].
  - destruct (decide (k = [])) as [->|Hk].
    + rewrite IH. split; [by constructor|by inversion 1].
    + split.
      * by destruct (dict_get kvlm []) as [[?|?]|].
      * inversion 1; subst. done.
Qed.

(** A commit or tag without a header cannot be written: [kvlm_serialize]
    returns [None] exactly when the dictionary has no key but the message's,
    and [object_write] of such a commit or tag ends in TypeError, from
    [len(None)], whether asked to write or not, and leaves the files as they
    are. *)
Theorem object_write_without_header
    (lib : Libs) (fs : filesystem) (repo : GitRepository) (kvlm : OrderedDict)
    (actually_write : bool) :
  (kvlm_serialize kvlm = Ret None <-> Forall (fun kv => kv.1 = []) kvlm) /\
  (Forall (fun kv => kv.1 = []) kvlm ->
   object_write lib fs repo (GitCommit kvlm) actually_write = (Raise TypeError, fs) /\
   object_write lib fs repo (GitTag kvlm) actually_write = (Raise TypeError, fs)).
Proof.
  split; [apply kvlm_serialize_loop_none|].
  intros Hk. apply (kvlm_serialize_loop_none kvlm kvlm []) in Hk.
  unfold object_write, serialize. fold (kvlm_serialize kvlm).
  unfold kvlm_serialize. by rewrite Hk.
Qed.

Lemma object_write_without_header_witness :
  object_write stored_libs ∅ the_repo (GitCommit [([], VBytes (B "msg"))]) true
  = (Raise TypeError, ∅) /\
  object_write stored_libs ∅ the_repo (GitTag [([], VBytes (B "msg"))]) true
  = (Raise TypeError, ∅).
Proof.
  apply (proj2 (object_write_without_header stored_libs ∅ the_repo
                  [([], VBytes (B "msg"))] true)).
  by repeat constructor.
Defined.

Lemma dict_add_head k V rest k' v' :
  exists V' rest',
    dict_add ((k, V) :: rest) k' v' = (k, V') :: rest'
    /\ values V' = values V ++ (if bool_decide (k' = k) then [v'] else []).
Proof.
  unfold dict_add. cbn [dict_get].
  destruct (decide (k = k')) as [->|Hne].
  - rewrite bool_decide_eq_true_2 by done.
    destruct V as [b|l]; cbn [dict_set]; rewrite decide_True by done;
      by eexists _, _.
  - rewrite bool_decide_eq_false_2 by done. rewrite app_nil_r.
    destruct (dict_get rest k') as [[b|l]|]; cbn [dict_set];
      rewrite decide_False by done; by eexists _, _.
Qed.

Lemma dict_of_lines_head kvs : forall k V rest,
  exists V' rest',
    fold_left (fun d kv => dict_add d kv.1 kv.2) kvs ((k, V) :: rest)
    = (k, V') :: rest'
    /\ values V' = values V ++ map snd (lines_of k kvs).
Proof.
  induction kvs as [|[k' v'] kvs IH]; intros k V rest; cbn [fold_left fst snd].
  - exists V, rest. by rewrite app_nil_r.
  - destruct (dict_add_head k V rest k' v') as (V1 & rest1 & -> & HV1).
    destruct (IH k V1 rest1) as (V2 & rest2 & -> & HV2).
    exists V2, rest2. split; [done|]. rewrite HV2, HV1, <- app_assoc.
    f_equal. unfold lines_of. cbn [List.filter fst].
    by destruct (bool_decide (k' = k)).
Qed.

Lemma lines_of_pairs k kvs : map (pair k) (map snd (lines_of k kvs)) = lines_of k kvs.
Proof.
  unfold lines_of. induction kvs as [|[k' v'] kvs IH]; [done|].
  cbn [List.filter fst]. case_bool_decide as Hk; [|done].
  cbn [map snd]. by rewrite IH, Hk.
Qed.

Lemma dict_get_set d k v : dict_get (dict_set d k v) k = Some v.
Proof.
  induction d as [|[k' v'] d IH]; cbn [dict_set dict_get].
  - by rewrite decide_True.
  - destruct (decide (k' = k)) as [->|Hne]; cbn [dict_get].
    + by rewrite decide_True.
    + by rewrite decide_False.
Qed.

Lemma kvlm_parse_then_serialize k v kvs msg fuel :
  Forall (fun kv => header_key kv.1) ((k, v) :: kvs) ->
  (length (kvlm_text ((k, v) :: kvs) msg) < fuel)%nat ->
  exists d,
    kvlm_parse fuel (kvlm_text ((k, v) :: kvs) msg) 0 [] = Ret d
    /\ kvlm_serialize d = Ret (Some (kvlm_text (lines_of k ((k, v) :: kvs)) msg)).
Proof.
  intros Hk Hfuel.
  pose proof (kvlm_parse_lines ((k, v) :: kvs) msg fuel [] [] Hk Hfuel) as Hp.
  cbn [app fold_left fst snd] in Hp. change (len (@nil ascii)) with 0 in Hp.
  change (dict_add [] k v) with [(k, VBytes v)] in Hp.
  destruct (dict_of_lines_head kvs k (VBytes v) []) as (V & rest & HV & Hvals).
  rewrite HV in Hp. eexists. split; [exact Hp|].
  inversion Hk as [|? ? (Hne & _) _]; subst. cbn [fst] in Hne.
  cbn [dict_set]. rewrite decide_False by done.
  rewrite (kvlm_serialize_first_key k V _ msg Hne) by apply dict_get_set.
  rewrite Hvals. cbn [values app map]. rewrite lines_of_pairs.
  unfold lines_of. cbn [List.filter fst]. by rewrite bool_decide_eq_true_2.
Qed.

(** What a parse and a write keep of a header: a header of lines, a blank
    line and a message, parsed by [kvlm_parse] with enough fuel and written
    by [kvlm_serialize], comes back as the lines that carry the key of the
    first line, in their order, the blank line and the message; the result
    is the input exactly when the header has one key. *)
Theorem kvlm_serialize_kvlm_parse
    (k v : bytes) (kvs : list (bytes * bytes)) (msg : bytes) (fuel : nat) :
  Forall (fun kv => header_key kv.1) ((k, v) :: kvs) ->
  (length (kvlm_text ((k, v) :: kvs) msg) < fuel)%nat ->
  (d ← kvlm_parse fuel (kvlm_text ((k, v) :: kvs) msg) 0 []; kvlm_serialize d)
  = Ret (Some (kvlm_text (lines_of k ((k, v) :: kvs)) msg)).
Proof.
  intros Hk Hfuel.
  destruct (kvlm_parse_then_serialize k v kvs msg fuel Hk Hfuel) as (d & -> & Hs).
  by rewrite bind_Ret.
Qed.

Lemma kvlm_serialize_kvlm_parse_witness :
  (d ← kvlm_parse 60
         (kvlm_text [(B "parent", B "p1"); (B "author", B "me");
                     (B "parent", B "p2")] (B "msg")) 0 [];
   kvlm_serialize d)
  = Ret (Some (kvlm_text [(B "parent", B "p1"); (B "parent", B "p2")] (B "msg"))).
Proof.
  apply (kvlm_serialize_kvlm_parse (B "parent") (B "p1")
           [(B "author", B "me"); (B "parent", B "p2")] (B "msg") 60).
  - repeat constructor; cbn [fst]; try discriminate;
      apply (bool_decide_unpack _); by vm_compute.
  - vm_compute. lia.
Defined.

(** A text that does not start as a header: when the first line, up to the
    first newline or to the end, is not empty and holds no space, or when
    the text is empty, [kvlm_parse] ends in AssertionError, the first newline
    not being where the parse starts. *)
Theorem kvlm_parse_first_line_without_space
    (fuel : nat) (w rest : bytes) :
  (SP ∉ w) -> (LF ∉ w) -> rest = [] \/ (w <> [] /\ head rest = Some LF) ->
  kvlm_parse (S fuel) (w ++ rest) 0 [] = Raise AssertionError.
Proof.
  intros Hsp Hlf Hrest. cbn [kvlm_parse]. rewrite !find_zero.
  pose proof (len_nonneg w) as Hw.
  destruct Hrest as [->|[Hne Hhead]].
  - rewrite app_nil_r, !find_from_absent by done. done.
  - destruct rest as [|c rest]; [done|]. injection Hhead as ->.
    rewrite (find_from_first LF w rest 0 Hlf).
    assert (Hlen : 0 < len w) by (destruct w; [done|rewrite len_cons; pose proof (len_nonneg w); lia]).
    assert (Hc : (find_from SP (w ++ LF :: rest) 0 <? 0)
                 || (0 + len w <? find_from SP (w ++ LF :: rest) 0) = true).
    { rewrite find_from_skip by done. cbn [find_from].
      rewrite (ascii_eqb_neq LF SP) by discriminate.
      destruct (find_from_range SP rest (0 + len w + 1)) as [->|Hge]; [done|].
      apply orb_true_iff. right. apply Z.ltb_lt. lia. }
    rewrite Hc. destruct (Z.eqb_spec (0 + len w) 0); [lia|]. done.
Qed.

Lemma kvlm_parse_first_line_without_space_witness :
  kvlm_parse 1 (B "tree" ++ [LF] ++ B "parent b") 0 [] = Raise AssertionError.
Proof.
  apply (kvlm_parse_first_line_without_space 0 (B "tree") ([LF] ++ B "parent b")).
  - apply (bool_decide_unpack _). by vm_compute.
  - apply (bool_decide_unpack _). by vm_compute.
  - right. split; [discriminate|reflexivity].
Defined.

(** ** Trees *)

Lemma find_absent raw c start : c ∉ raw -> find raw c start = -1.
Proof.
  intros Hc. unfold find. apply find_from_absent.
  intros Hin. apply Hc. by apply (subseteq_drop _ _ _ Hin).
Qed.

Lemma tree_parse_loop_stuck raw :
  NUL ∉ raw -> 20 < len raw ->
  find raw SP 20 = 25 \/ find raw SP 20 = 26 ->
  forall fuel acc, tree_parse_loop fuel raw 20 acc = NoFuel.
Proof.
  intros Hnul Hlen Hsp fuel.
  induction fuel as [|k IH]; intros acc; [done|].
  cbn [tree_parse_loop]. destruct (Z.ltb_spec 20 (len raw)); [|lia].
  unfold tree_parse_one, SHA_BYTES_LEN. rewrite (find_absent raw NUL) by done.
  replace ((find raw SP 20 - 20 =? 5) || (find raw SP 20 - 20 =? 6)) with true
    by (destruct Hsp as [-> | ->]; done).
  cbn [assert]. rewrite !bind_Ret. apply IH.
Qed.

(** A tree payload without a NUL is parsed for ever: when no NUL follows the
    mode, [find] returns -1 and the next position is 20 whatever the current
    one is, so a payload of more than 20 bytes that holds no NUL and shows a
    plausible mode at 0 and at 20 keeps [tree_parse] at position 20; no
    amount of fuel gives a result. *)
Theorem tree_parse_without_NUL_never_returns (raw : bytes) (fuel : nat) :
  NUL ∉ raw -> 20 < len raw ->
  find raw SP 0 = 5 \/ find raw SP 0 = 6 ->
  find raw SP 20 = 25 \/ find raw SP 20 = 26 ->
  tree_parse fuel raw = NoFuel.
Proof.
  intros Hnul Hlen Hsp0 Hsp20. destruct fuel as [|k]; [done|].
  unfold tree_parse. cbn [tree_parse_loop].
  destruct (Z.ltb_spec 0 (len raw)); [|lia].
  unfold tree_parse_one, SHA_BYTES_LEN. rewrite (find_absent raw NUL) by done.
  replace ((find raw SP 0 - 0 =? 5) || (find raw SP 0 - 0 =? 6)) with true
    by (destruct Hsp0 as [-> | ->]; done).
  cbn [assert]. rewrite !bind_Ret. by apply tree_parse_loop_stuck.
Qed.

Lemma tree_parse_without_NUL_never_returns_witness :
  tree_parse 1000 (B "100644 a.txt" ++ repeat "h"%char 8 ++ B "100644 b.txt")
  = NoFuel.
Proof.
  apply (tree_parse_without_NUL_never_returns
           (B "100644 a.txt" ++ repeat "h"%char 8 ++ B "100644 b.txt") 1000).
  - apply (bool_decide_unpack _). by vm_compute.
  - by vm_compute.
  - right. by vm_compute.
  - right. by vm_compute.
Defined.

Lemma to_bytes_aux_acc n : forall v acc,
  to_bytes_aux n v acc = to_bytes_aux n v [] ++ acc.
Proof.
  induction n as [|k IH]; intros v acc; [done|]. cbn [to_bytes_aux].
  rewrite (IH _ (_ :: acc)), (IH _ [_]). by rewrite <- app_assoc.
Qed.

Lemma to_bytes_aux_length n : forall v acc,
  length (to_bytes_aux n v acc) = (n + length acc)%nat.
Proof.
  induction n as [|k IH]; intros v acc; [done|]. cbn [to_bytes_aux].
  rewrite IH. simpl. lia.
Qed.

Lemma from_bytes_to_bytes_aux n : forall v,
  0 <= v < 256 ^ Z.of_nat n -> from_bytes (to_bytes_aux n v []) = v.
Proof.
  induction n as [|k IH]; intros v Hv.
  - change (256 ^ Z.of_nat 0) with 1 in Hv. cbn. lia.
  - cbn [to_bytes_aux]. rewrite to_bytes_aux_acc, from_bytes_snoc.
    rewrite Nat2Z.inj_succ, Z.pow_succ_r in Hv by lia.
    rewrite IH by (split; [apply Z.div_pos; lia|apply Z.div_lt_upper_bound; lia]).
    rewrite ord_chr by (apply Z.mod_pos_bound; lia).
    symmetry. rewrite Z.mul_comm. apply Z.div_mod. lia.
Qed.

Lemma parsed_leaf_entry l :
  parsed_leaf l -> exists e, wf_entry e /\ leaf_of e = l.
Proof.
  intros (Hm & Hsp & Hnul & v & Hv & Hsha). destruct l as [m p s].
  cbn [mode path sha] in *. subst s.
  exists (mkTreeEntry m p (to_bytes_aux 20 v [])). split.
  - unfold wf_entry. cbn [e_mode e_name e_hash].
    split_and!; [done..|]. by rewrite to_bytes_aux_length.
  - unfold leaf_of. cbn [e_mode e_name e_hash].
    rewrite from_bytes_to_bytes_aux by (change (Z.of_nat 20) with 20; lia).
    f_equal. unfold hex. destruct (Z.ltb_spec v 0); [lia|].
    by apply (slice_from_app (U "0x")).
Qed.

Lemma parsed_leaves_entries items :
  Forall parsed_leaf items ->
  exists es, Forall wf_entry es /\ map leaf_of es = items.
Proof.
  induction 1 as [|l items Hl _ (es & Hes & Hmap)]; [by exists []|].
  destruct (parsed_leaf_entry l Hl) as (e & He & Hle).
  exists (e :: es). split; [by constructor|]. cbn [map]. by rewrite Hle, Hmap.
Qed.

Lemma parsed_leaves_roundtrip items fuel :
  Forall parsed_leaf items -> (length items < fuel)%nat ->
  exists data, tree_serializer items = Ret data
               /\ tree_parse fuel data = Ret items.
Proof.
  intros Hitems Hfuel.
  destruct (parsed_leaves_entries items Hitems) as (es & Hes & <-).
  rewrite length_map in Hfuel. exists (tree_payload es). split.
  - unfold tree_serializer. by rewrite tree_serializer_loop_leaves.
  - apply (tree_parse_loop_payload es [] [] fuel Hes Hfuel).
Qed.

(** Leaves as the parser builds them are written and read back unchanged:
    for leaves with a mode of 5 or 6 bytes without a space, a path without
    NUL and a [sha] that is the shortest lower-case hexadecimal text of a
    number below 256^20, [tree_serializer] returns a payload that
    [tree_parse], with more fuel than there are leaves, parses into the same
    leaves. *)
Theorem tree_parse_tree_serializer (items : list GitTreeLeaf) (fuel : nat) :
  Forall parsed_leaf items -> (length items < fuel)%nat ->
  exists data, tree_serializer items = Ret data
               /\ tree_parse fuel data = Ret items.
Proof. apply parsed_leaves_roundtrip. Qed.

Lemma tree_parse_tree_serializer_witness :
  exists data,
    tree_serializer [mkLeaf (B "100644") (B "a.txt") (U "1f"); 
                     mkLeaf (B "40000") (B "src") (U "0")] = Ret data
    /\ tree_parse 3 data
       = Ret [mkLeaf (B "100644") (B "a.txt") (U "1f");
              mkLeaf (B "40000") (B "src") (U "0")].
Proof.
  apply (tree_parse_tree_serializer
           [mkLeaf (B "100644") (B "a.txt") (U "1f");
            mkLeaf (B "40000") (B "src") (U "0")] 3).
  - apply Forall_cons. split; [|apply Forall_cons; split; [|apply Forall_nil_2]];
      unfold parsed_leaf; cbn [mode path sha].
    + split_and!; [by right|apply (bool_decide_unpack _); by vm_compute..|].
      exists 31. split; [lia|reflexivity].
    + split_and!; [by left|apply (bool_decide_unpack _); by vm_compute..|].
      exists 0. split; [lia|reflexivity].
  - simpl. lia.
Defined.

(** ** The object store *)

Lemma repo_path_objects_nonempty repo (a : str) :
  repo_path repo [U "objects"; a] <> [].
Proof.
  unfold repo_path, path_join. cbn [fold_left].
  assert (H : join1 (gitdir repo) (U "objects") <> []) by by apply join1_nonempty.
  unfold join1 at 1. destruct (startswith a (U "/")) eqn:Ha.
  - destruct a; [done|discriminate].
  - destruct (_ || _); intros Heq; by apply app_eq_nil in Heq as [? _].
Qed.



Lemma fmt_no_space obj : SP ∉ fmt obj.
Proof. destruct obj; apply (bool_decide_unpack _); by vm_compute. Qed.

Lemma object_read_written lib fuel fs fs' repo obj data sha :
  serialize obj = Ret (Some data) ->
  object_write lib fs repo obj true = (Ret sha, fs') ->
  object_read lib fuel fs' repo sha = reread fuel obj data.
Proof.
  intros Hser Hw.
  destruct (object_write_cases lib fs repo obj data Hser)
    as [(fs1 & Hw1 & _ & _ & _ & Hfound)|(e & fs1 & Hw1 & _)];
    rewrite Hw in Hw1; [|discriminate Hw1].
  injection Hw1 as -> ->.
  pose proof (len_nonneg data) as Hlen.
  destruct (digits_spec 10 (len data) ltac:(lia) Hlen) as (Hall & Hne & Hval).
  rewrite (object_read_framed lib fuel _ repo _ _
             (zlib_compress lib (framed obj data))
             (fmt obj) (digits 10 (len data)) data Hfound).
  - replace (decimal (digits 10 (len data))) with (len data)
      by (symmetry; exact Hval).
    rewrite Z.eqb_refl. by destruct obj.
  - unfold open_rb. by rewrite lookup_insert_eq.
  - rewrite zlib_roundtrip. unfold framed, str_of_int.
    by destruct (Z.ltb_spec (len data) 0); [lia|].
  - apply fmt_no_space.
  - done.
  - done.
Qed.

(** Reading what was written: when a persisting [object_write] of an object
    whose [serialize] gives [data] returns a hash, [object_read] of that hash
    in the resulting files is the constructor of the object's type applied to
    [data], for each of the four types and for any digest and any codec whose
    decompression inverts its compression. *)
Theorem object_read_object_write
    (lib : Libs) (fuel : nat) (fs fs' : filesystem) (repo : GitRepository)
    (obj : GitObject) (data : bytes) (sha : str) :
  serialize obj = Ret (Some data) ->
  object_write lib fs repo obj true = (Ret sha, fs') ->
  object_read lib fuel fs' repo sha = reread fuel obj data.
Proof. apply object_read_written. Qed.

Lemma object_read_object_write_witness :
  object_read stored_libs 9
    (object_write stored_libs (<[U "/w/.git" := Dir]> ∅) the_repo
       (GitTag [(B "object", VBytes (B "ab")); ([], VBytes (B "m"))]) true).2
    the_repo
    (positional_digest
       (framed (GitTag [(B "object", VBytes (B "ab")); ([], VBytes (B "m"))])
          (B "object ab" ++ [LF; LF] ++ B "m")))
  = new_GitTag 9 (B "object ab" ++ [LF; LF] ++ B "m").
Proof.
  apply (object_read_object_write stored_libs 9 (<[U "/w/.git" := Dir]> ∅) _
           the_repo
           (GitTag [(B "object", VBytes (B "ab")); ([], VBytes (B "m"))])).
  - reflexivity.
  - apply injective_projections; cbn [fst snd]; [by vm_compute|reflexivity].
Defined.

(** A tree of leaves as the parser builds them survives the store: when a
    persisting [object_write] of such a tree returns a hash, [object_read] of
    that hash, with more fuel than there are leaves, returns the same
    tree. *)
Theorem object_read_object_write_tree
    (lib : Libs) (fuel : nat) (fs fs' : filesystem) (repo : GitRepository)
    (items : list GitTreeLeaf) (sha : str) :
  Forall parsed_leaf items -> (length items < fuel)%nat ->
  object_write lib fs repo (GitTree items) true = (Ret sha, fs') ->
  object_read lib fuel fs' repo sha = Ret (GitTree items).
Proof.
  intros Hitems Hfuel Hw.
  destruct (parsed_leaves_roundtrip items fuel Hitems Hfuel) as (data & Hs & Hp).
  rewrite (object_read_written lib fuel fs fs' repo (GitTree items) data sha).
  - cbn [reread]. unfold new_GitTree. by rewrite Hp.
  - cbn [serialize]. by rewrite Hs.
  - done.
Qed.

Lemma object_read_object_write_tree_witness :
  object_read stored_libs 2
    (object_write stored_libs (<[U "/w/.git" := Dir]> ∅) the_repo
       (GitTree [mkLeaf (B "100644") (B "a.txt") (U "1f")]) true).2
    the_repo
    (positional_digest
       (framed (GitTree [mkLeaf (B "100644") (B "a.txt") (U "1f")])
          (B "100644 a.txt" ++ repeat NUL 20 ++ [chr 31])))
  = Ret (GitTree [mkLeaf (B "100644") (B "a.txt") (U "1f")]).
Proof.
  apply (object_read_object_write_tree stored_libs 2
           (<[U "/w/.git" := Dir]> ∅)).
  - apply Forall_cons. split; [|apply Forall_nil_2].
    unfold parsed_leaf; cbn [mode path sha].
    split_and!; [by right|apply (bool_decide_unpack _); by vm_compute..|].
    exists 31. split; [lia|reflexivity].
  - simpl. lia.
  - apply injective_projections; cbn [fst snd]; [by vm_compute|reflexivity].
Defined.

(** A commit or tag of one header key survives the store, and of a longer one
    the first key does: for a dictionary that starts with a header key whose
    value has the shape the parser builds and that holds a message, when a
    persisting [object_write] of the commit (or tag) returns a hash,
    [object_read] of that hash, with more fuel than the payload has bytes,
    returns the commit (or tag) of that key, its value and the message. *)
Theorem object_read_object_write_commit
    (lib : Libs) (fuel : nat) (fs fs' : filesystem) (repo : GitRepository)
    (k : bytes) (val : kvval) (rest : OrderedDict) (msg : bytes) (sha : str) :
  header_key k -> parsed_value val -> dict_get rest [] = Some (VBytes msg) ->
  (length (kvlm_text (map (pair k) (values val)) msg) < fuel)%nat ->
  (object_write lib fs repo (GitCommit ((k, val) :: rest)) true = (Ret sha, fs') ->
   object_read lib fuel fs' repo sha = Ret (GitCommit [(k, val); ([], VBytes msg)]))
  /\ (object_write lib fs repo (GitTag ((k, val) :: rest)) true = (Ret sha, fs') ->
      object_read lib fuel fs' repo sha = Ret (GitTag [(k, val); ([], VBytes msg)])).
Proof.
  intros Hk Hval Hmsg Hfuel.
  pose proof (kvlm_serialize_first_key k val rest msg (proj1 Hk) Hmsg) as Hs.
  pose proof (kvlm_parse_first_key k val msg fuel Hk Hval Hfuel) as Hp.
  split; intros Hw.
  - rewrite (object_read_written lib fuel fs fs' repo
               (GitCommit ((k, val) :: rest)) _ sha Hs Hw).
    cbn [reread]. unfold new_GitCommit. by rewrite Hp.
  - rewrite (object_read_written lib fuel fs fs' repo
               (GitTag ((k, val) :: rest)) _ sha Hs Hw).
    cbn [reread]. unfold new_GitTag. by rewrite Hp.
Qed.

Lemma object_read_object_write_commit_witness :
  object_read stored_libs 20
    (object_write stored_libs (<[U "/w/.git" := Dir]> ∅) the_repo
       (GitCommit [(B "tree", VBytes (B "ab")); ([], VBytes (B "m"))]) true).2
    the_repo
    (positional_digest
       (framed (GitCommit [(B "tree", VBytes (B "ab")); ([], VBytes (B "m"))])
          (B "tree ab" ++ [LF; LF] ++ B "m")))
  = Ret (GitCommit [(B "tree", VBytes (B "ab")); ([], VBytes (B "m"))]).
Proof.
  apply (object_read_object_write_commit stored_libs 20
           (<[U "/w/.git" := Dir]> ∅) _ the_repo
           (B "tree") (VBytes (B "ab")) [([], VBytes (B "m"))] (B "m")).
  - split_and!; [discriminate|apply (bool_decide_unpack _); by vm_compute..].
  - exact I.
  - reflexivity.
  - vm_compute. lia.
  - apply injective_projections; cbn [fst snd]; [by vm_compute|reflexivity].
Defined.

(** ** Names *)

Lemma hashRE_match_other name c :
  c ∈ name -> is_hex_char c = false -> c <> LF -> hashRE_match name = false.
Proof.
  intros Hin Hc Hlf. unfold hashRE_match.
  assert (Hbody : forall body, c ∈ body -> forallb is_hex_char body = false).
  { intros body Hb. apply not_true_is_false. intros Hall.
    rewrite forallb_forall in Hall. rewrite list_elem_of_In in Hb.
    specialize (Hall c Hb). congruence. }
  destruct (last name) as [d|] eqn:Hl; [|by rewrite Hbody].
  unfold ascii_eqb. case_bool_decide as Hd; [|by rewrite Hbody].
  subst d. apply last_Some in Hl as [l' ->].
  rewrite removelast_last. rewrite Hbody; [done|].
  apply elem_of_app in Hin as [Hin|Hin]; [done|].
  apply list_elem_of_singleton in Hin. done.
Qed.

(** Only [HEAD] and hexadecimal names are names: for a name other than
    [HEAD] that holds a character which is neither a hexadecimal digit nor a
    newline (a branch such as [master], a tag, a path under [refs]),
    [object_find] raises [Not such reference], whatever the files of the
    repository hold and whatever type is asked for. *)
Theorem object_find_only_HEAD_or_hex
    (lib : Libs) (fuel : nat) (fs : filesystem) (repo : GitRepository)
    (name : str) (fmt_ : option bytes) (follow : bool) (c : ascii) :
  name <> U "HEAD" -> c ∈ name -> is_hex_char c = false -> c <> LF ->
  object_find lib fuel fs repo name fmt_ follow
  = Raise (Exception (U "Not such reference " ++ name)).
Proof.
  intros Hhead Hin Hc Hlf. unfold object_find, object_resolve.
  case_bool_decide as Hstrip; [done|].
  rewrite bool_decide_eq_false_2 by done.
  by rewrite (hashRE_match_other name c).
Qed.

Lemma object_find_only_HEAD_or_hex_witness :
  object_find stored_libs 5 chained_fs the_repo (U "refs/heads/main") None true
  = Raise (Exception (U "Not such reference " ++ U "refs/heads/main")).
Proof.
  apply (object_find_only_HEAD_or_hex stored_libs 5 chained_fs the_repo
           (U "refs/heads/main") None true "r"%char).
  - discriminate.
  - by left.
  - reflexivity.
  - discriminate.
Defined.

Lemma object_resolve_full_hash fuel fs repo name :
  forallb is_hex_char name = true -> len name = 40 ->
  object_resolve fuel fs repo name = Ret (Some [lower name]).
Proof.
  intros Hhex Hlen.
  pose proof (hex_chars_digits name Hhex) as Hdigits.
  assert (Hne : name <> []) by (intros ->; change (len []) with 0 in Hlen; lia).
  assert (Hlast : match last name with
                  | Some c => if ascii_eqb c LF then removelast name else name
                  | None => name
                  end = name).
  { destruct (last name) as [c|] eqn:Hl; [|done].
    rewrite (is_digit_not_char 16 c LF); [done|lia| |not_digit_char].
    rewrite Forall_forall in Hdigits. apply Hdigits.
    apply last_Some in Hl as [l' ->]. apply elem_of_app. right. by left. }
  unfold object_resolve.
  rewrite bool_decide_eq_false_2 by (rewrite (strip_digits 16) by (done || lia); done).
  rewrite bool_decide_eq_false_2 by (intros ->; discriminate Hhex).
  unfold hashRE_match. rewrite Hlast, Hhex, Hlen. by cbn.
Qed.

(** A full hash is taken at its word: for a name of 40 hexadecimal digits
    and no type asked for, [object_find] returns the name in lower case,
    whatever the files of the repository hold; no object of that name need
    be stored. *)
Theorem object_find_full_hash_unchecked
    (lib : Libs) (fuel : nat) (fs : filesystem) (repo : GitRepository)
    (name : str) (follow : bool) :
  forallb is_hex_char name = true -> len name = 40 ->
  object_find lib fuel fs repo name None follow = Ret (Some (lower name)).
Proof.
  intros Hhex Hlen. unfold object_find.
  by rewrite object_resolve_full_hash.
Qed.

Lemma object_find_full_hash_unchecked_witness :
  object_find stored_libs 0 ∅ the_repo (repeat "A"%char 40) None true
  = Ret (Some (repeat "a"%char 40)).
Proof.
  apply (object_find_full_hash_unchecked stored_libs 0 ∅ the_repo
           (repeat "A"%char 40) true); reflexivity.
Defined.

(** ** The index, when a name does not end *)

Lemma index_loop_restart n body : forall acc,
  (index_entry_at body 0).2 = 0 ->
  index_loop n body 0 acc = acc ++ repeat (index_entry_at body 0).1 n.
Proof.
  induction n as [|k IH]; intros acc Hnext; cbn [index_loop repeat].
  - by rewrite app_nil_r.
  - destruct (index_entry_at body 0) as [e idx'] eqn:He. cbn [fst snd] in *.
    subst idx'. rewrite IH by done. by rewrite <- app_assoc.
Qed.

(** A name that no NUL ends sends the loop back to the start: when the
    bytes after the header hold no NUL from position 62 on, [find] returns
    -1, the next record is looked for at 0 again, and every entry the count
    asks for is the first one, its name being the bytes from 62 to the last
    but one. *)
Theorem GitIndex_init_without_NUL_repeats (magic ver cnt body : bytes) :
  len magic = 4 -> len ver = 4 -> len cnt = 4 ->
  NUL ∉ slice_from body 62 ->
  entries (GitIndex_init (magic ++ ver ++ cnt ++ body))
  = repeat (index_entry_at body 0).1 (Z.to_nat (from_bytes cnt))
  /\ name (index_entry_at body 0).1 = Some (slice body 62 (-1)).
Proof.
  intros Hm Hv Hc Hnul.
  assert (Hfind : find body NUL 62 = -1).
  { unfold find. change (62 <? 0) with false. cbv iota.
    apply find_from_absent. intros Hin. apply Hnul. unfold slice_from.
    pose proof (len_nonneg body). unfold clamp. change (62 <? 0) with false.
    cbv iota. destruct (Z.min_spec 62 (len body)) as [[_ ->]|[Hle ->]]; [done|].
    rewrite drop_ge in Hin by (unfold len in Hle; lia). by inversion Hin. }
  rewrite GitIndex_init_header by done. cbn [entries]. split.
  - apply (index_loop_restart _ body []).
    unfold index_entry_at. cbn [snd]. change (0 + 62) with 62. by rewrite Hfind.
  - unfold index_entry_at. cbn [fst name]. change (0 + 62) with 62.
    by rewrite Hfind.
Qed.

Lemma GitIndex_init_without_NUL_repeats_witness :
  entries (GitIndex_init (B "DIRC" ++ [NUL; NUL; NUL; chr 2] ++ [NUL; NUL; NUL; chr 3]
                            ++ repeat "x"%char 70))
  = repeat (index_entry_at (repeat "x"%char 70) 0).1
      (Z.to_nat (from_bytes [NUL; NUL; NUL; chr 3]))
  /\ name (index_entry_at (repeat "x"%char 70) 0).1
     = Some (slice (repeat "x"%char 70) 62 (-1)).
Proof.
  apply (GitIndex_init_without_NUL_repeats (B "DIRC") [NUL; NUL; NUL; chr 2]
           [NUL; NUL; NUL; chr 3] (repeat "x"%char 70));
    try reflexivity.
  apply (bool_decide_unpack _). by vm_compute.
Defined.

(** ** References written *)

Lemma join1_relative p b :
  b <> [] -> startswith b (U "/") = false ->
  join1 p b <> p /\ exists s, join1 p b = p ++ s ++ b /\ (s = [] \/ s = U "/").
Proof.
  intros Hb Hs. unfold join1. rewrite Hs. split.
  - destruct (_ || _); intros Heq; apply (f_equal length) in Heq;
      rewrite ?length_app in Heq; destruct b; simpl in *; try done; lia.
  - destruct (_ || _); [exists []|exists (U "/")]; split; auto.
Qed.

Lemma ref_create_returns fs repo ref_name sha fs' :
  ref_create fs repo ref_name (Some sha) = (Ret tt, fs') ->
  fs !! gitdir repo = Some Dir /\ gitdir repo <> []
  /\ Forall (fun c => ord c < 128) sha
  /\ fs' = <[repo_path repo [U "refs/" ++ ref_name] := File (sha ++ [LF])]> fs.
Proof.
  unfold ref_create, repo_file, repo_dir. cbn [removelast].
  change (repo_path repo []) with (gitdir repo).
  set (P := repo_path repo [U "refs/" ++ ref_name]). clearbody P.
  destruct (fs !! gitdir repo) as [[c|]|] eqn:Hd; cbn [mbind outcome_bind bind];
    try discriminate.
  destruct (decide (gitdir repo = [])) as [Hg|Hg]; [by rewrite Hg|].
  assert (Ht : truthy (Some (gitdir repo)) = true) by (by destruct (gitdir repo)).
  rewrite Ht.
  assert (Hw : forall fs2, write_text fs2 P (sha ++ [LF]) = (Ret tt, fs') ->
                 Forall (fun c => ord c < 128) sha
                 /\ fs' = <[P := File (sha ++ [LF])]> fs2).
  { intros fs2. unfold write_text.
    destruct (forallb _ _) eqn:Hall; [|discriminate]. intros [= <-].
    split; [|done]. apply ascii_literal in Hall.
    by apply Forall_app in Hall as [? _]. }
  assert (Hdone : write_text (<[P := File []]> fs) P (sha ++ [LF]) = (Ret tt, fs') ->
            Some Dir = Some Dir /\ gitdir repo <> []
            /\ Forall (fun c => ord c < 128) sha
            /\ fs' = <[P := File (sha ++ [LF])]> fs).
  { intros H. apply Hw in H as [Hs ->]. by rewrite insert_insert_eq. }
  unfold open_w. destruct (fs !! P) as [[c|]|] eqn:HP; [done|discriminate|].
  destruct (bool_decide (dirname P = [])); [done|].
  by destruct (fs !! dirname P) as [[c|]|].
Qed.

Lemma ref_written_resolves k fs repo r sha :
  fs !! gitdir repo = Some Dir -> gitdir repo <> [] ->
  r <> [] -> startswith r (U "/") = false ->
  plain_text sha -> startswith sha (U "ref: ") = false ->
  ref_resolve (S k) (<[repo_path repo [r] := File (sha ++ [LF])]> fs) repo r
  = Ret sha.
Proof.
  intros Hd Hne Hr Hrel Hplain Hs.
  apply ref_resolve_direct; [|done| |done|done].
  - rewrite lookup_insert_ne; [done|].
    unfold repo_path, path_join. cbn [fold_left].
    by apply join1_relative.
  - unfold direct_ref. by rewrite lookup_insert_eq.
Qed.

(** A reference that was created resolves to what was put in it: whenever
    [ref_create] returns, the file [refs/<ref_name>] of the repository holds
    the given text and a newline, and, the text being free of carriage
    returns and not starting with [ref: ], [ref_resolve] of
    [refs/<ref_name>] returns it. *)
Theorem ref_resolve_ref_create
    (k : nat) (fs fs' : filesystem) (repo : GitRepository) (ref_name sha : str) :
  ref_create fs repo ref_name (Some sha) = (Ret tt, fs') ->
  (CR ∉ sha) -> startswith sha (U "ref: ") = false ->
  fs' !! repo_path repo [U "refs/" ++ ref_name] = Some (File (sha ++ [LF]))
  /\ ref_resolve (S k) fs' repo (U "refs/" ++ ref_name) = Ret sha.
Proof.
  intros Hc Hcr Hs.
  apply ref_create_returns in Hc as (Hd & Hne & Hascii & ->).
  split; [by rewrite lookup_insert_eq|].
  apply ref_written_resolves; try done.
  rewrite Forall_forall in Hascii. apply Forall_forall.
  intros c Hin. split; [by apply Hascii|]. by intros ->.
Qed.

Lemma ref_resolve_ref_create_witness :
  (ref_create (<[U "/w/.git/refs/heads" := Dir]> chained_fs) the_repo
     (U "heads/dev") (Some (U "abc123"))).2
  !! repo_path the_repo [U "refs/" ++ U "heads/dev"]
  = Some (File (U "abc123" ++ [LF]))
  /\ ref_resolve 1
       (ref_create (<[U "/w/.git/refs/heads" := Dir]> chained_fs) the_repo
          (U "heads/dev") (Some (U "abc123"))).2
       the_repo (U "refs/" ++ U "heads/dev")
     = Ret (U "abc123").
Proof.
  apply (ref_resolve_ref_create 0 (<[U "/w/.git/refs/heads" := Dir]> chained_fs)
           _ the_repo (U "heads/dev") (U "abc123")).
  - apply injective_projections; cbn [fst snd]; [by vm_compute|reflexivity].
  - apply (bool_decide_unpack _). by vm_compute.
  - reflexivity.
Defined.

(** ** Tags *)

Lemma join1_sep p b :
  startswith b (U "/") = false ->
  join1 p b
  = p ++ (if bool_decide (p = []) || endswith_sep p then [] else U "/") ++ b.
Proof. intros Hb. unfold join1. rewrite Hb. by destruct (_ || _). Qed.

Lemma path_join_prefix l : forall a,
  Forall (fun b => startswith b (U "/") = false) l ->
  exists t, path_join a l = a ++ t.
Proof.
  induction l as [|b l IH]; intros a Hl.
  - exists []. unfold path_join. cbn. by rewrite app_nil_r.
  - inversion Hl as [|? ? Hb Hl']; subst. unfold path_join. cbn [fold_left].
    destruct (IH (join1 a b) Hl') as [t Ht]. unfold path_join in Ht.
    rewrite Ht, (join1_sep a b Hb). rewrite <- !app_assoc. by eexists.
Qed.

Lemma no_sep_relative (x : str) : "/"%char ∉ x -> startswith x (U "/") = false.
Proof.
  destruct x as [|c x]; [done|]. intros Hc. cbn.
  unfold ascii_eqb. case_bool_decide as Heq; [|done].
  exfalso. apply Hc. rewrite <- Heq. by left.
Qed.

Lemma hex_no_sep sha : forallb is_hex_char sha = true -> "/"%char ∉ sha.
Proof.
  intros Hhex Hin. rewrite forallb_forall in Hhex.
  rewrite list_elem_of_In in Hin. by specialize (Hhex _ Hin).
Qed.

Lemma slice_subseteq {A} (l : list A) lo hi : slice l lo hi ⊆ l.
Proof.
  unfold slice. etransitivity; [apply subseteq_take|apply subseteq_drop].
Qed.

Lemma slice_from_subseteq {A} (l : list A) lo : slice_from l lo ⊆ l.
Proof. apply subseteq_drop. Qed.

(** The file of a reference is neither the file of an object with a
    hexadecimal name nor a directory on the way to it. *)
Lemma ref_path_not_object_path repo r sha (l : list str) :
  forallb is_hex_char sha = true ->
  l = [slice sha 0 2] \/ l = [slice sha 0 2; slice_from sha 2] ->
  repo_path repo [U "refs/" ++ r] <> repo_path repo (U "objects" :: l).
Proof.
  intros Hhex Hl. apply hex_no_sep in Hhex.
  assert (Hrel : Forall (fun b => startswith b (U "/") = false) l).
  { destruct Hl as [-> | ->]; repeat constructor; apply no_sep_relative;
      intros Hin; apply Hhex;
      [apply (slice_subseteq sha 0 2)|apply (slice_subseteq sha 0 2)
      |apply (slice_from_subseteq sha 2)]; done. }
  unfold repo_path. unfold path_join at 1. cbn [fold_left].
  change (path_join (gitdir repo) (U "objects" :: l))
    with (path_join (join1 (gitdir repo) (U "objects")) l).
  destruct (path_join_prefix l (join1 (gitdir repo) (U "objects")) Hrel) as [t ->].
  rewrite !join1_sep by done. rewrite <- !app_assoc.
  intros Heq. apply app_inv_head in Heq. apply app_inv_head in Heq.
  discriminate Heq.
Qed.

Lemma object_read_insert_other lib fuel fs repo sha P n :
  P <> repo_path repo [U "objects"; slice sha 0 2] ->
  P <> object_file repo sha ->
  object_read lib fuel (<[P := n]> fs) repo sha = object_read lib fuel fs repo sha.
Proof.
  intros HD HF. unfold object_read, repo_file, repo_dir. cbn [removelast].
  fold (object_file repo sha). rewrite lookup_insert_ne by done.
  destruct (fs !! repo_path repo [U "objects"; slice sha 0 2]) as [[c|]|];
    cbn [fst]; [done| |done].
  rewrite !bind_Ret. destruct (truthy _); [|done].
  unfold open_rb. by rewrite lookup_insert_ne.
Qed.

Lemma tag_kvlm_first sha name :
  tag_kvlm sha name
  = (B "object", VBytes (encode_utf8 sha))
    :: [(B "type", VBytes (B "commit")); (B "tag", VBytes (encode_utf8 name));
        (B "tagger", VBytes (B "User <user@example.com>"));
        ([], VBytes (B "A tag generated by wyag."))].
Proof. reflexivity. Qed.

(** A tag without an object of its own: whenever [tag_create] returns for a
    type other than [object], the reference was found by [object_find] and
    the file [refs/tags/<name>] holds what it was found as, followed by a
    newline; [ref_resolve] of [refs/tags/<name>] returns it when it is free of
    carriage returns and does not start with [ref: ]. *)
Theorem tag_create_lightweight
    (lib : Libs) (fuel k : nat) (fs fs' : filesystem) (repo : GitRepository)
    (name reference type_ : str) :
  tag_create lib fuel fs repo name reference type_ = (Ret tt, fs') ->
  type_ <> U "object" ->
  exists sha,
    object_find lib fuel fs repo reference None true = Ret (Some sha)
    /\ fs' !! repo_path repo [U "refs/tags/" ++ name] = Some (File (sha ++ [LF]))
    /\ ((CR ∉ sha) -> startswith sha (U "ref: ") = false ->
        ref_resolve (S k) fs' repo (U "refs/tags/" ++ name) = Ret sha).
Proof.
  unfold tag_create. intros Hc Hty.
  rewrite bool_decide_eq_false_2 in Hc by done.
  destruct (object_find lib fuel fs repo reference None true) as [[sha|]|e|];
    try discriminate Hc.
  - exists sha. split; [done|].
    apply ref_create_returns in Hc as (Hd & Hne & Hascii & ->).
    split; [by rewrite lookup_insert_eq|]. intros Hcr Hs.
    apply (ref_written_resolves k fs repo (U "refs/tags/" ++ name) sha);
      try done.
    rewrite Forall_forall in Hascii. apply Forall_forall.
    intros c Hin. split; [by apply Hascii|]. by intros ->.
  - exfalso. revert Hc. unfold ref_create.
    destruct (repo_file fs repo _ false) as [[p| |] fs1]; try discriminate.
    destruct (open_w fs1 p) as [[fp| |] fs2]; discriminate.
Qed.

Lemma tag_create_lightweight_witness :
  exists sha,
    object_find stored_libs 3 (<[U "/w/.git/refs/tags" := Dir]> chained_fs)
      the_repo (U "HEAD") None true = Ret (Some sha)
    /\ (tag_create stored_libs 3 (<[U "/w/.git/refs/tags" := Dir]> chained_fs)
          the_repo (U "v1") (U "HEAD") (U "ref")).2
       !! repo_path the_repo [U "refs/tags/" ++ U "v1"] = Some (File (sha ++ [LF]))
    /\ ((CR ∉ sha) -> startswith sha (U "ref: ") = false ->
        ref_resolve 1
          (tag_create stored_libs 3 (<[U "/w/.git/refs/tags" := Dir]> chained_fs)
             the_repo (U "v1") (U "HEAD") (U "ref")).2
          the_repo (U "refs/tags/" ++ U "v1") = Ret sha).
Proof.
  apply (tag_create_lightweight stored_libs 3 0
           (<[U "/w/.git/refs/tags" := Dir]> chained_fs) _ the_repo
           (U "v1") (U "HEAD") (U "ref")).
  - apply injective_projections; cbn [fst snd]; [by vm_compute|reflexivity].
  - discriminate.
Defined.

(** A tag with an object of its own: whenever [tag_create] returns for the
    type [object], the reference was found by [object_find], the file
    [refs/tags/<name>] holds the hash of a tag object followed by a newline,
    and, that hash being hexadecimal, [object_read] of it, with more fuel
    than the payload has bytes, returns a tag that holds the [object] field
    and the message: the type, the name and the tagger are not stored. *)
Theorem tag_create_annotated
    (lib : Libs) (fuel fuel' : nat) (fs fs' : filesystem) (repo : GitRepository)
    (name reference : str) :
  tag_create lib fuel fs repo name reference (U "object") = (Ret tt, fs') ->
  exists sha,
    object_find lib fuel fs repo reference None true = Ret (Some sha)
    /\ let data := kvlm_text [(B "object", encode_utf8 sha)]
                     (B "A tag generated by wyag.") in
       let tag_sha :=
         sha1_hexdigest lib (B "tag " ++ str_of_int (len data) ++ [NUL] ++ data) in
       fs' !! repo_path repo [U "refs/tags/" ++ name] = Some (File (tag_sha ++ [LF]))
       /\ (forallb is_hex_char tag_sha = true -> (length data < fuel')%nat ->
           object_read lib fuel' fs' repo tag_sha
           = Ret (GitTag [(B "object", VBytes (encode_utf8 sha));
                          ([], VBytes (B "A tag generated by wyag."))])).
Proof.
  unfold tag_create. intros Hc. rewrite bool_decide_eq_true_2 in Hc by done.
  destruct (object_find lib fuel fs repo reference None true) as [[sha|]|e|];
    try discriminate Hc.
  exists sha. split; [done|].
  set (data := kvlm_text [(B "object", encode_utf8 sha)]
                 (B "A tag generated by wyag.")).
  set (tag_sha := sha1_hexdigest lib _).
  assert (Hser : serialize (GitTag (tag_kvlm sha name)) = Ret (Some data)).
  { cbn [serialize]. rewrite tag_kvlm_first.
    by rewrite (kvlm_serialize_first_key _ _ _ (B "A tag generated by wyag.")). }
  destruct (object_write lib fs repo (GitTag (tag_kvlm sha name)) true)
    as [[h| |] fs1] eqn:Hw; try discriminate Hc.
  assert (Hh : h = tag_sha).
  { destruct (object_write_cases lib fs repo (GitTag (tag_kvlm sha name)) data Hser)
      as [(fs0 & Hw1 & _)|(e & fs0 & Hw1 & _)];
      rewrite Hw in Hw1; [|discriminate Hw1].
    by injection Hw1 as -> _. }
  subst h.
  apply ref_create_returns in Hc as (Hd & Hne & Hascii & ->).
  split; [by rewrite lookup_insert_eq|]. intros Hhex Hfuel.
  rewrite object_read_insert_other.
  - rewrite (object_read_written lib fuel' fs fs1 repo _ data tag_sha Hser Hw).
    cbn [reread]. unfold new_GitTag.
    assert (Hk : header_key (B "object")).
    { split_and!; [discriminate|apply (bool_decide_unpack _); by vm_compute..]. }
    pose proof (kvlm_parse_first_key (B "object") (VBytes (encode_utf8 sha))
                  (B "A tag generated by wyag.") fuel' Hk I Hfuel) as Hp.
    change (kvlm_text _ _) with data in Hp. by rewrite Hp.
  - apply (ref_path_not_object_path repo (U "tags/" ++ name) tag_sha); auto.
  - apply (ref_path_not_object_path repo (U "tags/" ++ name) tag_sha); auto.
Qed.

Lemma tag_create_annotated_witness :
  exists sha,
    object_find stored_libs 3 (<[U "/w/.git/refs/tags" := Dir]> chained_fs)
      the_repo (U "HEAD") None true = Ret (Some sha)
    /\ let data := kvlm_text [(B "object", encode_utf8 sha)]
                     (B "A tag generated by wyag.") in
       let tag_sha :=
         sha1_hexdigest stored_libs
           (B "tag " ++ str_of_int (len data) ++ [NUL] ++ data) in
       (tag_create stored_libs 3 (<[U "/w/.git/refs/tags" := Dir]> chained_fs)
          the_repo (U "v1") (U "HEAD") (U "object")).2
       !! repo_path the_repo [U "refs/tags/" ++ U "v1"]
       = Some (File (tag_sha ++ [LF]))
       /\ (forallb is_hex_char tag_sha = true -> (length data < 100)%nat ->
           object_read stored_libs 100
             (tag_create stored_libs 3 (<[U "/w/.git/refs/tags" := Dir]> chained_fs)
                the_repo (U "v1") (U "HEAD") (U "object")).2
             the_repo tag_sha
           = Ret (GitTag [(B "object", VBytes (encode_utf8 sha));
                          ([], VBytes (B "A tag generated by wyag."))])).
Proof.
  apply (tag_create_annotated stored_libs 3 100
           (<[U "/w/.git/refs/tags" := Dir]> chained_fs) _ the_repo
           (U "v1") (U "HEAD")).
  apply injective_projections; cbn [fst snd]; [by vm_compute|reflexivity].
Defined.

(** ** Hashing and printing *)

Lemma cat_file_of_blob lib fuel fs repo sha d f :
  forallb is_hex_char sha = true -> len sha = 40 -> lower sha = sha ->
  (forall n, object_read lib n fs repo sha = Ret (GitBlob d)) -> f <> [] ->
  cat_file lib (S fuel) fs repo sha (Some f)
  = if bool_decide (f = B "blob") then Ret d else Raise TypeError.
Proof.
  intros Hhex Hlen Hlow Hread Hf. unfold cat_file, object_find.
  rewrite object_resolve_full_hash, Hlow by done. rewrite bind_Ret.
  change (1 <? len [sha]) with false. cbv iota.
  destruct f as [|c f]; [done|].
  rewrite (object_find_loop_S lib fuel fs repo sha (c :: f) true (GitBlob d))
    by apply Hread.
  cbn [fmt]. case_bool_decide as Hfmt.
  - rewrite bool_decide_eq_true_2 by done. by rewrite bind_Ret, Hread.
  - rewrite bool_decide_eq_false_2 by done. done.
Qed.

(** Printing a blob: for a name of 40 lower-case hexadecimal digits under
    which a blob is stored, [cat_file] returns the blob's bytes when the
    type asked for is [blob], and ends in TypeError, from [None[0:2]], for
    any other type: the [None] that [object_find] returns is not checked. *)
Theorem cat_file_blob
    (lib : Libs) (fuel : nat) (fs : filesystem) (repo : GitRepository)
    (sha : str) (d f : bytes) :
  forallb is_hex_char sha = true -> len sha = 40 -> lower sha = sha ->
  (forall n, object_read lib n fs repo sha = Ret (GitBlob d)) -> f <> [] ->
  cat_file lib (S fuel) fs repo sha (Some f)
  = if bool_decide (f = B "blob") then Ret d else Raise TypeError.
Proof. apply cat_file_of_blob. Qed.

Lemma cat_file_blob_witness :
  cat_file stored_libs 1 blob_fs the_repo blob_hash (Some (B "tree"))
  = Raise TypeError.
Proof.
  apply (cat_file_blob stored_libs 0 blob_fs the_repo blob_hash (B "hi") (B "tree"));
    [reflexivity|reflexivity|reflexivity|intros n; reflexivity|discriminate].
Defined.

(** What was hashed and written is printed back: when [object_hash] of
    bytes as a blob, with a repository, returns a hash of 40 lower-case
    hexadecimal digits, [cat_file] of that hash as a blob returns the
    bytes. *)
Theorem cat_file_hash_object_blob
    (lib : Libs) (fuel fuel' : nat) (fs fs' : filesystem) (repo : GitRepository)
    (data : bytes) (sha : str) :
  hash_object lib fuel fs data (B "blob") (Some repo) = (Ret sha, fs') ->
  forallb is_hex_char sha = true -> len sha = 40 -> lower sha = sha ->
  cat_file lib (S fuel') fs' repo sha (Some (B "blob")) = Ret data.
Proof.
  intros Hh Hhex Hlen Hlow.
  change (hash_object lib fuel fs data (B "blob") (Some repo))
    with (object_write lib fs repo (GitBlob data) true) in Hh.
  rewrite (cat_file_of_blob lib fuel' fs' repo sha data (B "blob")); try done.
  intros n. by apply (object_read_written lib n fs fs' repo (GitBlob data) data sha).
Qed.

Lemma cat_file_hash_object_blob_witness :
  cat_file stored_libs 1
    (hash_object stored_libs 0 (<[U "/w/.git" := Dir]> ∅) (B "hi") (B "blob")
       (Some the_repo)).2
    the_repo (positional_digest (framed (GitBlob (B "hi")) (B "hi")))
    (Some (B "blob"))
  = Ret (B "hi").
Proof.
  apply (cat_file_hash_object_blob stored_libs 0 0 (<[U "/w/.git" := Dir]> ∅) _
           the_repo (B "hi")).
  - apply injective_projections; cbn [fst snd]; [by vm_compute|reflexivity].
  - by vm_compute.
  - by vm_compute.
  - by vm_compute.
Defined.

(** The hash of a commit file is the hash of its first key: for a header of
    lines, a blank line and a message, [object_hash] as a commit, with enough
    fuel and without a repository, writes nothing and returns the digest of
    the frame around the lines that carry the key of the first line, the
    blank line and the message. *)
Theorem hash_object_commit_first_key
    (lib : Libs) (fuel : nat) (fs : filesystem)
    (k v : bytes) (kvs : list (bytes * bytes)) (msg : bytes) :
  Forall (fun kv => header_key kv.1) ((k, v) :: kvs) ->
  (length (kvlm_text ((k, v) :: kvs) msg) < fuel)%nat ->
  let kept := kvlm_text (lines_of k ((k, v) :: kvs)) msg in
  hash_object lib fuel fs (kvlm_text ((k, v) :: kvs) msg) (B "commit") None
  = (Ret (sha1_hexdigest lib
            (B "commit " ++ str_of_int (len kept) ++ [NUL] ++ kept)), fs).
Proof.
  intros Hk Hfuel kept.
  destruct (kvlm_parse_then_serialize k v kvs msg fuel Hk Hfuel) as (d & Hp & Hs).
  unfold hash_object. rewrite bool_decide_eq_true_2 by done.
  unfold new_GitCommit. rewrite Hp, bind_Ret.
  unfold object_write. cbn [serialize]. by rewrite Hs.
Qed.

Lemma hash_object_commit_first_key_witness :
  hash_object stored_libs 60 ∅
    (kvlm_text [(B "tree", B "ab"); (B "author", B "me")] (B "msg"))
    (B "commit") None
  = (Ret (positional_digest
            (B "commit " ++ str_of_int (len (kvlm_text [(B "tree", B "ab")] (B "msg")))
               ++ [NUL] ++ kvlm_text [(B "tree", B "ab")] (B "msg"))), ∅).
Proof.
  apply (hash_object_commit_first_key stored_libs 60 ∅ (B "tree") (B "ab")
           [(B "author", B "me")] (B "msg")).
  - repeat constructor; cbn [fst]; try discriminate;
      apply (bool_decide_unpack _); by vm_compute.
  - vm_compute. lia.
Defined.

(** ** The history *)

Lemma log_graphviz_seen lib k pfuel fs repo sha seen out :
  sha ∈ seen ->
  log_graphviz lib (S k) pfuel fs repo sha seen out = (Ret tt, (seen, out)).
Proof. intros Hin. cbn [log_graphviz]. by rewrite bool_decide_eq_true_2. Qed.

Ltac state_eq :=
  apply injective_projections; cbn [fst snd]; [done|];
  apply injective_projections; cbn [fst snd];
  [ cbn [list_to_set]; rewrite ?(right_id_L ∅ (∪)), ?(assoc_L (∪)); done
  | by rewrite ?app_nil_r, <- ?app_assoc ].

Lemma log_graphviz_history lib pfuel fs repo cs : forall c last fuel seen out,
  history (object_read lib pfuel fs repo) (c :: cs) last ->
  NoDup (c :: cs) -> (forall x, x ∈ c :: cs -> x ∉ seen) ->
  Forall (fun c => Forall (fun x => ord x < 128) c) (c :: cs) ->
  (forall p, last = Some p ->
     Forall (fun x => ord x < 128) p /\ (p ∈ seen \/ p ∈ c :: cs)) ->
  (length (c :: cs) < fuel)%nat ->
  log_graphviz lib fuel pfuel fs repo c seen out
  = (Ret tt, (seen ∪ list_to_set (c :: cs), out ++ edges (c :: cs) last)).
Proof.
  induction cs as [|c' t IH]; intros c last fuel seen out Hh Hnd Hnew Hascii Hlast Hfuel;
    (destruct fuel as [|k]; [simpl in Hfuel; lia|]);
    destruct Hh as [(kvlm & Hread & Hparent) Hrest];
    apply NoDup_cons in Hnd as [Hc Hnd];
    apply Forall_cons in Hascii as [Hca Hascii];
    cbn [log_graphviz];
    rewrite bool_decide_eq_false_2 by (apply Hnew; by left);
    rewrite Hread, Hparent.
  - destruct last as [p|]; cbn [fmap option_fmap option_map edges].
    + destruct (Hlast p eq_refl) as [Hpa Hp].
      cbn [values]. rewrite (ascii_decode p Hpa).
      destruct k as [|k]; [simpl in Hfuel; lia|].
      rewrite log_graphviz_seen.
      * state_eq.
      * apply elem_of_union. destruct Hp as [Hp|Hp]; [by left|right].
        apply elem_of_singleton. by apply list_elem_of_singleton in Hp.
    + state_eq.
  - cbn [fmap option_fmap option_map values edges].
    apply Forall_cons in Hascii as Hascii'. destruct Hascii' as [Hc'a _].
    rewrite (ascii_decode c' Hc'a).
    rewrite (IH c' last k (seen ∪ {[c]})
               (out ++ [U "c_" ++ c ++ U " -> c_" ++ c'])).
    + state_eq.
    + done.
    + done.
    + intros x Hx [Hs|Hs]%elem_of_union.
      * apply (Hnew x); [by right|done].
      * apply elem_of_singleton in Hs. by subst x.
    + done.
    + intros p Hp. destruct (Hlast p Hp) as [Hpa Hin]. split; [done|].
      destruct Hin as [Hin|Hin]; [left; apply elem_of_union; by left|].
      apply elem_of_cons in Hin as [->|Hin]; [|by right].
      left. apply elem_of_union. right. by apply elem_of_singleton.
    + simpl in *. lia.
Qed.

(** The history of a line of commits: for distinct commits not yet seen,
    with ASCII names, each read as a commit whose [parent] is the next one,
    the last having no parent or one that is already seen or is one of the
    line (a cycle), [log_graphviz] on the first, with fuel above their
    number, returns; it prints one line for each commit and its parent, in
    order, and leaves in [seen] the commits it was given and those of the
    line. *)
Theorem log_graphviz_line_of_commits
    (lib : Libs) (fuel pfuel : nat) (fs : filesystem) (repo : GitRepository)
    (c : str) (cs : list str) (last : option str) (seen : gset str)
    (out : list str) :
  history (object_read lib pfuel fs repo) (c :: cs) last ->
  NoDup (c :: cs) -> (forall x, x ∈ c :: cs -> x ∉ seen) ->
  Forall (fun c => Forall (fun x => ord x < 128) c) (c :: cs) ->
  (forall p, last = Some p ->
     Forall (fun x => ord x < 128) p /\ (p ∈ seen \/ p ∈ c :: cs)) ->
  (length (c :: cs) < fuel)%nat ->
  log_graphviz lib fuel pfuel fs repo c seen out
  = (Ret tt, (seen ∪ list_to_set (c :: cs), out ++ edges (c :: cs) last)).
Proof.
  intros Hh Hnd Hnew Hascii Hlast Hfuel.
  by apply log_graphviz_history.
Qed.

Lemma log_graphviz_line_of_commits_witness :
  log_graphviz stored_libs 3 9 history_fs the_repo child_hash ∅ []
  = (Ret tt, (∅ ∪ list_to_set [child_hash; root_hash],
              [] ++ edges [child_hash; root_hash] None)).
Proof.
  apply (log_graphviz_line_of_commits stored_libs 3 9 history_fs the_repo
           child_hash [root_hash] None ∅ []).
  - split; [|split; [|exact I]]; eexists; (split; [by vm_compute|reflexivity]).
  - apply (bool_decide_unpack _). by vm_compute.
  - intros x _. apply not_elem_of_empty.
  - repeat constructor; apply ascii_literal; reflexivity.
  - intros p Hp. discriminate Hp.
  - simpl. lia.
Defined.

(** ** A new repository *)

Lemma and_then_Ret {A C : Type} (m : outcome A * filesystem)
    (k : A -> filesystem -> outcome C * filesystem) c fs' :
  and_then m k = (Ret c, fs') ->
  exists a fs1, m = (Ret a, fs1) /\ k a fs1 = (Ret c, fs').
Proof. destruct m as [[a| |] fs1]; cbn; try discriminate. by exists a, fs1. Qed.

Lemma ancestors_aux_prefix rest : forall pre a,
  a ∈ ancestors_aux pre rest ->
  exists r1 r2, rest = r1 ++ "/"%char :: r2 /\ a = pre ++ r1.
Proof.
  induction rest as [|c t IH]; intros pre a Hin; cbn [ancestors_aux] in Hin.
  - by apply elem_of_nil in Hin.
  - apply elem_of_app in Hin as [Hin|Hin].
    + destruct (ascii_eqb c "/"%char && negb (bool_decide (pre = []))) eqn:Hc;
        [|by apply elem_of_nil in Hin].
      apply list_elem_of_singleton in Hin as ->.
      apply andb_prop in Hc as [Hc _]. unfold ascii_eqb in Hc.
      apply bool_decide_eq_true_1 in Hc as ->.
      exists [], t. by rewrite app_nil_r.
    + destruct (IH _ _ Hin) as (r1 & r2 & -> & ->).
      exists (c :: r1), r2. by rewrite <- app_assoc.
Qed.

Lemma makedirs_frame fs p fs' q :
  makedirs fs p = (Ret tt, fs') ->
  q <> p -> (forall rest, p <> q ++ "/"%char :: rest) ->
  fs' !! q = fs !! q.
Proof.
  unfold makedirs. destruct (List.find _ _); [discriminate|].
  destruct (fs !! p); [discriminate|]. intros [= <-] Hq Hanc.
  rewrite foldr_insert_dir_lookup. case_decide as Hin.
  - apply (ancestors_aux_prefix p [] q) in Hin as (r1 & r2 & Hp & Hq').
    cbn in Hq'. subst r1. by destruct (Hanc r2).
  - by rewrite lookup_insert_ne.
Qed.

Lemma assert_repo_dir_returns fs repo p fs' :
  assert_repo_dir fs repo p = (Ret tt, fs') ->
  fs' !! repo_path repo p = Some Dir
  /\ forall q, q <> repo_path repo p ->
       (forall rest, repo_path repo p <> q ++ "/"%char :: rest) ->
       fs' !! q = fs !! q.
Proof.
  unfold assert_repo_dir, repo_dir. set (P := repo_path repo p).
  destruct (fs !! P) as [[c|]|] eqn:HP; cbn [and_then]; [discriminate| |].
  - destruct (truthy (Some P)); cbn [assert]; [|discriminate].
    by intros [= <-].
  - destruct (makedirs fs P) as [r fs1] eqn:Hmk.
    destruct r as [[]| |]; cbn [mbind outcome_bind bind and_then]; try discriminate.
    destruct (truthy (Some P)); cbn [assert]; [|discriminate].
    intros [= <-]. split.
    + destruct (makedirs_spec _ _ _ _ Hmk) as [(_ & Hd & _)|(e & He & _)];
        [done|discriminate He].
    + intros q Hq Hanc. by apply (makedirs_frame fs P).
Qed.

Lemma write_repo_file_returns fs repo name text fs' :
  write_repo_file fs repo name text = (Ret tt, fs') ->
  fs !! gitdir repo = Some Dir /\ gitdir repo <> []
  /\ fs' = <[repo_path repo [name] := File text]> fs.
Proof.
  unfold write_repo_file, repo_file, repo_dir. cbn [removelast].
  change (repo_path repo []) with (gitdir repo).
  set (P := repo_path repo [name]). clearbody P.
  destruct (fs !! gitdir repo) as [[c|]|] eqn:Hd;
    cbn [mbind outcome_bind bind and_then]; try discriminate.
  destruct (decide (gitdir repo = [])) as [Hg|Hg]; [by rewrite Hg|].
  assert (Ht : truthy (Some (gitdir repo)) = true) by (by destruct (gitdir repo)).
  rewrite Ht.
  assert (Hw : write_text (<[P := File []]> fs) P text = (Ret tt, fs') ->
            Some Dir = Some Dir /\ gitdir repo <> []
            /\ fs' = <[P := File text]> fs).
  { unfold write_text. destruct (forallb _ _); [|discriminate].
    intros [= <-]. by rewrite insert_insert_eq. }
  unfold open_w. destruct (fs !! P) as [[c|]|] eqn:HP; cbn [and_then];
    [done|discriminate|].
  destruct (bool_decide (dirname P = [])); cbn [and_then]; [done|].
  by destruct (fs !! dirname P) as [[c|]|].
Qed.

Lemma endswith_sep_letter p (c : ascii) :
  c <> "/"%char -> endswith_sep (p ++ [c]) = false.
Proof.
  intros Hc. unfold endswith_sep. rewrite last_snoc.
  unfold ascii_eqb. by rewrite bool_decide_eq_false_2.
Qed.

(** The places of the repository, by their text after the directory and its
    separator. *)
Lemma repo_path_one repo x :
  startswith x (U "/") = false ->
  repo_path repo [x]
  = gitdir repo
    ++ (if bool_decide (gitdir repo = []) || endswith_sep (gitdir repo)
        then [] else U "/") ++ x.
Proof. intros Hx. unfold repo_path, path_join. cbn [fold_left]. by apply join1_sep. Qed.

Lemma repo_path_refs repo (x : str) :
  startswith x (U "/") = false ->
  repo_path repo [U "refs"; x]
  = gitdir repo
    ++ (if bool_decide (gitdir repo = []) || endswith_sep (gitdir repo)
        then [] else U "/") ++ U "refs/" ++ x.
Proof.
  intros Hx. unfold repo_path, path_join. cbn [fold_left].
  rewrite (join1_sep (gitdir repo) (U "refs")) by done.
  set (s := if _ || _ then _ else _).
  rewrite (join1_sep _ x Hx).
  replace (gitdir repo ++ s ++ U "refs") with ((gitdir repo ++ s ++ U "ref") ++ ["s"%char])
    by (by rewrite <- !app_assoc).
  rewrite endswith_sep_letter by discriminate.
  rewrite bool_decide_eq_false_2 by (intros H; by apply app_eq_nil in H as [_ ?]).
  cbn [orb]. by rewrite <- !app_assoc.
Qed.

Ltac path_neq :=
  rewrite ?repo_path_refs, ?repo_path_one by done;
  let H := fresh in
  intros H; rewrite <- ?app_assoc in H;
  repeat apply app_inv_head in H; discriminate H.

Lemma new_GitRepository_force_returns conf_read fs path repo :
  new_GitRepository_force conf_read fs path = Ret repo ->
  repo = mkRepo path (join1 path (U ".git")).
Proof.
  unfold new_GitRepository_force.
  destruct (repo_file fs _ _ false).1 as [cf| |]; cbn; try discriminate.
  destruct (if truthy cf then cf else None) as [cf'|]; [|by intros [= <-]].
  destruct (fs !! cf') as [[c|]|]; try (by intros [= <-]).
  destruct (conf_read c); [discriminate|by intros [= <-]].
Qed.

(** [HEAD] names a branch that [repo_create] makes no place for: whenever
    [repo_create] returns, [HEAD] holds [ref: refs/head/master] while the
    directory made for the branches is [refs/heads]; nothing having lain at
    [refs/head/master] before, [ref_resolve] of [HEAD] ends in
    FileNotFoundError, and it still does once [ref_create] has made the branch
    [heads/master]. *)
Theorem repo_create_HEAD_names_no_branch
    (conf_read : bytes -> option exn) (k : nat) (fs fs' : filesystem)
    (path : str) (repo : GitRepository) :
  repo_create conf_read fs path = (Ret repo, fs') ->
  fs !! repo_path repo [U "refs/head/master"] = None ->
  fs' !! repo_path repo [U "HEAD"] = Some (File (U "ref: refs/head/master" ++ [LF]))
  /\ fs' !! repo_path repo [U "refs"; U "heads"] = Some Dir
  /\ ref_resolve (S (S k)) fs' repo (U "HEAD")
     = Raise (FileNotFoundError (repo_path repo [U "refs/head/master"]))
  /\ forall sha fs'',
       ref_create fs' repo (U "heads/master") (Some sha) = (Ret tt, fs'') ->
       ref_resolve (S (S k)) fs'' repo (U "HEAD")
       = Raise (FileNotFoundError (repo_path repo [U "refs/head/master"])).
Proof.
  intros Hc Hq. unfold repo_create in Hc.
  apply and_then_Ret in Hc as (repo0 & fs0 & Hrepo & Hc).
  injection Hrepo as Hrepo <-.
  apply and_then_Ret in Hc as ([] & fs1 & Hwt & Hc).
  apply and_then_Ret in Hc as ([] & fs2 & Hbranches & Hc).
  apply and_then_Ret in Hc as ([] & fs3 & Hobjects & Hc).
  apply and_then_Ret in Hc as ([] & fs4 & Htags & Hc).
  apply and_then_Ret in Hc as ([] & fs5 & Hheads & Hc).
  apply and_then_Ret in Hc as ([] & fs6 & Hdesc & Hc).
  apply and_then_Ret in Hc as ([] & fs7 & Hhead & Hc).
  apply and_then_Ret in Hc as ([] & fs8 & Hconf & Hc).
  injection Hc as -> <-.
  pose proof (new_GitRepository_force_returns _ _ _ _ Hrepo) as Hrep.
  set (q := repo_path repo [U "refs/head/master"]) in *.
  assert (Hq1 : fs1 !! q = None).
  { assert (Hlen : (length (worktree repo) < length q)%nat).
    { unfold q. rewrite repo_path_one by done. rewrite Hrep. cbn [worktree gitdir].
      rewrite (join1_sep path (U ".git")) by done.
      rewrite !length_app. simpl. lia. }
    destruct (fs !! worktree repo) as [[c|]|] eqn:Hw.
    - discriminate Hwt.
    - destruct (bool_decide _); [|discriminate Hwt]. by injection Hwt as <-.
    - destruct (bool_decide _); [discriminate Hwt|].
      rewrite (makedirs_frame fs (worktree repo) fs1 q Hwt); [done| |].
      + intros Heq. rewrite Heq in Hlen. lia.
      + intros rest Heq. rewrite Heq, length_app in Hlen. lia. }
  apply assert_repo_dir_returns in Hbranches as [_ Hf2].
  apply assert_repo_dir_returns in Hobjects as [_ Hf3].
  apply assert_repo_dir_returns in Htags as [_ Hf4].
  apply assert_repo_dir_returns in Hheads as [Hdir Hf5].
  assert (Hq5 : fs5 !! q = None).
  { rewrite Hf5, Hf4, Hf3, Hf2; [done|..]; unfold q; try path_neq;
      intros rest; path_neq. }
  apply write_repo_file_returns in Hdesc as (_ & _ & ->).
  apply write_repo_file_returns in Hhead as (Hg & Hne & ->).
  apply write_repo_file_returns in Hconf as (_ & _ & ->).
  rewrite lookup_insert_ne in Hg by (rewrite ?repo_path_one by done;
    intros H; apply (f_equal length) in H; rewrite !length_app in H; simpl in H; lia).
  set (fs' := <[repo_path repo [U "config"] := _]> _).
  assert (HH : fs' !! repo_path repo [U "HEAD"]
               = Some (File (U "ref: refs/head/master" ++ [LF]))).
  { unfold fs'. rewrite lookup_insert_ne by path_neq. by rewrite lookup_insert_eq. }
  assert (HD : fs' !! repo_path repo [U "refs"; U "heads"] = Some Dir).
  { unfold fs'. by rewrite !lookup_insert_ne by path_neq. }
  assert (HG : fs' !! gitdir repo = Some Dir).
  { unfold fs'. rewrite !lookup_insert_ne; [done|..];
      rewrite ?repo_path_one by done;
      intros H; apply (f_equal length) in H; rewrite !length_app in H;
      simpl in H; lia. }
  assert (HQ : fs' !! q = None).
  { unfold fs', q. by rewrite !lookup_insert_ne by path_neq. }
  assert (Hres : forall fsx, fsx !! gitdir repo = Some Dir ->
            fsx !! repo_path repo [U "HEAD"]
            = Some (File (U "ref: refs/head/master" ++ [LF])) ->
            fsx !! q = None ->
            ref_resolve (S (S k)) fsx repo (U "HEAD") = Raise (FileNotFoundError q)).
  { intros fsx HGx HHx HQx.
    rewrite (ref_resolve_symbolic (S k) fsx repo (U "HEAD") (U "refs/head/master"));
      [|done|done|exact HHx|by apply plain_text_literal].
    cbn [ref_resolve]. rewrite repo_file_ref by done. cbn [fst].
    rewrite bind_Ret. unfold open_r, open_rb. fold q. by rewrite HQx. }
  split_and!; [done|done|by apply Hres|].
  intros sha fs'' Hrc.
  apply ref_create_returns in Hrc as (_ & _ & _ & ->).
  apply Hres.
  - rewrite lookup_insert_ne; [done|].
    rewrite repo_path_one by done.
    intros H; apply (f_equal length) in H; rewrite !length_app in H;
      simpl in H; lia.
  - by rewrite lookup_insert_ne by path_neq.
  - unfold q. by rewrite lookup_insert_ne by path_neq.
Qed.

Lemma repo_create_HEAD_names_no_branch_witness :
  (repo_create (fun _ => None) ∅ (U "/w")).2 !! repo_path the_repo [U "HEAD"]
  = Some (File (U "ref: refs/head/master" ++ [LF]))
  /\ (repo_create (fun _ => None) ∅ (U "/w")).2
     !! repo_path the_repo [U "refs"; U "heads"] = Some Dir
  /\ ref_resolve 2 (repo_create (fun _ => None) ∅ (U "/w")).2 the_repo (U "HEAD")
     = Raise (FileNotFoundError (repo_path the_repo [U "refs/head/master"]))
  /\ forall sha fs'',
       ref_create (repo_create (fun _ => None) ∅ (U "/w")).2 the_repo
         (U "heads/master") (Some sha) = (Ret tt, fs'') ->
       ref_resolve 2 fs'' the_repo (U "HEAD")
       = Raise (FileNotFoundError (repo_path the_repo [U "refs/head/master"])).
Proof.
  apply (repo_create_HEAD_names_no_branch (fun _ => None) 0 ∅ _ (U "/w") the_repo).
  - apply injective_projections; cbn [fst snd]; [by vm_compute|reflexivity].
  - reflexivity.
Defined.

(** ** The work tree *)

Lemma drop_while_app_all {A} (f : A -> bool) (l r : list A) :
  forallb f l = true -> drop_while f (l ++ r) = drop_while f r.
Proof.
  induction l as [|c l IH]; [done|]. cbn. intros [Hc Hl]%andb_prop.
  rewrite Hc. by apply IH.
Qed.

Lemma simple_name_relative n : simple_name n -> startswith n (U "/") = false.
Proof. intros (_ & Hn & _). by apply no_sep_relative. Qed.

Lemma join1_simple path_ n :
  path_ <> [] -> endswith_sep path_ = false -> simple_name n ->
  join1 path_ n = path_ ++ U "/" ++ n.
Proof.
  intros Hne Hsep Hn. rewrite join1_sep by by apply simple_name_relative.
  by rewrite bool_decide_eq_false_2, Hsep.
Qed.

Lemma dirname_join1 path_ n :
  path_ <> [] -> endswith_sep path_ = false -> simple_name n ->
  dirname (join1 path_ n) = path_.
Proof.
  intros Hne Hsep Hn. rewrite join1_simple by done. destruct Hn as (_ & Hn & _).
  destruct (exists_last Hne) as (p' & c & ->).
  assert (Hc : ascii_eqb c "/"%char = false).
  { unfold endswith_sep in Hsep. by rewrite last_snoc in Hsep. }
  unfold dirname.
  replace (rev ((p' ++ [c]) ++ U "/" ++ n))
    with (rev n ++ "/"%char :: c :: rev p')
    by (rewrite !rev_app_distr; cbn; by rewrite <- !app_assoc).
  rewrite drop_while_app_all.
  - cbn [drop_while]. rewrite ascii_eqb_refl. cbn [negb rev].
    rewrite rev_involutive.
    rewrite bool_decide_eq_false_2
      by (intros H; by apply app_eq_nil in H as [_ ?]).
    replace (forallb (fun c0 => ascii_eqb c0 "/"%char) ((p' ++ [c]) ++ ["/"%char]))
      with false.
    + cbn [negb andb]. rewrite rev_app_distr. cbn [rev app drop_while].
      rewrite ascii_eqb_refl. rewrite rev_app_distr. cbn [rev app drop_while].
      rewrite Hc. cbn [rev]. by rewrite rev_involutive.
    + symmetry. rewrite !forallb_app. cbn. rewrite Hc.
      by rewrite andb_false_r.
  - apply forallb_forall. intros x Hx. apply negb_true_iff.
    unfold ascii_eqb. apply bool_decide_eq_false_2. intros ->.
    apply Hn. apply list_elem_of_In. by apply in_rev.
Qed.

Lemma tree_checkout_loop_blobs rec lib pfuel repo path_ items : forall datas fs,
  path_ <> [] -> endswith_sep path_ = false -> fs !! path_ = Some Dir ->
  Forall2 (fun item data =>
             object_read lib pfuel fs repo (sha item) = Ret (GitBlob data))
    items datas ->
  Forall (fun item => simple_name (path item)) items ->
  NoDup (map path items) ->
  (forall item item', item ∈ items -> item' ∈ items ->
     join1 path_ (path item) <> object_file repo (sha item')
     /\ join1 path_ (path item)
        <> repo_path repo [U "objects"; slice (sha item') 0 2]) ->
  (forall item, item ∈ items -> fs !! join1 path_ (path item) <> Some Dir) ->
  tree_checkout_loop rec lib pfuel repo path_ items fs
  = (Ret tt, checked_out path_ items datas fs).
Proof.
  induction items as [|item items IH];
    intros datas fs Hne Hsep Hdir Hread Hnames Hnd Hout Hfree;
    inversion Hread as [|? data ? datas' Hr Hrs]; subst; [done|].
  apply Forall_cons in Hnames as [Hn Hnames].
  cbn [map] in Hnd. apply NoDup_cons in Hnd as [Hfresh Hnd].
  cbn [tree_checkout_loop]. rewrite Hr.
  set (dest := join1 path_ (path item)).
  assert (Hopen : open_w fs (Some dest) = (Ret dest, <[dest := File []]> fs)).
  { unfold open_w. destruct (fs !! dest) as [[c|]|] eqn:Hd; [done| |].
    - by destruct (Hfree item ltac:(by left)).
    - unfold dest. rewrite dirname_join1 by done.
      by rewrite bool_decide_eq_false_2, Hdir. }
  rewrite Hopen. cbn [and_then]. rewrite insert_insert_eq.
  unfold checked_out. cbn [zip zip_with fold_left fst snd]. fold dest.
  assert (Hpath : dest <> path_).
  { unfold dest. rewrite join1_simple by done. intros H.
    apply (f_equal length) in H. rewrite !length_app in H. simpl in H. lia. }
  apply IH; try done.
  - by rewrite lookup_insert_ne.
  - apply Forall2_same_length_lookup. split; [by eapply Forall2_length|].
    intros i item' data' Hi Hd.
    rewrite object_read_insert_other.
    + by apply (Forall2_lookup_lr _ _ _ _ _ _ Hrs Hi Hd).
    + apply (Hout item item'); [by left|right; by eapply list_elem_of_lookup_2].
    + apply (Hout item item'); [by left|right; by eapply list_elem_of_lookup_2].
  - intros a b Ha Hb. apply Hout; by right.
  - intros item' Hin. rewrite lookup_insert_ne; [apply Hfree; by right|].
    unfold dest. rewrite !join1_simple; try done.
    + intros H. do 2 apply app_inv_head in H. apply Hfresh.
      rewrite H. apply list_elem_of_fmap. by exists item'.
    + rewrite Forall_forall in Hnames. by apply Hnames.
Qed.

(** A tree of blobs is written out name by name: into a directory that is
    there, for items whose names are plain names of one component (no
    separator, no NUL, neither [.] nor [..]) and differ, each read by
    [object_read] as a blob, no destination being a directory or a place of
    the object store, [tree_checkout] returns and leaves the files as they
    were but for each blob's bytes under its name. *)
Theorem tree_checkout_blobs
    (lib : Libs) (k pfuel : nat) (fs : filesystem) (repo : GitRepository)
    (items : list GitTreeLeaf) (datas : list bytes) (path_ : bytes) :
  path_ <> [] -> endswith_sep path_ = false -> fs !! path_ = Some Dir ->
  Forall2 (fun item data =>
             object_read lib pfuel fs repo (sha item) = Ret (GitBlob data))
    items datas ->
  Forall (fun item => simple_name (path item)) items ->
  NoDup (map path items) ->
  (forall item item', item ∈ items -> item' ∈ items ->
     join1 path_ (path item) <> object_file repo (sha item')
     /\ join1 path_ (path item)
        <> repo_path repo [U "objects"; slice (sha item') 0 2]) ->
  (forall item, item ∈ items -> fs !! join1 path_ (path item) <> Some Dir) ->
  tree_checkout lib (S k) pfuel fs repo (GitTree items) path_
  = (Ret tt, checked_out path_ items datas fs).
Proof. intros. cbn [tree_checkout]. by apply tree_checkout_loop_blobs. Qed.

Lemma tree_checkout_blobs_witness :
  tree_checkout stored_libs 1 1 (<[U "/out" := Dir]> blob_fs) the_repo
    (GitTree [mkLeaf (B "100644") (B "a.txt") blob_hash]) (B "/out")
  = (Ret tt, checked_out (B "/out") [mkLeaf (B "100644") (B "a.txt") blob_hash]
               [B "hi"] (<[U "/out" := Dir]> blob_fs)).
Proof.
  apply (tree_checkout_blobs stored_libs 0 1 (<[U "/out" := Dir]> blob_fs) the_repo
           [mkLeaf (B "100644") (B "a.txt") blob_hash] [B "hi"] (B "/out")).
  - discriminate.
  - reflexivity.
  - reflexivity.
  - constructor; [by vm_compute|constructor].
  - constructor; [|constructor].
    split_and!; [discriminate|apply (bool_decide_unpack _); by vm_compute..
                |discriminate|discriminate].
  - apply (bool_decide_unpack _). by vm_compute.
  - intros item item' ->%list_elem_of_singleton ->%list_elem_of_singleton.
    split; intros H; vm_compute in H; discriminate H.
  - intros item ->%list_elem_of_singleton. intros H. vm_compute in H.
    discriminate H.
Defined.

(** The hash of a blob or of a tree is the hash of the bytes given: for any
    bytes as a blob, and for a payload of well-formed entries as a tree
    (with more fuel than entries), [object_hash] without a repository writes
    nothing and returns the digest of the type, the length and the bytes
    themselves. *)
Theorem hash_object_blob_or_tree
    (lib : Libs) (fuel : nat) (fs : filesystem) (data : bytes)
    (es : list tree_entry) :
  Forall wf_entry es -> (length es < fuel)%nat ->
  hash_object lib fuel fs data (B "blob") None
  = (Ret (sha1_hexdigest lib (B "blob " ++ str_of_int (len data) ++ [NUL] ++ data)), fs)
  /\ hash_object lib fuel fs (tree_payload es) (B "tree") None
     = (Ret (sha1_hexdigest lib
               (B "tree " ++ str_of_int (len (tree_payload es)) ++ [NUL]
                  ++ tree_payload es)), fs).
Proof.
  intros Hes Hfuel. split; [done|].
  unfold hash_object.
  rewrite bool_decide_eq_false_2 by discriminate.
  rewrite bool_decide_eq_true_2 by done.
  unfold new_GitTree, tree_parse.
  pose proof (tree_parse_loop_payload es [] [] fuel Hes Hfuel) as Hp.
  cbn [app] in Hp. change (len (@nil ascii)) with 0 in Hp.
  rewrite Hp, bind_Ret. unfold object_write. cbn [serialize app]. unfold tree_serializer.
  by rewrite tree_serializer_loop_leaves.
Qed.

Lemma hash_object_blob_or_tree_witness :
  hash_object stored_libs 2 ∅ (B "hi") (B "blob") None
  = (Ret (positional_digest (B "blob " ++ str_of_int (len (B "hi")) ++ [NUL] ++ B "hi")), ∅)
  /\ hash_object stored_libs 2 ∅ (tree_payload [zero_led_entry]) (B "tree") None
     = (Ret (positional_digest
               (B "tree " ++ str_of_int (len (tree_payload [zero_led_entry])) ++ [NUL]
                  ++ tree_payload [zero_led_entry])), ∅).
Proof.
  apply (hash_object_blob_or_tree stored_libs 2 ∅ (B "hi") [zero_led_entry]).
  - apply zero_led_entry_wf.
  - simpl. lia.
Defined.

(** ** Writing an object twice *)

Lemma find_none_Forall {A : Type} (f : A -> bool) (l : list A) :
  Forall (fun a => f a = false) l -> List.find f l = None.
Proof. induction 1 as [|a l Ha _ IH]; [done|]. cbn. by rewrite Ha. Qed.

Lemma object_file_beyond_bucket repo sha :
  forallb is_hex_char sha = true -> 2 < len sha ->
  (length (repo_path repo [U "objects"; slice sha 0 2])
   < length (object_file repo sha))%nat.
Proof.
  intros Hhex Hlen.
  change (object_file repo sha)
    with (join1 (repo_path repo [U "objects"; slice sha 0 2]) (slice_from sha 2)).
  assert (Hrest : slice_from sha 2 = drop 2 sha).
  { unfold slice_from. by rewrite clamp_in_range by lia. }
  rewrite join1_sep.
  - rewrite !length_app, Hrest, length_drop. unfold len in Hlen. lia.
  - apply no_sep_relative. intros Hin. apply (hex_no_sep sha Hhex).
    by apply (slice_from_subseteq sha 2).
Qed.

(** A write into a store with room for the object returns its hash. *)
Lemma object_write_succeeds lib fs repo obj data :
  serialize obj = Ret (Some data) ->
  forallb is_hex_char (sha1_hexdigest lib (framed obj data)) = true ->
  2 < len (sha1_hexdigest lib (framed obj data)) ->
  Forall (fun a => is_file fs a = false)
    (repo_path repo [U "objects"; slice (sha1_hexdigest lib (framed obj data)) 0 2]
     :: ancestors
          (repo_path repo
             [U "objects"; slice (sha1_hexdigest lib (framed obj data)) 0 2])) ->
  fs !! object_file repo (sha1_hexdigest lib (framed obj data)) <> Some Dir ->
  (object_write lib fs repo obj true).1 = Ret (sha1_hexdigest lib (framed obj data)).
Proof.
  set (sha := sha1_hexdigest lib (framed obj data)).
  set (D := repo_path repo [U "objects"; slice sha 0 2]).
  intros Hser Hhex Hlen Hway Hfree.
  pose proof (object_file_beyond_bucket repo sha Hhex Hlen) as Hlong. fold D in Hlong.
  apply Forall_cons in Hway as [HD Hanc].
  assert (Ht : truthy (Some D) = true).
  { pose proof (repo_path_objects_nonempty repo (slice sha 0 2)) as HneD.
    fold D in HneD. by destruct D. }
  assert (Hopen : forall fs1, fs1 !! object_file repo sha <> Some Dir ->
            (open_wb fs1 (Some (object_file repo sha))
               (zlib_compress lib (framed obj data))).1 = Ret tt).
  { intros fs1 H1. unfold open_wb. by destruct (fs1 !! object_file repo sha) as [[c|]|]. }
  unfold object_write. rewrite Hser. fold (framed obj data). fold sha.
  unfold repo_file. change (removelast [?a; ?b; ?c]) with [a; b].
  fold (object_file repo sha). unfold repo_dir. fold D.
  destruct (fs !! D) as [[c|]|] eqn:HfsD.
  - unfold is_file in HD. by rewrite HfsD in HD.
  - cbn [mbind outcome_bind bind]. rewrite Ht.
    specialize (Hopen fs Hfree).
    destruct (open_wb fs _ _) as [w fs2]. cbn [fst] in *. by rewrite Hopen.
  - unfold makedirs. rewrite (find_none_Forall _ _ Hanc), HfsD.
    cbn [mbind outcome_bind bind]. rewrite Ht.
    set (fs1 := foldr _ _ _).
    assert (H1 : fs1 !! object_file repo sha <> Some Dir).
    { unfold fs1. rewrite foldr_insert_dir_lookup. case_decide as Hin.
      - apply (ancestors_aux_prefix D [] (object_file repo sha)) in Hin
          as (r1 & r2 & HDeq & Hr1).
        rewrite app_nil_l in Hr1. subst r1. rewrite HDeq, length_app in Hlong. lia.
      - rewrite lookup_insert_ne; [done|]. intros Heq. rewrite Heq in Hlong. lia. }
    specialize (Hopen fs1 H1).
    destruct (open_wb fs1 _ _) as [w fs2]. cbn [fst] in *. by rewrite Hopen.
Qed.

(** What a write that returns a hash has stored. *)
Lemma object_write_stores lib fs repo obj sha :
  (object_write lib fs repo obj true).1 = Ret sha ->
  (object_write lib fs repo obj false).1 = Ret sha
  /\ exists data,
       serialize obj = Ret (Some data)
       /\ sha = sha1_hexdigest lib (framed obj data)
       /\ (object_write lib fs repo obj true).2 !! object_file repo sha
          = Some (File (zlib_compress lib (framed obj data))).
Proof.
  destruct (serialize obj) as [[data|]|e|] eqn:Hser.
  2-4: by unfold object_write; rewrite Hser; cbn [fst snd]; rewrite ?Hser.
  destruct (object_write_cases lib fs repo obj data Hser)
    as [(fs1 & Hw & _)|(e & fs1 & Hw & _)]; rewrite Hw; cbn [fst snd]; [|done].
  intros Hsha. inversion Hsha; subst sha. split.
  - unfold object_write. by rewrite Hser.
  - exists data. split_and!; [done|done|apply lookup_insert_eq].
Qed.


